(** * DistanceEquation: the fast marching method of FiPy's level-set module

    A shallow embedding of
    [fipy/models/levelSet/distanceFunction/distanceEquation.py].

    Conventions of the embedding.
    - A cell value is a rational number ([Q]): the arithmetic of the source
      is modelled exactly, rounding is not.  The square root of a
      non-negative number has no rational counterpart and stays a parameter
      [sqrt : Q -> Q] of the development.
    - The results of the floating-point arithmetic that are no numbers, the
      square root of a negative number and the quotients by zero of
      [_calcQuadratic], are the value [NaN] of the type [Float]:
      [_calcQuadratic] and [_calcTrialValue] return it as they return a
      number.  The loops store such a result in [self.var] and go on; what
      follows rests on how the array library orders a not-a-number, which
      is no part of the sources, and the model ends the run there with
      [Raise NotANumber].
    - A [Numeric] array is a list read with [getitem] and written with
      [setitem]; an index out of range raises [IndexError], as it does in
      Python.
    - An [MA] masked array is a list of [option Q], [None] being a masked
      entry.  [MA.argmin] and [MA.argsort] work on the array filled with
      the fill value [1e20] in the place of the masked entries.
      [MA.masked_values(x, v)] masks the entries within the tolerance
      [1e-8 + 1e-5 * |v|] of [v].  Where a masked entry is used as a number
      the model ends the run with [Raise MAError].
    - The while loop of [_calcRemainingValues] runs on fuel; that it ends
      is a theorem.
    - A Python exception is a value [Raise e] of the result type [res]. *)

From Stdlib Require Import QArith Qabs Lqa Lia.
From stdpp Require Import base list sorting relations.
Local Open Scope Q_scope.

(** ** Exceptions *)

Inductive exn : Set :=
| Error        (* [raise Error] of [_calcTrialValue] *)
| IndexError   (* an array index out of range *)
| ValueError   (* a reduction over an empty axis, [list.remove] of an absent item *)
| MAError      (* a masked entry used where a number is needed *)
| NotANumber.  (* a result that is no number stored in [self.var] *)

Inductive res (A : Type) : Type :=
| Ok (a : A)
| Raise (e : exn).
Arguments Ok {A} a.
Arguments Raise {A} e.

#[global] Instance res_ret : MRet res := @Ok.
#[global] Instance res_bind : MBind res := λ A B k m,
  match m with
  | Ok a => k a
  | Raise e => Raise e
  end.

(** A result that is no exception of Python: a value, or one of the two
    points where the arrays are followed no further. *)
Definition no_exception {A} (r : res A) : Prop :=
  match r with
  | Ok _ => True
  | Raise e => e = MAError ∨ e = NotANumber
  end.

(** ** Floating-point results *)

(** A result of the floating-point arithmetic: a number, or [NaN], which
    stands for the results that are no numbers: the not-a-number of the
    square root of a negative number and of 0/0, and the infinities of the
    other quotients by zero. *)
Inductive Float : Type :=
| Num (q : Q)
| NaN.

Definition Float_add (x : Q) (y : Float) : Float :=
  match y with
  | Num b => Num (x + b)
  | NaN => NaN
  end.

Definition Float_sub (x : Q) (y : Float) : Float :=
  match y with
  | Num b => Num (x - b)
  | NaN => NaN
  end.

Definition Float_div (x : Float) (y : Q) : Float :=
  match x with
  | Num a => if Qeq_bool y 0 then NaN else Num (a / y)
  | NaN => NaN
  end.

(** ** Arrays *)

(** A result that is no number cannot be followed in [self.var]. *)
Definition number (x : Float) : res Q :=
  match x with
  | Num q => Ok q
  | NaN => Raise NotANumber
  end.

Definition getitem {A} (a : list A) (i : nat) : res A :=
  match a !! i with
  | Some x => Ok x
  | None => Raise IndexError
  end.

Definition setitem {A} (a : list A) (i : nat) (x : A) : res (list A) :=
  if decide (i < length a)%nat then Ok (<[i:=x]> a) else Raise IndexError.

(** [Numeric.take(a, ids)]. *)
Fixpoint Numeric_take {A} (a : list A) (ids : list nat) : res (list A) :=
  match ids with
  | [] => Ok []
  | i :: ids' =>
      x ← getitem a i;
      xs ← Numeric_take a ids';
      Ok (x :: xs)
  end.

(** [for i in ids: f(i)], collecting the results. *)
Fixpoint for_each {A} (f : nat → res A) (ids : list nat) : res (list A) :=
  match ids with
  | [] => Ok []
  | i :: ids' =>
      x ← f i;
      xs ← for_each f ids';
      Ok (x :: xs)
  end.

(** [Numeric.sum] of a row of integers. *)
Definition Numeric_sum (l : list nat) : nat := foldr Nat.add 0%nat l.

(** [Numeric.nonzero(Numeric.where(flag == 2, 1, 0))]: the indices that hold
    a 2, in ascending order. *)
Fixpoint nonzero_eq2_from (i : nat) (flag : list nat) : list nat :=
  match flag with
  | [] => []
  | f :: flag' =>
      if decide (f = 2%nat) then i :: nonzero_eq2_from (S i) flag'
      else nonzero_eq2_from (S i) flag'
  end.
Definition nonzero_eq2 (flag : list nat) : list nat := nonzero_eq2_from 0 flag.

(** [list.remove(x)]: the first occurrence goes, [ValueError] if there is
    none. *)
Fixpoint list_remove (x : nat) (l : list nat) : res (list nat) :=
  match l with
  | [] => Raise ValueError
  | y :: l' =>
      if decide (x = y) then Ok l'
      else l'' ← list_remove x l'; Ok (y :: l'')
  end.

(** The scan of [Numeric.argmin]: the first position of a least element.
    [best] and [bv] are the position and value of the least element seen so
    far, [i] the position of the head of [l]. *)
Fixpoint argmin_from {A} (ltb : A → A → bool) (best : nat) (bv : A)
    (i : nat) (l : list A) : nat :=
  match l with
  | [] => best
  | x :: l' =>
      if ltb x bv then argmin_from ltb i x (S i) l'
      else argmin_from ltb best bv (S i) l'
  end.

Definition argmin {A} (ltb : A → A → bool) (l : list A) : res nat :=
  match l with
  | [] => Raise ValueError
  | x :: l' => Ok (argmin_from ltb 0%nat x 1%nat l')
  end.

Definition Qltb (x y : Q) : bool := negb (Qle_bool y x).

Definition Numeric_argmin (l : list Q) : res nat := argmin Qltb l.

(** ** Masked arrays *)

(** The fill value of a masked array of floating-point numbers, [1e20]. *)
Definition MA_fill : Q := 100000000000000000000.

(** [MA.filled(x)] on one entry. *)
Definition MA_filled (x : option Q) : Q := default MA_fill x.

(** The order in which [MA.argmin] and [MA.argsort] see the entries of a
    masked array: that of the filled entries. *)
Definition MA_ltb (x y : option Q) : bool :=
  Qltb (MA_filled x) (MA_filled y).

Definition MA_abs (l : list (option Q)) : list (option Q) :=
  map (option_map Qabs) l.

Definition MA_argmin (l : list (option Q)) : res nat := argmin MA_ltb l.

(** The tolerances [atol] and [rtol] of [MA.masked_values]. *)
Definition MA_atol : Q := 1 # 100000000.
Definition MA_rtol : Q := 1 # 100000.

(** [MA.masked_values(x, v)] on one entry: the entry is masked when
    [|x - v| <= atol + rtol * |v|]. *)
Definition MA_masked_values (x v : Q) : option Q :=
  if Qle_bool (Qabs (x - v)) (MA_atol + MA_rtol * Qabs v) then None
  else Some x.

(** [MA.array(data, mask = m)]. *)
Fixpoint MA_array (data : list Q) (mask : list bool) : list (option Q) :=
  match data, mask with
  | x :: data', m :: mask' => (if m then None else Some x) :: MA_array data' mask'
  | _, _ => []
  end.

(** A masked entry has no numeric value. *)
Definition unmasked (x : option Q) : res Q :=
  match x with
  | Some v => Ok v
  | None => Raise MAError
  end.

(** [MA.argsort]: the positions of the array, sorted by their filled
    entries.  An insertion sort; positions are inserted from the last to
    the first, each in front of the first entry that is not below its own,
    so that equal entries keep their order. *)
Fixpoint argsort_insert (key : nat → option Q) (i : nat) (sorted : list nat)
    : list nat :=
  match sorted with
  | [] => [i]
  | j :: sorted' =>
      if MA_ltb (key j) (key i) then j :: argsort_insert key i sorted'
      else i :: j :: sorted'
  end.

Definition MA_argsort (l : list (option Q)) : list nat :=
  foldr (argsort_insert (λ i, default None (l !! i))) []
        (seq 0 (length l)).

(** [a.mask()] as an array of 0 and 1. *)
Definition MA_mask (l : list (option Q)) : list nat :=
  map (λ x, match x with Some _ => 0%nat | None => 1%nat end) l.

(** ** The mesh *)

Record Mesh : Type := {
  getNumberOfCells : nat;
  getMaxFacesPerCell : nat;
  (* per cell and face slot: the cell across the face, the cell itself
     across a boundary face *)
  getCellToCellIDsFilled : list (list nat);
  getCellToCellDistances : list (list Q);
  getCellNormals : list (list (Q * Q));
  getCellAreas : list (list Q)
}.

(** The arrays of a mesh are rectangular, [N] rows of [M] slots, and a
    neighbour is a cell of the mesh. *)
Record wf_mesh (mesh : Mesh) : Prop := {
  wf_ids_rows : length (getCellToCellIDsFilled mesh) = getNumberOfCells mesh;
  wf_dist_rows : length (getCellToCellDistances mesh) = getNumberOfCells mesh;
  wf_normal_rows : length (getCellNormals mesh) = getNumberOfCells mesh;
  wf_area_rows : length (getCellAreas mesh) = getNumberOfCells mesh;
  wf_ids_cols : Forall (λ r, length r = getMaxFacesPerCell mesh)
                  (getCellToCellIDsFilled mesh);
  wf_dist_cols : Forall (λ r, length r = getMaxFacesPerCell mesh)
                   (getCellToCellDistances mesh);
  wf_normal_cols : Forall (λ r, length r = getMaxFacesPerCell mesh)
                     (getCellNormals mesh);
  wf_area_cols : Forall (λ r, length r = getMaxFacesPerCell mesh)
                   (getCellAreas mesh);
  wf_ids_range : Forall (Forall (λ j, (j < getNumberOfCells mesh)%nat))
                   (getCellToCellIDsFilled mesh)
}.

(** ** Specification predicates *)

(** [r] is the first position of a least element of [l]. *)
Definition is_argmin {A} (ltb : A → A → bool) (l : list A) (r : nat) : Prop :=
  ∃ xr, l !! r = Some xr
        ∧ (∀ j x, l !! j = Some x → ltb x xr = false)
        ∧ (∀ j x, (j < r)%nat → l !! j = Some x → ltb xr x = true).

(** A strict order whose incomparability is transitive. *)
Record strict_weak {A} (ltb : A → A → bool) : Prop := {
  sw_irrefl : ∀ x, ltb x x = false;
  sw_trans : ∀ x y z, ltb x y = true → ltb y z = true → ltb x z = true;
  sw_cotrans : ∀ x y z, ltb x z = true → ltb x y = true ∨ ltb y z = true
}.

(** Position [a] holds an entry that is not above the entry at [b]. *)
Definition key_le (key : nat → option Q) (a b : nat) : Prop :=
  MA_ltb (key b) (key a) = false.

(** ** DistanceEquation *)

Section DistanceEquation.

(** The square root of a non-negative number. *)
Variable sqrt : Q → Q.

(** [Numeric.sqrt]: a not-a-number on a negative argument. *)
Definition Numeric_sqrt (x : Q) : Float :=
  if Qltb x 0 then NaN else Num (sqrt x).

(** [self.mesh]. *)
Variable mesh : Mesh.

Let N := getNumberOfCells mesh.
Let M := getMaxFacesPerCell mesh.

(** Modelled from the spec: [DistanceVariable.getInterfaceFlag], read
    through [mesh.getCellFaceIDs()], is missing from the sources.  Per
    cell and face slot it is 1 when the face borders a cell of opposite
    sign, one value strictly positive and the other strictly negative,
    and 0 otherwise. *)
Definition getInterfaceFlag (phi phiAdj : Q) : nat :=
  if Qltb (phi * phiAdj) 0 then 1%nat else 0%nat.

Definition Qnat (n : nat) : Q := inject_Z (Z.of_nat n).

(** One row of [_calcInterfaceValues]: for the cell [cellID], the row of
    [cellZeroFlag] and the row of the masked array [distance].  Across a
    boundary face [phiAdj] is [phi] itself and the quotient is a division
    by 0, which is 0 in [Q]: the entry is masked, as every entry of a face
    that does not border a cell of opposite sign. *)
Definition interfaceRow (var : list Q) (cellID : nat)
    : res (list nat * list (option Q)) :=
  phi ← getitem var cellID;
  cellToCellIDs ← getitem (getCellToCellIDsFilled mesh) cellID;
  dAP ← getitem (getCellToCellDistances mesh) cellID;
  phiAdj ← Numeric_take var cellToCellIDs;
  cellZeroFlag ← for_each (λ s, pa ← getitem phiAdj s;
                                Ok (getInterfaceFlag phi pa)) (seq 0 M);
  distance ← for_each (λ s, d ← getitem dAP s;
                            pa ← getitem phiAdj s;
                            f ← getitem cellZeroFlag s;
                            Ok (MA_masked_values
                                  (phi * d / Qabs (phi - pa) * Qnat f) 0))
                      (seq 0 M);
  Ok (cellZeroFlag, distance).

(** The new value and the flag of one cell in [_calcInterfaceValues]:
    [MA.where(cellFlag > 0, distance, self.var)].  A masked entry cannot be
    stored in [self.var]. *)
Definition interfaceCell (var : list Q) (cellID : nat) : res (Q * nat) :=
  '(cellZeroFlag, distance) ← interfaceRow var cellID;
  argmins ← MA_argmin (MA_abs distance);
  distance ← getitem distance argmins;
  let cellFlag := Numeric_sum cellZeroFlag in
  if decide (0 < cellFlag)%nat then
    v ← unmasked distance; Ok (v, 1%nat)
  else
    v ← getitem var cellID; Ok (v, 0%nat).

(** [_calcInterfaceValues]: the new [self.var] and the returned flags. *)
Definition _calcInterfaceValues (var : list Q) : res (list Q * list nat) :=
  cells ← for_each (interfaceCell var) (seq 0 N);
  Ok (cells.*1, cells.*2).

Definition _calcLinear (phi d : Q) (cellID adjCellID : nat) : Q * Q :=
  (phi + d, phi - d).

Definition Numeric_dot (n1 n2 : Q * Q) : Q :=
  n1.1 * n2.1 + n1.2 * n2.2.

Definition _calcQuadratic (phi1 phi2 : Q) (n1 n2 : Q * Q) (d1 d2 : Q)
    (area1 area2 : Q) (cellID adjCellID1 adjCellID2 : nat) : Float * Float :=
  let dotProd := d1 * d2 * Numeric_dot n1 n2 in
  let crossProd := d1 * d2 * (n1.1 * n2.2 - n1.2 * n2.1) in
  let dsq := d1 ^ 2 + d2 ^ 2 - 2 * dotProd in
  let top := - phi1 * (dotProd - d2 ^ 2) - phi2 * (dotProd - d1 ^ 2) in
  let sqrt := Numeric_sqrt (crossProd ^ 2 * (dsq - (phi1 - phi2) ^ 2)) in
  (Float_div (Float_add top sqrt) dsq, Float_div (Float_sub top sqrt) dsq).

(** The branches of [_calcTrialValue] on [NSetValues], once the
    neighbours are gathered and sorted. *)
Definition trialBranches (cellID : nat) (cellToCellIDs argsort : list nat)
    (values : list (option Q)) (dAP : list Q) (normals : list (Q * Q))
    (areas : list Q) (sign : Z) : res Float :=
  let NSetValues :=
    (length (MA_mask values) - Numeric_sum (MA_mask values))%nat in
  if decide (NSetValues = 0%nat) then Raise Error
  else if decide (NSetValues = 1%nat) then
    v0 ← getitem values 0 ≫= unmasked;
    d0 ← getitem dAP 0;
    adj0 ← getitem argsort 0 ≫= getitem cellToCellIDs;
    let lin := _calcLinear v0 d0 cellID adj0 in
    if decide (0 < sign)%Z then Ok (Num lin.1) else Ok (Num lin.2)
  else
    v0 ← getitem values 0 ≫= unmasked;
    v1 ← getitem values 1 ≫= unmasked;
    n0 ← getitem normals 0;
    n1 ← getitem normals 1;
    d0 ← getitem dAP 0;
    d1 ← getitem dAP 1;
    a0 ← getitem areas 0;
    a1 ← getitem areas 1;
    adj0 ← getitem argsort 0 ≫= getitem cellToCellIDs;
    adj1 ← getitem argsort 1 ≫= getitem cellToCellIDs;
    let quad := _calcQuadratic v0 v1 n0 n1 d0 d1 a0 a1 cellID adj0 adj1 in
    if decide (0 < sign)%Z then Ok quad.1 else Ok quad.2.

Definition _calcTrialValue (var : list Q) (cellID : nat)
    (setValueFlag : list nat) : res Float :=
  cellToCellIDs ← getitem (getCellToCellIDsFilled mesh) cellID;
  dAP ← getitem (getCellToCellDistances mesh) cellID;
  phiAdj ← Numeric_take var cellToCellIDs;
  adjFlag ← Numeric_take setValueFlag cellToCellIDs;
  let values := MA_array phiAdj (map (λ f, negb (f =? 1)%nat) adjFlag) in
  let argsort := MA_argsort (MA_abs values) in
  values ← Numeric_take values argsort;
  dAP ← Numeric_take dAP argsort;
  normals ← getitem (getCellNormals mesh) cellID;
  normals ← Numeric_take normals argsort;
  areas ← getitem (getCellAreas mesh) cellID;
  areas ← Numeric_take areas argsort;
  phi ← getitem var cellID;
  let sign := if Qltb 0 phi then 1%Z else (-1)%Z in
  trialBranches cellID cellToCellIDs argsort values dAP normals areas sign.

(** What [_calcTrialValue] gathers for the cell [cellID]: the rows of the
    mesh, the value [phi] of the cell, the masked array [vals] of the
    values of its Known neighbours and the sorted positions [p]. *)
Record trial_view (var : list Q) (setValueFlag : list nat) (cellID : nat)
    (ids : list nat) (dAP : list Q) (normals : list (Q * Q))
    (areas : list Q) (phi : Q) (vals : list (option Q)) (p : list nat)
    : Prop := {
  tv_ids : getCellToCellIDsFilled mesh !! cellID = Some ids;
  tv_dAP : getCellToCellDistances mesh !! cellID = Some dAP;
  tv_normals : getCellNormals mesh !! cellID = Some normals;
  tv_areas : getCellAreas mesh !! cellID = Some areas;
  tv_phi : var !! cellID = Some phi;
  tv_len_ids : length ids = M;
  tv_len_dAP : length dAP = M;
  tv_len_normals : length normals = M;
  tv_len_areas : length areas = M;
  tv_len_vals : length vals = M;
  tv_vals : ∀ s j, ids !! s = Some j →
      ∃ v f, var !! j = Some v ∧ setValueFlag !! j = Some f
             ∧ vals !! s = Some (if decide (f = 1%nat) then Some v else None);
  tv_perm : p ≡ₚ seq 0 M;
  tv_sorted : StronglySorted (key_le (λ i, default None (MA_abs vals !! i))) p
}.

(** The loop [for cellID in trialCellIDs: self.var[cellID] = ...] of
    [_calcInitialTrialValues]. *)
Fixpoint setTrialValues (trialCellIDs : list nat) (var : list Q)
    (setValueFlag : list nat) : res (list Q) :=
  match trialCellIDs with
  | [] => Ok var
  | cellID :: rest =>
      v ← _calcTrialValue var cellID setValueFlag ≫= number;
      var ← setitem var cellID v;
      setTrialValues rest var setValueFlag
  end.

(** The new flag of one cell in [_calcInitialTrialValues]. *)
Definition initialFlag (setValueFlag : list nat) (cellID : nat) : res nat :=
  cellToCellIDs ← getitem (getCellToCellIDsFilled mesh) cellID;
  adjacentCellFlag ← Numeric_take setValueFlag cellToCellIDs;
  f ← getitem setValueFlag cellID;
  let sumAdjacentCellFlag := Numeric_sum adjacentCellFlag in
  Ok (if decide (sumAdjacentCellFlag = 0%nat) then f
      else if decide (f = 1%nat) then f else 2%nat).

Definition _calcInitialTrialValues (var : list Q) (setValueFlag : list nat)
    : res (list Q * list nat) :=
  setValueFlag ← for_each (initialFlag setValueFlag) (seq 0 N);
  let trialCellIDs := nonzero_eq2 setValueFlag in
  var ← setTrialValues trialCellIDs var setValueFlag;
  Ok (var, setValueFlag).

(** The state of the marching loop: [self.var], [setValueFlag] and
    [trialCellIDs]. *)
Definition march_state : Type := list Q * list nat * list nat.

(** The loop [for adjCellID in cellToCellIDs] of [_calcRemainingValues]. *)
Fixpoint relax (cellToCellIDs : list nat) (st : march_state)
    : res march_state :=
  match cellToCellIDs with
  | [] => Ok st
  | adjCellID :: rest =>
      let '(var, setValueFlag, trialCellIDs) := st in
      f ← getitem setValueFlag adjCellID;
      if decide (f ≠ 1%nat) then
        v ← _calcTrialValue var adjCellID setValueFlag ≫= number;
        var ← setitem var adjCellID v;
        if decide (f = 0%nat) then
          setValueFlag ← setitem setValueFlag adjCellID 2%nat;
          relax rest (var, setValueFlag, trialCellIDs ++ [adjCellID])
        else relax rest (var, setValueFlag, trialCellIDs)
      else relax rest st
  end.

(** The cell the loop finalizes next. *)
Definition selectCell (var : list Q) (trialCellIDs : list nat) : res nat :=
  values ← Numeric_take var trialCellIDs;
  argmin ← Numeric_argmin (map Qabs values);
  getitem trialCellIDs argmin.

(** One iteration of the [while] loop of [_calcRemainingValues]. *)
Definition march_step (st : march_state) : res march_state :=
  let '(var, setValueFlag, trialCellIDs) := st in
  cellID ← selectCell var trialCellIDs;
  setValueFlag ← setitem setValueFlag cellID 1%nat;
  trialCellIDs ← list_remove cellID trialCellIDs;
  cellToCellIDs ← getitem (getCellToCellIDsFilled mesh) cellID;
  relax cellToCellIDs (var, setValueFlag, trialCellIDs).

(** The [while len(trialCellIDs) > 0] loop, run for at most [fuel]
    iterations; [None] when the fuel runs out first. *)
Fixpoint march (fuel : nat) (st : march_state) : option (res march_state) :=
  match st.2 with
  | [] => Some (Ok st)
  | _ :: _ =>
      match fuel with
      | O => None
      | S fuel' =>
          match march_step st with
          | Ok st' => march fuel' st'
          | Raise e => Some (Raise e)
          end
      end
  end.

(** [_calcRemainingValues]: the final [self.var] and [setValueFlag]. *)
Definition _calcRemainingValues (fuel : nat) (var : list Q)
    (setValueFlag : list nat) : option (res (list Q * list nat)) :=
  let trialCellIDs := nonzero_eq2 setValueFlag in
  match march fuel (var, setValueFlag, trialCellIDs) with
  | Some (Ok st) => Some (Ok st.1)
  | Some (Raise e) => Some (Raise e)
  | None => None
  end.

(** [solve]: the final [self.var] and [setValueFlag]. *)
Definition solve (fuel : nat) (var : list Q)
    : option (res (list Q * list nat)) :=
  match _calcInterfaceValues var with
  | Raise e => Some (Raise e)
  | Ok (var, setValueFlag) =>
      match _calcInitialTrialValues var setValueFlag with
      | Raise e => Some (Raise e)
      | Ok (var, setValueFlag) => _calcRemainingValues fuel var setValueFlag
      end
  end.

(** The marching loop goes from one state to another in a number of
    iterations. *)
Definition march_steps : relation march_state :=
  rtc (λ st st', march_step st = Ok st').

End DistanceEquation.

(** The list [trialCellIDs] holds, once each, the cells whose flag is 2
    (Trial). *)
Definition trial_inv (st : march_state) : Prop :=
  NoDup st.2 ∧ ∀ c, c ∈ st.2 ↔ st.1.2 !! c = Some 2%nat.

(** What the loop over the neighbours does to the state when it recomputes
    the cell [adj], whose flag is [f], to the value [v]. *)
Definition relaxed (st : march_state) (adj f : nat) (v : Q) : march_state :=
  (<[adj:=v]> st.1.1,
   (if decide (f = 0%nat) then <[adj:=2%nat]> st.1.2 else st.1.2),
   (if decide (f = 0%nat) then st.2 ++ [adj] else st.2)).

(** The number of cells that are not Known. *)
Definition notKnownCount (setValueFlag : list nat) : nat :=
  length (filter (λ f, f ≠ 1%nat) setValueFlag).

(** ** Example meshes *)

(** A rational stand-in for [Numeric.sqrt], exact on the squares of
    rationals. *)
Definition Qsqrt (x : Q) : Q := Z.sqrt (Qnum (Qred x)) # Pos.sqrt (Qden (Qred x)).

(** [Grid2D(dx, dy, nx, ny)]; the faces of a cell in the order bottom,
    right, top, left. *)
Definition Grid2D (dx dy : Q) (nx ny : nat) : Mesh :=
  let cells := seq 0 (nx * ny) in
  let col c := (c mod nx)%nat in
  let row c := (c / nx)%nat in
  {| getNumberOfCells := (nx * ny)%nat;
     getMaxFacesPerCell := 4;
     getCellToCellIDsFilled :=
       map (λ c, [ if decide (row c = 0%nat) then c else (c - nx)%nat;
                   if decide (S (col c) = nx) then c else S c;
                   if decide (S (row c) = ny) then c else (c + nx)%nat;
                   if decide (col c = 0%nat) then c else (c - 1)%nat ]) cells;
     getCellToCellDistances :=
       map (λ c, [ if decide (row c = 0%nat) then dy / 2 else dy;
                   if decide (S (col c) = nx) then dx / 2 else dx;
                   if decide (S (row c) = ny) then dy / 2 else dy;
                   if decide (col c = 0%nat) then dx / 2 else dx ]) cells;
     getCellNormals :=
       map (λ _, [ (0, -1); (1, 0); (0, 1); (-1, 0) ]) cells;
     getCellAreas := map (λ _, [ dx; dy; dx; dy ]) cells |}.

Definition Qreds (r : option (res (list Q * list nat)))
    : option (res (list Q * list nat)) :=
  match r with
  | Some (Ok (var, flag)) => Some (Ok (map Qred var, flag))
  | _ => r
  end.

(** The neighbours, among the cells [ids], whose status is Known. *)
Definition isKnown (setValueFlag : list nat) (j : nat) : Prop :=
  setValueFlag !! j = Some 1%nat.

#[global] Instance isKnown_dec (setValueFlag : list nat) (j : nat) :
  Decision (isKnown setValueFlag j).
Proof. unfold isKnown. apply _. Defined.

Definition knownCount (setValueFlag : list nat) (ids : list nat) : nat :=
  length (filter (isKnown setValueFlag) ids).

(** The values of the Known neighbours of the cell [cellID] are smaller in
    magnitude than the fill value of a masked array. *)
Definition known_below_fill (mesh : Mesh) (var : list Q)
    (setValueFlag : list nat) (cellID : nat) : Prop :=
  ∀ ids s j x,
    getCellToCellIDsFilled mesh !! cellID = Some ids → ids !! s = Some j →
    isKnown setValueFlag j → var !! j = Some x → Qabs x < MA_fill.

(** Two cell values are of opposite sign: one is strictly positive and the
    other strictly negative. *)
Definition opposite (phi phiAdj : Q) : Prop := phi * phiAdj < 0.

#[global] Instance opposite_dec (phi phiAdj : Q) :
  Decision (opposite phi phiAdj).
Proof.
  unfold opposite. destruct (Qlt_le_dec (phi * phiAdj) 0) as [H|H].
  - left. exact H.
  - right. intros H'. apply (Qlt_not_le _ _ H'). exact H.
Defined.

(** Two cell values have the same sign. *)
Definition sameSign (x y : Q) : Prop := (0 < x ↔ 0 < y) ∧ (x < 0 ↔ y < 0).

(** The candidate distance of the Interface Classifier: the linear
    interpolation to the zero crossing between two cell centres. *)
Definition candidate (phi d phiAdj : Q) : Q := phi * d / (phi - phiAdj).


(** The cell-to-cell distances of a mesh are positive. *)
Definition positive_distances (mesh : Mesh) : Prop :=
  Forall (Forall (λ d, 0 < d)) (getCellToCellDistances mesh).

(** The outward normals of any two faces of a cell make a right or an
    obtuse angle, as they do on a rectangular grid. *)
Definition obtuse_normals (mesh : Mesh) : Prop :=
  Forall (λ row : list (Q * Q),
            ∀ s1 s2 n1 n2, s1 ≠ s2 → row !! s1 = Some n1 →
                           row !! s2 = Some n2 → Numeric_dot n1 n2 <= 0)
         (getCellNormals mesh).

(** A row of cells of height [dy] and of widths [dx], numbered from the
    left; the faces of a cell in the order bottom, right, top, left. *)
Definition Row2D (dx : list Q) (dy : Q) : Mesh :=
  let nx := length dx in
  let w c := nth c dx 0 in
  let cells := seq 0 nx in
  {| getNumberOfCells := nx;
     getMaxFacesPerCell := 4;
     getCellToCellIDsFilled :=
       map (λ c, [ c; if decide (S c = nx) then c else S c;
                   c; if decide (c = 0%nat) then c else (c - 1)%nat ]) cells;
     getCellToCellDistances :=
       map (λ c, [ dy / 2;
                   if decide (S c = nx) then w c / 2 else (w c + w (S c)) / 2;
                   dy / 2;
                   if decide (c = 0%nat) then w c / 2
                   else (w (c - 1)%nat + w c) / 2 ]) cells;
     getCellNormals :=
       map (λ _, [ (0, -1); (1, 0); (0, 1); (-1, 0) ]) cells;
     getCellAreas := map (λ c, [ w c; dy; w c; dy ]) cells |}.

(** A grid of [nx] columns of width [dx] and of rows of heights [dy],
    numbered row by row from the bottom left; the faces of a cell in the
    order bottom, right, top, left. *)
Definition Rows2D (dx : Q) (dy : list Q) (nx : nat) : Mesh :=
  let ny := length dy in
  let h r := nth r dy 0 in
  let cells := seq 0 (nx * ny) in
  let col c := (c mod nx)%nat in
  let row c := (c / nx)%nat in
  {| getNumberOfCells := (nx * ny)%nat;
     getMaxFacesPerCell := 4;
     getCellToCellIDsFilled :=
       map (λ c, [ if decide (row c = 0%nat) then c else (c - nx)%nat;
                   if decide (S (col c) = nx) then c else S c;
                   if decide (S (row c) = ny) then c else (c + nx)%nat;
                   if decide (col c = 0%nat) then c else (c - 1)%nat ]) cells;
     getCellToCellDistances :=
       map (λ c, [ if decide (row c = 0%nat) then h (row c) / 2
                   else (h (row c - 1)%nat + h (row c)) / 2;
                   if decide (S (col c) = nx) then dx / 2 else dx;
                   if decide (S (row c) = ny) then h (row c) / 2
                   else (h (row c) + h (S (row c))) / 2;
                   if decide (col c = 0%nat) then dx / 2 else dx ]) cells;
     getCellNormals :=
       map (λ _, [ (0, -1); (1, 0); (0, 1); (-1, 0) ]) cells;
     getCellAreas := map (λ c, [ dx; h (row c); dx; h (row c) ]) cells |}.

(** Two rows of cells that do not touch: the cells 0, 1 and 2 in one row,
    the cells 3 and 4 in another; unit squares, the faces in the order
    bottom, right, top, left. *)
Definition Islands : Mesh :=
  {| getNumberOfCells := 5;
     getMaxFacesPerCell := 4;
     getCellToCellIDsFilled :=
       [ [0; 1; 0; 0]; [1; 2; 1; 0]; [2; 2; 2; 1];
         [3; 4; 3; 3]; [4; 4; 4; 3] ]%nat;
     getCellToCellDistances :=
       [ [1#2; 1; 1#2; 1#2]; [1#2; 1; 1#2; 1]; [1#2; 1#2; 1#2; 1];
         [1#2; 1; 1#2; 1#2]; [1#2; 1#2; 1#2; 1] ];
     getCellNormals :=
       map (λ _ : nat, [ (0, -1); (1, 0); (0, 1); (-1, 0) ]) (seq 0 5);
     getCellAreas := map (λ _ : nat, [ 1; 1; 1; 1 ]) (seq 0 5) |}.

(** ** Further predicates *)

(** A face normal is a unit vector. *)
Definition unit_normal (n : Q * Q) : Prop := n.1 * n.1 + n.2 * n.2 == 1.

(** The eikonal condition on the value [phi] of a cell that has the values
    [phi1] and [phi2] at the distances [d1] and [d2] along the unit
    normals [n1] and [n2]: the gradient that takes [phi] to [phi1] and to
    [phi2] has norm 1.  Cleared of fractions. *)
Definition eikonal (phi phi1 phi2 : Q) (n1 n2 : Q * Q) (d1 d2 : Q) : Prop :=
  d2 ^ 2 * (phi - phi1) ^ 2 + d1 ^ 2 * (phi - phi2) ^ 2
  - 2 * (d1 * d2 * Numeric_dot n1 n2) * (phi - phi1) * (phi - phi2)
  == (d1 * d2 * (n1.1 * n2.2 - n1.2 * n2.1)) ^ 2.

(** The cell [j] is across a face of the cell [c]. *)
Definition neighbour (mesh : Mesh) (c j : nat) : Prop :=
  ∃ ids, getCellToCellIDsFilled mesh !! c = Some ids ∧ j ∈ ids.

(** A cell is across a face of each of its neighbours. *)
Definition symmetric_mesh (mesh : Mesh) : Prop :=
  ∀ c j, neighbour mesh c j → neighbour mesh j c.

(** The cell [c] has a neighbour of opposite sign in the field [var]. *)
Definition interface_cell (mesh : Mesh) (var : list Q) (c : nat) : Prop :=
  ∃ ids s j x xj,
    getCellToCellIDsFilled mesh !! c = Some ids ∧ ids !! s = Some j
    ∧ var !! c = Some x ∧ var !! j = Some xj ∧ opposite x xj.

(** The cell [c] can be reached, from neighbour to neighbour, from a cell
    that has a neighbour of opposite sign. *)
Definition reachable (mesh : Mesh) (var : list Q) (c : nat) : Prop :=
  ∃ i, interface_cell mesh var i ∧ rtc (neighbour mesh) i c.

(** The cell [j] is Trial or Known. *)
Definition active (setValueFlag : list nat) (j : nat) : Prop :=
  ∃ f, setValueFlag !! j = Some f ∧ f ≠ 0%nat.

(** No neighbour of a Known cell is Unknown. *)
Definition known_closed (mesh : Mesh) (setValueFlag : list nat) : Prop :=
  ∀ c j, setValueFlag !! c = Some 1%nat → neighbour mesh c j →
         active setValueFlag j.

(** What the marching loop keeps of the flags, [var0] being the field
    [solve] starts from: no flag is above 2, no neighbour of a Known cell is
    Unknown, and a cell that is not Unknown can be reached from the
    interface. *)
Definition solve_inv (mesh : Mesh) (var0 : list Q) (setValueFlag : list nat)
    : Prop :=
  Forall (λ f, (f <= 2)%nat) setValueFlag
  ∧ known_closed mesh setValueFlag
  ∧ ∀ c, active setValueFlag c → reachable mesh var0 c.

(** A mesh of four cells that is not symmetric: the cell 3 is across the
    second face of the cell 2, and has no neighbour but itself. *)
Definition OneWay : Mesh :=
  {| getNumberOfCells := 4;
     getMaxFacesPerCell := 2;
     getCellToCellIDsFilled := [ [1; 0]; [0; 1]; [1; 3]; [3; 3] ]%nat;
     getCellToCellDistances := [ [1; 1 # 2]; [1; 1 # 2]; [1; 1]; [1; 1] ];
     getCellNormals := map (λ _ : nat, [ (1, 0); (-1, 0) ]) (seq 0 4);
     getCellAreas := map (λ _ : nat, [ 1; 1 ]) (seq 0 4) |}.

(** * Properties *)

(** ** The result monad and the arrays *)

Lemma bind_Ok {A B} (m : res A) (k : A → res B) (b : B) :
  (m ≫= k) = Ok b ↔ ∃ a, m = Ok a ∧ k a = Ok b.
Proof.
  destruct m as [a|e]; simpl.
  - split; [intros H; exists a; auto | intros (a' & [= <-] & H); exact H].
  - split; [discriminate | intros (a' & [=] & _)].
Qed.

Lemma bind_Ok_l {A B} (a : A) (k : A → res B) : (Ok a ≫= k) = k a.
Proof. reflexivity. Qed.

Lemma bind_Raise {A B} (m : res A) (k : A → res B) (e : exn) :
  m = Raise e → (m ≫= k) = Raise e.
Proof. intros ->. reflexivity. Qed.

Lemma no_exception_bind {A B} (m : res A) (k : A → res B) :
  no_exception m → (∀ a, m = Ok a → no_exception (k a)) →
  no_exception (m ≫= k).
Proof.
  destruct m as [a|e]; simpl; [intros _ H; by apply H | by intros H _].
Qed.

(** Split a hypothesis [x ← m; k = Ok b] into its two halves. *)
Ltac inv_bind H :=
  let a := fresh "a" in
  let Ha := fresh "Ha" in
  apply bind_Ok in H; destruct H as (a & Ha & H).

Lemma getitem_Ok {A} (a : list A) (i : nat) (x : A) :
  getitem a i = Ok x ↔ a !! i = Some x.
Proof.
  unfold getitem. destruct (a !! i); split; intros H; congruence.
Qed.

Lemma unmasked_Ok (x : option Q) (v : Q) : unmasked x = Ok v ↔ x = Some v.
Proof. destruct x; simpl; split; congruence. Qed.

Lemma number_Ok (x : Float) (v : Q) : number x = Ok v ↔ x = Num v.
Proof. destruct x; simpl; split; congruence. Qed.

Lemma getitem_lt {A} (a : list A) (i : nat) :
  (i < length a)%nat → ∃ x, getitem a i = Ok x ∧ a !! i = Some x.
Proof.
  intros Hi. destruct (lookup_lt_is_Some_2 a i Hi) as [x Hx].
  exists x. split; [by apply getitem_Ok | done].
Qed.

Lemma setitem_Ok {A} (a a' : list A) (i : nat) (x : A) :
  setitem a i x = Ok a' ↔ (i < length a)%nat ∧ a' = <[i:=x]> a.
Proof.
  unfold setitem. case_decide; split.
  - intros [= <-]. done.
  - intros [_ ->]. done.
  - discriminate.
  - intros [? _]. lia.
Qed.

Lemma Numeric_take_Ok {A} (a : list A) (ids : list nat) (l : list A) :
  Numeric_take a ids = Ok l ↔ Forall2 (λ i x, a !! i = Some x) ids l.
Proof.
  revert l. induction ids as [|i ids IH]; intros l; simpl.
  - split; [intros [= <-]; constructor | intros H; by inversion H].
  - split.
    + intros H. inv_bind H. inv_bind H. injection H as <-.
      constructor; [by apply getitem_Ok | by apply IH].
    + intros H. inversion H as [|? x ? xs Hx Hxs]; subst.
      apply bind_Ok. exists x. split; [by apply getitem_Ok|].
      apply bind_Ok. exists xs. split; [by apply IH | done].
Qed.

Lemma Numeric_take_total {A} (a : list A) (ids : list nat) :
  Forall (λ i, (i < length a)%nat) ids → ∃ l, Numeric_take a ids = Ok l.
Proof.
  induction 1 as [|i ids Hi _ [l IH]]; simpl.
  - by exists [].
  - destruct (getitem_lt a i Hi) as (x & -> & _). simpl. rewrite IH. simpl.
    by eexists.
Qed.

Lemma Numeric_take_lookup {A} (a : list A) (ids : list nat) (l : list A)
    (k i : nat) :
  Numeric_take a ids = Ok l → ids !! k = Some i → l !! k = a !! i.
Proof.
  intros H%Numeric_take_Ok Hk.
  destruct (Forall2_lookup_l _ _ _ _ _ H Hk) as (x & -> & Hx). done.
Qed.

Lemma Numeric_take_length {A} (a : list A) (ids : list nat) (l : list A) :
  Numeric_take a ids = Ok l → length l = length ids.
Proof. intros H%Numeric_take_Ok. symmetry. by eapply Forall2_length. Qed.

Lemma for_each_Ok {A} (f : nat → res A) (ids : list nat) (l : list A) :
  for_each f ids = Ok l ↔ Forall2 (λ i x, f i = Ok x) ids l.
Proof.
  revert l. induction ids as [|i ids IH]; intros l; simpl.
  - split; [intros [= <-]; constructor | intros H; by inversion H].
  - split.
    + intros H. inv_bind H. inv_bind H. injection H as <-.
      constructor; [done | by apply IH].
    + intros H. inversion H as [|? x ? xs Hx Hxs]; subst.
      apply bind_Ok. exists x. split; [done|].
      apply bind_Ok. exists xs. split; [by apply IH | done].
Qed.

Lemma for_each_total {A} (f : nat → res A) (ids : list nat) :
  Forall (λ i, ∃ x, f i = Ok x) ids → ∃ l, for_each f ids = Ok l.
Proof.
  induction 1 as [|i ids [x Hx] _ [l IH]]; simpl.
  - by exists [].
  - rewrite Hx. simpl. rewrite IH. simpl. by eexists.
Qed.

Lemma for_each_no_exception {A} (f : nat → res A) (ids : list nat) :
  Forall (λ i, no_exception (f i)) ids → no_exception (for_each f ids).
Proof.
  induction 1 as [|i ids Hi _ IH]; cbn [for_each]; [done|].
  apply no_exception_bind; [done|]. intros x _.
  by apply no_exception_bind.
Qed.

Lemma for_each_seq_lookup {A} (f : nat → res A) (n : nat) (l : list A)
    (i : nat) :
  for_each f (seq 0 n) = Ok l → (i < n)%nat →
  ∃ x, l !! i = Some x ∧ f i = Ok x.
Proof.
  intros H%for_each_Ok Hi.
  assert (Hs : seq 0 n !! i = Some i) by (by apply lookup_seq_lt).
  destruct (Forall2_lookup_l _ _ _ _ _ H Hs) as (x & Hx & Hf). eauto.
Qed.

Lemma for_each_length {A} (f : nat → res A) (ids : list nat) (l : list A) :
  for_each f ids = Ok l → length l = length ids.
Proof. intros H%for_each_Ok. symmetry. by eapply Forall2_length. Qed.

Lemma Qltb_lt (x y : Q) : Qltb x y = true ↔ x < y.
Proof.
  unfold Qltb. rewrite negb_true_iff.
  destruct (Qle_bool y x) eqn:E.
  - apply Qle_bool_iff in E. split; [discriminate | lra].
  - split; [intros _ | done].
    apply Qnot_le_lt. intros H%Qle_bool_iff. congruence.
Qed.

Lemma Qltb_ge (x y : Q) : Qltb x y = false ↔ y <= x.
Proof.
  destruct (Qltb x y) eqn:E.
  - apply Qltb_lt in E. split; [discriminate | lra].
  - split; [intros _ | done].
    apply Qnot_lt_le. intros H%Qltb_lt. congruence.
Qed.

(** ** The scan for the minimum *)

Lemma Qltb_strict_weak : strict_weak Qltb.
Proof.
  split.
  - intros x. apply Qltb_ge. lra.
  - intros x y z H1%Qltb_lt H2%Qltb_lt. apply Qltb_lt. lra.
  - intros x y z H%Qltb_lt.
    destruct (Qltb x y) eqn:E; [by left | right].
    apply Qltb_ge in E. apply Qltb_lt. lra.
Qed.

Lemma MA_ltb_strict_weak : strict_weak MA_ltb.
Proof.
  destruct Qltb_strict_weak as [Hi Ht Hc].
  split; unfold MA_ltb.
  - intros x. apply Hi.
  - intros x y z. apply Ht.
  - intros x y z. apply Hc.
Qed.

Lemma strict_weak_asym {A} (ltb : A → A → bool) (x y : A) :
  strict_weak ltb → ltb x y = true → ltb y x = false.
Proof.
  intros [Hi Ht _] Hxy. destruct (ltb y x) eqn:E; [|done].
  rewrite <- (Hi x). symmetry. by eapply Ht.
Qed.

Lemma argmin_from_spec {A} (ltb : A → A → bool) (l pre : list A)
    (best : nat) (bv : A) :
  strict_weak ltb →
  pre !! best = Some bv →
  (∀ j x, pre !! j = Some x → ltb x bv = false) →
  (∀ j x, (j < best)%nat → pre !! j = Some x → ltb bv x = true) →
  is_argmin ltb (pre ++ l) (argmin_from ltb best bv (length pre) l).
Proof.
  intros Hsw. revert pre best bv.
  induction l as [|x l IH]; intros pre best bv Hbest Hmin Hfirst; simpl.
  - rewrite app_nil_r. exists bv. eauto.
  - replace (pre ++ x :: l) with ((pre ++ [x]) ++ l)
      by (by rewrite <- app_assoc).
    replace (S (length pre)) with (length (pre ++ [x]))
      by (rewrite length_app; simpl; lia).
    destruct (ltb x bv) eqn:E.
    + apply IH.
      * rewrite lookup_app_r by lia. by rewrite Nat.sub_diag.
      * intros j y Hj. apply lookup_app_Some in Hj as [Hj|[_ Hj]].
        -- destruct (ltb y x) eqn:Eyx; [|done].
           rewrite <- (Hmin j y Hj). symmetry. by eapply (sw_trans _ Hsw).
        -- apply list_lookup_singleton_Some in Hj as [_ <-].
           apply (sw_irrefl _ Hsw).
      * intros j y Hlt Hj. rewrite lookup_app_l in Hj by done.
        destruct (sw_cotrans _ Hsw x y bv E) as [H|H]; [done|].
        rewrite (Hmin j y Hj) in H. discriminate.
    + apply IH.
      * apply lookup_app_l_Some. done.
      * intros j y Hj. apply lookup_app_Some in Hj as [Hj|[_ Hj]]; [eauto|].
        apply list_lookup_singleton_Some in Hj as [_ <-]. done.
      * intros j y Hlt Hj.
        apply lookup_lt_Some in Hbest.
        rewrite lookup_app_l in Hj by lia. eauto.
Qed.

Lemma argmin_spec {A} (ltb : A → A → bool) (l : list A) (r : nat) :
  strict_weak ltb → argmin ltb l = Ok r → is_argmin ltb l r.
Proof.
  intros Hsw. destruct l as [|x l]; simpl; [discriminate|].
  intros [= <-].
  apply (argmin_from_spec ltb l [x] 0 x Hsw).
  - done.
  - intros [|j] y [= <-]. apply (sw_irrefl _ Hsw).
  - intros j y Hj. lia.
Qed.

Lemma argmin_total {A} (ltb : A → A → bool) (l : list A) :
  (0 < length l)%nat → ∃ r, argmin ltb l = Ok r.
Proof. destruct l; simpl; [lia | eauto]. Qed.

Lemma is_argmin_lt {A} (ltb : A → A → bool) (l : list A) (r : nat) :
  is_argmin ltb l r → (r < length l)%nat.
Proof. intros (x & Hx & _). by eapply lookup_lt_Some. Qed.

(** ** The sort of the neighbours *)

Lemma argsort_insert_perm (key : nat → option Q) (i : nat) (l : list nat) :
  argsort_insert key i l ≡ₚ i :: l.
Proof.
  induction l as [|j l IH]; simpl; [done|].
  destruct (MA_ltb (key j) (key i)); [|done].
  rewrite IH. apply Permutation_swap.
Qed.

Lemma MA_argsort_perm (l : list (option Q)) :
  MA_argsort l ≡ₚ seq 0 (length l).
Proof.
  unfold MA_argsort. induction (seq 0 (length l)) as [|i s IH]; simpl; [done|].
  rewrite argsort_insert_perm. by rewrite IH.
Qed.

Lemma argsort_insert_sorted (key : nat → option Q) (i : nat) (l : list nat) :
  StronglySorted (key_le key) l →
  StronglySorted (key_le key) (argsort_insert key i l).
Proof.
  pose proof MA_ltb_strict_weak as Hsw.
  induction 1 as [|j l Hl IH Hj]; simpl.
  - repeat constructor.
  - destruct (MA_ltb (key j) (key i)) eqn:E.
    + constructor; [done|].
      rewrite argsort_insert_perm. constructor; [|done].
      unfold key_le. by eapply strict_weak_asym.
    + constructor; [by constructor|].
      constructor; [done|].
      eapply Forall_impl; [exact Hj|]. unfold key_le. intros x Hx.
      destruct (MA_ltb (key x) (key i)) eqn:Exi; [|done].
      destruct (sw_cotrans _ Hsw _ (key j) _ Exi) as [H|H]; congruence.
Qed.

Lemma MA_argsort_sorted (l : list (option Q)) :
  StronglySorted (key_le (λ i, default None (l !! i))) (MA_argsort l).
Proof.
  unfold MA_argsort. induction (seq 0 (length l)) as [|i s IH]; simpl.
  - constructor.
  - by apply argsort_insert_sorted.
Qed.

(** ** The trial value calculator *)

Lemma NSet_filter (l : list (option Q)) :
  (Numeric_sum (MA_mask l) <= length (MA_mask l))%nat
  ∧ (length (MA_mask l) - Numeric_sum (MA_mask l))%nat
    = length (filter is_Some l).
Proof.
  induction l as [|[x|] l [IH1 IH2]].
  - split; reflexivity.
  - rewrite filter_cons_True by eauto. simpl.
    change (foldr Nat.add 0%nat (MA_mask l)) with (Numeric_sum (MA_mask l)).
    split; lia.
  - rewrite filter_cons_False by (intros [? [=]]). simpl.
    change (foldr Nat.add 0%nat (MA_mask l)) with (Numeric_sum (MA_mask l)).
    split; lia.
Qed.

Lemma Numeric_take_seq {A} (a : list A) :
  Numeric_take a (seq 0 (length a)) = Ok a.
Proof.
  apply Numeric_take_Ok. apply Forall2_same_length_lookup_2.
  - by rewrite length_seq.
  - intros i j x Hj Hx. apply lookup_seq in Hj as [-> _]. done.
Qed.

Lemma Numeric_take_Permutation {A} (a : list A) (p p' : list nat)
    (l : list A) :
  p ≡ₚ p' → Numeric_take a p = Ok l →
  ∃ l', Numeric_take a p' = Ok l' ∧ l ≡ₚ l'.
Proof.
  intros Hp. revert l.
  induction Hp as [|i p p' Hp IH|i j p|p p' p'' Hp IH Hp' IH']; intros l H.
  - simpl in H. injection H as <-. by exists [].
  - simpl in H. apply bind_Ok in H as (x & Hx & H).
    apply bind_Ok in H as (xs & Hxs & H). injection H as <-.
    destruct (IH _ Hxs) as (l' & Hl' & Hperm).
    exists (x :: l'). simpl. rewrite Hx, Hl'. simpl.
    split; [done | by constructor].
  - simpl in H. apply bind_Ok in H as (x & Hx & H).
    apply bind_Ok in H as (xs & Hxs & H). injection H as <-.
    apply bind_Ok in Hxs as (y & Hy & Hxs).
    apply bind_Ok in Hxs as (ys & Hys & Hxs). injection Hxs as <-.
    exists (y :: x :: ys). simpl. rewrite Hy, Hx, Hys. simpl.
    split; [done | apply Permutation_swap].
  - destruct (IH _ H) as (l' & Hl' & Hperm).
    destruct (IH' _ Hl') as (l'' & Hl'' & Hperm').
    exists l''. split; [done | by etrans].
Qed.

Lemma Numeric_take_perm_seq {A} (a : list A) (p : list nat) (l : list A) :
  p ≡ₚ seq 0 (length a) → Numeric_take a p = Ok l → l ≡ₚ a.
Proof.
  intros Hp H.
  destruct (Numeric_take_Permutation a _ _ l Hp H) as (l' & Hl' & Hperm).
  rewrite Numeric_take_seq in Hl'. by injection Hl' as <-.
Qed.

Lemma MA_array_lookup (data : list Q) (mask : list bool) (s : nat) (x : Q)
    (m : bool) :
  data !! s = Some x → mask !! s = Some m →
  MA_array data mask !! s = Some (if m then None else Some x).
Proof.
  revert mask s. induction data as [|y data IH]; intros [|m' mask] s; try done.
  destruct s as [|s]; simpl.
  - by intros [= ->] [= ->].
  - apply IH.
Qed.

Lemma MA_array_length (data : list Q) (mask : list bool) :
  length data = length mask → length (MA_array data mask) = length data.
Proof.
  revert mask. induction data as [|y data IH]; intros [|m mask]; simpl; try done.
  intros [= H]. by rewrite IH.
Qed.

Lemma MA_abs_length (l : list (option Q)) : length (MA_abs l) = length l.
Proof. apply length_map. Qed.

Lemma MA_abs_lookup (l : list (option Q)) (i : nat) :
  MA_abs l !! i = option_map Qabs <$> l !! i.
Proof. apply list_lookup_fmap. Qed.

Section TrialValue.

Variable sqrt : Q → Q.
Variable mesh : Mesh.
Hypothesis Hwf : wf_mesh mesh.

Lemma wf_rows (cellID : nat) :
  (cellID < getNumberOfCells mesh)%nat →
  ∃ ids dAP normals areas,
    getCellToCellIDsFilled mesh !! cellID = Some ids
    ∧ getCellToCellDistances mesh !! cellID = Some dAP
    ∧ getCellNormals mesh !! cellID = Some normals
    ∧ getCellAreas mesh !! cellID = Some areas
    ∧ length ids = getMaxFacesPerCell mesh
    ∧ length dAP = getMaxFacesPerCell mesh
    ∧ length normals = getMaxFacesPerCell mesh
    ∧ length areas = getMaxFacesPerCell mesh
    ∧ Forall (λ j, (j < getNumberOfCells mesh)%nat) ids.
Proof.
  intros Hc. destruct Hwf as [H1 H2 H3 H4 H5 H6 H7 H8 H9].
  destruct (lookup_lt_is_Some_2 (getCellToCellIDsFilled mesh) cellID)
    as [ids Hids]; [lia|].
  destruct (lookup_lt_is_Some_2 (getCellToCellDistances mesh) cellID)
    as [dAP HdAP]; [lia|].
  destruct (lookup_lt_is_Some_2 (getCellNormals mesh) cellID)
    as [normals Hnormals]; [lia|].
  destruct (lookup_lt_is_Some_2 (getCellAreas mesh) cellID)
    as [areas Hareas]; [lia|].
  exists ids, dAP, normals, areas.
  repeat split; try done.
  - by eapply (Forall_lookup_1 _ _ _ _ H5).
  - by eapply (Forall_lookup_1 _ _ _ _ H6).
  - by eapply (Forall_lookup_1 _ _ _ _ H7).
  - by eapply (Forall_lookup_1 _ _ _ _ H8).
  - by eapply (Forall_lookup_1 _ _ _ _ H9).
Qed.

Lemma calcTrialValue_view (var : list Q) (flags : list nat) (cellID : nat) :
  length var = getNumberOfCells mesh →
  length flags = getNumberOfCells mesh →
  (cellID < getNumberOfCells mesh)%nat →
  ∃ ids dAP normals areas phi vals p vals' dAP' normals' areas',
    trial_view mesh var flags cellID ids dAP normals areas phi vals p
    ∧ Numeric_take vals p = Ok vals'
    ∧ Numeric_take dAP p = Ok dAP'
    ∧ Numeric_take normals p = Ok normals'
    ∧ Numeric_take areas p = Ok areas'
    ∧ _calcTrialValue sqrt mesh var cellID flags
      = trialBranches sqrt cellID ids p vals' dAP' normals' areas'
          (if Qltb 0 phi then 1 else -1)%Z.
Proof.
  intros Hvar Hflags Hc.
  destruct (wf_rows cellID Hc)
    as (ids & dAP & normals & areas & Hids & HdAP & Hnormals & Hareas
        & Lids & LdAP & Lnormals & Lareas & Rids).
  destruct (Numeric_take_total var ids) as [phiAdj HphiAdj];
    [by rewrite Hvar|].
  destruct (Numeric_take_total flags ids) as [adjFlag HadjFlag];
    [by rewrite Hflags|].
  destruct (lookup_lt_is_Some_2 var cellID) as [phi Hphi]; [lia|].
  pose proof (Numeric_take_length _ _ _ HphiAdj) as LphiAdj.
  pose proof (Numeric_take_length _ _ _ HadjFlag) as LadjFlag.
  set (vals := MA_array phiAdj (map (λ f, negb (f =? 1)%nat) adjFlag)).
  assert (Lvals : length vals = getMaxFacesPerCell mesh).
  { unfold vals. rewrite MA_array_length; rewrite ?length_map; lia. }
  set (p := MA_argsort (MA_abs vals)).
  assert (Hperm : p ≡ₚ seq 0 (getMaxFacesPerCell mesh)).
  { unfold p. rewrite MA_argsort_perm, MA_abs_length, Lvals. done. }
  assert (Hrange : Forall (λ i, (i < getMaxFacesPerCell mesh)%nat) p).
  { rewrite Hperm. apply Forall_seq. intros; lia. }
  destruct (Numeric_take_total vals p) as [vals' Hvals']; [by rewrite Lvals|].
  destruct (Numeric_take_total dAP p) as [dAP' HdAP']; [by rewrite LdAP|].
  destruct (Numeric_take_total normals p) as [normals' Hnormals'];
    [by rewrite Lnormals|].
  destruct (Numeric_take_total areas p) as [areas' Hareas'];
    [by rewrite Lareas|].
  exists ids, dAP, normals, areas, phi, vals, p, vals', dAP', normals', areas'.
  split; [|repeat split; try done].
  - split; try done.
    + intros s j Hs.
      assert (Hj : (j < getNumberOfCells mesh)%nat)
        by (by eapply (Forall_lookup_1 _ _ _ _ Rids)).
      destruct (lookup_lt_is_Some_2 var j) as [v Hv]; [lia|].
      destruct (lookup_lt_is_Some_2 flags j) as [f Hf]; [lia|].
      exists v, f. repeat split; try done.
      unfold vals.
      erewrite MA_array_lookup.
      2:{ rewrite (Numeric_take_lookup _ _ _ _ _ HphiAdj Hs). exact Hv. }
      2:{ rewrite list_lookup_fmap.
          rewrite (Numeric_take_lookup _ _ _ _ _ HadjFlag Hs), Hf. done. }
      destruct (Nat.eqb_spec f 1); case_decide; done.
    + apply MA_argsort_sorted.
  - unfold _calcTrialValue.
    apply getitem_Ok in Hids, HdAP, Hnormals, Hareas, Hphi.
    rewrite Hids, HdAP. simpl. rewrite HphiAdj, HadjFlag. simpl.
    fold vals. fold p. rewrite Hvals', HdAP'. simpl.
    rewrite Hnormals. simpl. rewrite Hnormals'. simpl.
    rewrite Hareas. simpl. rewrite Hareas'. simpl.
    rewrite Hphi. simpl. done.
Qed.

End TrialValue.

Lemma StronglySorted_lookup {A} (R : A → A → Prop) (l : list A) (i j : nat)
    (a b : A) :
  StronglySorted R l → (i < j)%nat → l !! i = Some a → l !! j = Some b →
  R a b.
Proof.
  intros Hl. revert i j. induction Hl as [|x l Hl IH Hx]; intros i j Hij Hi Hj.
  - done.
  - destruct j as [|j]; [lia|]. destruct i as [|i]; simpl in *.
    + injection Hi as <-. eapply (Forall_lookup_1 _ _ _ _ Hx). exact Hj.
    + apply (IH i j); [lia|done..].
Qed.

Lemma filter_all_masked (l : list (option Q)) :
  (∀ j x, l !! j = Some x → x = None) → filter is_Some l = [].
Proof.
  induction l as [|x l IH]; intros H; [done|].
  rewrite (H 0%nat x eq_refl).
  rewrite filter_cons_False by (intros [? [=]]).
  apply IH. intros j y Hj. by apply (H (S j)).
Qed.

(** In a masked array whose masked entries come last, the first entries,
    as many as there are unmasked ones, are unmasked. *)
Lemma masked_last_prefix (l : list (option Q)) (k : nat) :
  (∀ i j x, (i <= j)%nat → l !! i = Some None → l !! j = Some x → x = None) →
  (k < length (filter is_Some l))%nat →
  ∃ v, l !! k = Some (Some v).
Proof.
  revert k. induction l as [|[v|] l IH]; intros k Hlast Hk.
  - simpl in Hk. lia.
  - destruct k as [|k]; [by exists v|].
    rewrite filter_cons_True in Hk by eauto. simpl in Hk.
    apply IH; [|lia].
    intros i j x Hij Hi Hj. apply (Hlast (S i) (S j)); [lia|done..].
  - exfalso.
    rewrite (filter_all_masked (None :: l)) in Hk; [simpl in Hk; lia|].
    intros j x Hj. apply (Hlast 0%nat j); [lia|done..].
Qed.

Section TrialCases.

Variable sqrt : Q → Q.
Variable mesh : Mesh.

Context (var : list Q) (flags : list nat) (cellID : nat).
Context (ids : list nat) (dAP : list Q) (normals : list (Q * Q))
        (areas : list Q) (phi : Q) (vals : list (option Q)) (p : list nat).
Hypothesis Hview :
  trial_view mesh var flags cellID ids dAP normals areas phi vals p.

Lemma view_slot_lt (k s : nat) :
  p !! k = Some s → (s < getMaxFacesPerCell mesh)%nat.
Proof.
  intros Hk. assert (Hin : s ∈ p) by (by eapply list_elem_of_lookup_2).
  rewrite (tv_perm _ _ _ _ _ _ _ _ _ _ _ Hview) in Hin.
  apply elem_of_seq in Hin. lia.
Qed.

Lemma view_slot_pos (s : nat) :
  (s < getMaxFacesPerCell mesh)%nat → ∃ k, p !! k = Some s.
Proof.
  intros Hs. apply list_elem_of_lookup_1.
  rewrite (tv_perm _ _ _ _ _ _ _ _ _ _ _ Hview).
  apply elem_of_seq. lia.
Qed.

Lemma view_NoDup : NoDup p.
Proof.
  rewrite (tv_perm _ _ _ _ _ _ _ _ _ _ _ Hview). apply NoDup_seq.
Qed.

Lemma view_sorted (k k' s s' : nat) (x x' : option Q) :
  (k < k')%nat → p !! k = Some s → p !! k' = Some s' →
  vals !! s = Some x → vals !! s' = Some x' →
  MA_ltb (option_map Qabs x') (option_map Qabs x) = false.
Proof.
  intros Hk Hs Hs' Hx Hx'.
  pose proof (StronglySorted_lookup _ _ _ _ _ _
    (tv_sorted _ _ _ _ _ _ _ _ _ _ _ Hview) Hk Hs Hs') as H.
  unfold key_le in H. rewrite !MA_abs_lookup, Hx, Hx' in H. exact H.
Qed.

(** The neighbours come in the order of their magnitudes. *)
Lemma view_sorted_abs (k k' s s' : nat) (v v' : Q) :
  (k < k')%nat → p !! k = Some s → p !! k' = Some s' →
  vals !! s = Some (Some v) → vals !! s' = Some (Some v') →
  Qabs v <= Qabs v'.
Proof.
  intros Hk Hs Hs' Hv Hv'.
  pose proof (view_sorted _ _ _ _ _ _ Hk Hs Hs' Hv Hv') as H.
  simpl in H. by apply Qltb_ge in H.
Qed.

Context (vals' : list (option Q)) (dAP' : list Q)
        (normals' : list (Q * Q)) (areas' : list Q).
Hypothesis Hvals' : Numeric_take vals p = Ok vals'.
Hypothesis HdAP' : Numeric_take dAP p = Ok dAP'.
Hypothesis Hnormals' : Numeric_take normals p = Ok normals'.
Hypothesis Hareas' : Numeric_take areas p = Ok areas'.

Lemma view_count :
  length (filter is_Some vals') = length (filter is_Some vals).
Proof.
  assert (H : vals' ≡ₚ vals).
  { eapply Numeric_take_perm_seq; [|exact Hvals'].
    rewrite (tv_len_vals _ _ _ _ _ _ _ _ _ _ _ Hview).
    apply (tv_perm _ _ _ _ _ _ _ _ _ _ _ Hview). }
  by rewrite H.
Qed.

(** What the branches read at the sorted position [k]. *)
Lemma view_read (k s : nat) :
  p !! k = Some s →
  ∃ j x d n a,
    ids !! s = Some j ∧ vals !! s = Some x ∧ dAP !! s = Some d
    ∧ normals !! s = Some n ∧ areas !! s = Some a
    ∧ getitem vals' k = Ok x ∧ getitem dAP' k = Ok d
    ∧ getitem normals' k = Ok n ∧ getitem areas' k = Ok a
    ∧ getitem p k = Ok s ∧ getitem ids s = Ok j.
Proof.
  intros Hs. pose proof (view_slot_lt _ _ Hs) as Hlt.
  destruct Hview as [H1 H2 H3 H4 H5 L1 L2 L3 L4 L5 Hv' Hp Hso].
  destruct (lookup_lt_is_Some_2 ids s) as [j Hj]; [lia|].
  destruct (lookup_lt_is_Some_2 vals s) as [x Hx]; [lia|].
  destruct (lookup_lt_is_Some_2 dAP s) as [d Hd]; [lia|].
  destruct (lookup_lt_is_Some_2 normals s) as [n Hn]; [lia|].
  destruct (lookup_lt_is_Some_2 areas s) as [a Ha]; [lia|].
  exists j, x, d, n, a.
  rewrite !getitem_Ok.
  rewrite (Numeric_take_lookup _ _ _ _ _ Hvals' Hs).
  rewrite (Numeric_take_lookup _ _ _ _ _ HdAP' Hs).
  rewrite (Numeric_take_lookup _ _ _ _ _ Hnormals' Hs).
  rewrite (Numeric_take_lookup _ _ _ _ _ Hareas' Hs).
  repeat split; done.
Qed.

Lemma view_pos (k : nat) :
  (k < length (filter is_Some vals))%nat → ∃ s, p !! k = Some s.
Proof.
  intros Hk. apply lookup_lt_is_Some_2.
  rewrite (Permutation_length (tv_perm _ _ _ _ _ _ _ _ _ _ _ Hview)).
  rewrite length_seq, <- (tv_len_vals _ _ _ _ _ _ _ _ _ _ _ Hview).
  pose proof (length_filter is_Some vals). lia.
Qed.

Lemma trialBranches_zero (sign : Z) :
  length (filter is_Some vals) = 0%nat →
  trialBranches sqrt cellID ids p vals' dAP' normals' areas' sign
  = Raise Error.
Proof.
  intros HK. unfold trialBranches.
  rewrite (proj2 (NSet_filter vals')), view_count, HK. done.
Qed.

Lemma trialBranches_one (sign : Z) :
  length (filter is_Some vals) = 1%nat →
  ∃ s0 j0 x0 d0,
    p !! 0%nat = Some s0 ∧ ids !! s0 = Some j0
    ∧ vals !! s0 = Some x0 ∧ dAP !! s0 = Some d0
    ∧ trialBranches sqrt cellID ids p vals' dAP' normals' areas' sign
      = (v0 ← unmasked x0;
         Ok (Num (if decide (0 < sign)%Z then v0 + d0 else v0 - d0))).
Proof.
  intros HK.
  destruct (view_pos 0) as [s Hs]; [lia|].
  destruct (view_read 0 s Hs) as (j & x & d & n & a & Hj & Hx & Hd
    & _ & _ & Gv & Gd & _ & _ & Gp & Gj).
  exists s, j, x, d. repeat split; try done.
  unfold trialBranches.
  rewrite (proj2 (NSet_filter vals')), view_count, HK. simpl.
  rewrite Gv. simpl. destruct x as [v|]; [|done]. simpl.
  rewrite Gd, Gp. simpl. rewrite Gj. simpl.
  case_decide; done.
Qed.

Lemma trialBranches_two (sign : Z) :
  (2 <= length (filter is_Some vals))%nat →
  ∃ s0 s1 j0 j1 x0 x1 d0 d1 n0 n1 a0 a1,
    p !! 0%nat = Some s0 ∧ p !! 1%nat = Some s1
    ∧ ids !! s0 = Some j0 ∧ ids !! s1 = Some j1
    ∧ vals !! s0 = Some x0 ∧ vals !! s1 = Some x1
    ∧ dAP !! s0 = Some d0 ∧ dAP !! s1 = Some d1
    ∧ normals !! s0 = Some n0 ∧ normals !! s1 = Some n1
    ∧ areas !! s0 = Some a0 ∧ areas !! s1 = Some a1
    ∧ trialBranches sqrt cellID ids p vals' dAP' normals' areas' sign
      = (v0 ← unmasked x0;
         v1 ← unmasked x1;
         let quad :=
           _calcQuadratic sqrt v0 v1 n0 n1 d0 d1 a0 a1 cellID j0 j1 in
         Ok (if decide (0 < sign)%Z then quad.1 else quad.2)).
Proof.
  intros HK.
  destruct (view_pos 0) as [s0 Hs0]; [lia|].
  destruct (view_pos 1) as [s1 Hs1]; [lia|].
  destruct (view_read 0 s0 Hs0) as (j0 & x0 & d0 & n0 & a0 & Hj0 & Hx0
    & Hd0 & Hn0 & Ha0 & Gv0 & Gd0 & Gn0 & Ga0 & Gp0 & Gj0).
  destruct (view_read 1 s1 Hs1) as (j1 & x1 & d1 & n1 & a1 & Hj1 & Hx1
    & Hd1 & Hn1 & Ha1 & Gv1 & Gd1 & Gn1 & Ga1 & Gp1 & Gj1).
  exists s0, s1, j0, j1, x0, x1, d0, d1, n0, n1, a0, a1.
  repeat split; try done.
  unfold trialBranches.
  rewrite (proj2 (NSet_filter vals')), view_count.
  destruct (decide (length (filter is_Some vals) = 0%nat)); [lia|].
  destruct (decide (length (filter is_Some vals) = 1%nat)); [lia|].
  rewrite Gv0, Gv1. simpl.
  destruct x0 as [v0|]; [|done]. simpl.
  destruct x1 as [v1|]; [|done]. simpl.
  rewrite Gn0, Gn1, Gd0, Gd1, Ga0, Ga1, Gp0, Gp1. simpl.
  rewrite Gj0, Gj1. simpl.
  case_decide; done.
Qed.

(** When the Known neighbours are below the fill value, the first
    [NSetValues] sorted positions hold Known neighbours. *)
Lemma view_known_take (k s : nat) :
  (∀ s v, vals !! s = Some (Some v) → Qabs v < MA_fill) →
  (k < length (filter is_Some vals))%nat → p !! k = Some s →
  ∃ v, vals !! s = Some (Some v).
Proof.
  intros Hbound Hk Hs. rewrite <- view_count in Hk.
  destruct (masked_last_prefix vals' k) as [v Hv]; [|done|].
  { intros i j x Hij Hi Hj.
    destruct (decide (i = j)) as [->|Hne]; [congruence|].
    destruct (lookup_lt_is_Some_2 p i) as [si Hsi].
    { rewrite <- (Numeric_take_length _ _ _ Hvals'). by eapply lookup_lt_Some. }
    destruct (lookup_lt_is_Some_2 p j) as [sj Hsj].
    { rewrite <- (Numeric_take_length _ _ _ Hvals'). by eapply lookup_lt_Some. }
    rewrite (Numeric_take_lookup _ _ _ _ _ Hvals' Hsi) in Hi.
    rewrite (Numeric_take_lookup _ _ _ _ _ Hvals' Hsj) in Hj.
    pose proof (view_sorted i j si sj _ _ ltac:(lia) Hsi Hsj Hi Hj) as H.
    destruct x as [w|]; [|done]. exfalso.
    apply Qltb_ge in H. pose proof (Hbound _ _ Hj) as Hw.
    unfold MA_filled in H. simpl in H. lra. }
  exists v. by rewrite <- (Numeric_take_lookup _ _ _ _ _ Hvals' Hs).
Qed.

End TrialCases.

Lemma filter_length_Forall2 {A B} (P : A → Prop) (R : B → Prop)
    `{∀ x, Decision (P x), ∀ y, Decision (R y)} (l : list A) (k : list B) :
  Forall2 (λ x y, P x ↔ R y) l k →
  length (filter P l) = length (filter R k).
Proof.
  induction 1 as [|x y l k Hxy _ IH]; [done|].
  destruct (decide (P x)) as [Hx|Hx].
  - rewrite !filter_cons_True by tauto. simpl. by rewrite IH.
  - rewrite !filter_cons_False by tauto. done.
Qed.

Lemma view_knownCount mesh var flags cellID ids dAP normals areas phi vals p :
  trial_view mesh var flags cellID ids dAP normals areas phi vals p →
  length (filter is_Some vals) = knownCount flags ids.
Proof.
  intros Hview. unfold knownCount. apply filter_length_Forall2.
  apply Forall2_same_length_lookup_2.
  - rewrite (tv_len_vals _ _ _ _ _ _ _ _ _ _ _ Hview).
    by rewrite (tv_len_ids _ _ _ _ _ _ _ _ _ _ _ Hview).
  - intros s x j Hx Hj.
    destruct (tv_vals _ _ _ _ _ _ _ _ _ _ _ Hview s j Hj)
      as (v & f & Hv & Hf & Hs).
    rewrite Hs in Hx. injection Hx as <-. unfold isKnown. rewrite Hf.
    case_decide; subst; split; intros Hx; try done; try (by eauto).
    all: first [congruence | by destruct Hx].
Qed.

Lemma view_vals_known mesh var flags cellID ids dAP normals areas phi vals p
    (s j : nat) (v : Q) :
  trial_view mesh var flags cellID ids dAP normals areas phi vals p →
  ids !! s = Some j →
  vals !! s = Some (Some v) ↔ isKnown flags j ∧ var !! j = Some v.
Proof.
  intros Hview Hj.
  destruct (tv_vals _ _ _ _ _ _ _ _ _ _ _ Hview s j Hj)
    as (v' & f & Hv & Hf & Hs).
  rewrite Hs, Hv. unfold isKnown. rewrite Hf.
  case_decide; subst; split.
  - intros [= ->]. done.
  - intros [_ [= ->]]. done.
  - discriminate.
  - intros [[= ->] _]. done.
Qed.

Lemma view_known mesh var flags cellID ids dAP normals areas phi vals p
    (k s : nat) :
  trial_view mesh var flags cellID ids dAP normals areas phi vals p →
  (∀ s v, vals !! s = Some (Some v) → Qabs v < MA_fill) →
  (k < length (filter is_Some vals))%nat → p !! k = Some s →
  ∃ v, vals !! s = Some (Some v).
Proof.
  intros Hview Hbound Hk Hs.
  destruct (Numeric_take_total vals p) as [vals' Hvals'].
  { rewrite (tv_perm _ _ _ _ _ _ _ _ _ _ _ Hview).
    rewrite (tv_len_vals _ _ _ _ _ _ _ _ _ _ _ Hview).
    apply Forall_seq. intros; lia. }
  by eapply (view_known_take mesh _ _ _ _ _ _ _ _ _ _ Hview vals' Hvals').
Qed.

Lemma view_below_fill mesh var flags cellID ids dAP normals areas phi vals p :
  trial_view mesh var flags cellID ids dAP normals areas phi vals p →
  known_below_fill mesh var flags cellID →
  ∀ s v, vals !! s = Some (Some v) → Qabs v < MA_fill.
Proof.
  intros Hview Hbound s v Hv.
  destruct (lookup_lt_is_Some_2 ids s) as [j Hj].
  { rewrite (tv_len_ids _ _ _ _ _ _ _ _ _ _ _ Hview).
    rewrite <- (tv_len_vals _ _ _ _ _ _ _ _ _ _ _ Hview).
    by eapply lookup_lt_Some. }
  destruct (proj1 (view_vals_known _ _ _ _ _ _ _ _ _ _ _ _ _ _ Hview Hj) Hv)
    as [Hk Hx].
  by apply (Hbound ids s j v (tv_ids _ _ _ _ _ _ _ _ _ _ _ Hview)).
Qed.

Section TrialValueCases.

Variable sqrt : Q → Q.
Variable mesh : Mesh.
Hypothesis Hwf : wf_mesh mesh.

(** The three cases of [_calcTrialValue], by the number of Known
    neighbours of the cell: what it reads, in the sorted order [p], and
    what it computes from it. *)
Lemma calcTrialValue_branches (var : list Q) (flags : list nat)
    (cellID : nat) :
  length var = getNumberOfCells mesh →
  length flags = getNumberOfCells mesh →
  (cellID < getNumberOfCells mesh)%nat →
  ∃ ids dAP normals areas phi vals p,
    trial_view mesh var flags cellID ids dAP normals areas phi vals p
    ∧ length (filter is_Some vals) = knownCount flags ids
    ∧ (knownCount flags ids = 0%nat →
       _calcTrialValue sqrt mesh var cellID flags = Raise Error)
    ∧ (knownCount flags ids = 1%nat →
       ∃ s0 j0 x0 d0,
         p !! 0%nat = Some s0 ∧ ids !! s0 = Some j0
         ∧ vals !! s0 = Some x0 ∧ dAP !! s0 = Some d0
         ∧ _calcTrialValue sqrt mesh var cellID flags
           = (v0 ← unmasked x0;
              Ok (Num (if Qltb 0 phi then v0 + d0 else v0 - d0))))
    ∧ ((2 <= knownCount flags ids)%nat →
       ∃ s0 s1 j0 j1 x0 x1 d0 d1 n0 n1 a0 a1,
         p !! 0%nat = Some s0 ∧ p !! 1%nat = Some s1
         ∧ ids !! s0 = Some j0 ∧ ids !! s1 = Some j1
         ∧ vals !! s0 = Some x0 ∧ vals !! s1 = Some x1
         ∧ dAP !! s0 = Some d0 ∧ dAP !! s1 = Some d1
         ∧ normals !! s0 = Some n0 ∧ normals !! s1 = Some n1
         ∧ areas !! s0 = Some a0 ∧ areas !! s1 = Some a1
         ∧ _calcTrialValue sqrt mesh var cellID flags
           = (v0 ← unmasked x0;
              v1 ← unmasked x1;
              let quad :=
                _calcQuadratic sqrt v0 v1 n0 n1 d0 d1 a0 a1 cellID j0 j1 in
              Ok (if Qltb 0 phi then quad.1 else quad.2))).
Proof.
  intros Hvar Hflags Hc.
  destruct (calcTrialValue_view sqrt mesh Hwf var flags cellID Hvar Hflags Hc)
    as (ids & dAP & normals & areas & phi & vals & p & vals' & dAP'
        & normals' & areas' & Hview & Hvals' & HdAP' & Hnormals' & Hareas'
        & Heq).
  exists ids, dAP, normals, areas, phi, vals, p.
  pose proof (view_knownCount _ _ _ _ _ _ _ _ _ _ _ Hview) as HK.
  split; [done|]. split; [done|]. rewrite Heq, <- HK.
  split; [|split].
  - intros H0. eapply trialBranches_zero; eauto.
  - intros H1.
    destruct (trialBranches_one sqrt mesh _ _ cellID _ _ _ _ _ _ _ Hview
                _ _ _ _ Hvals' HdAP' Hnormals' Hareas'
                (if Qltb 0 phi then 1 else -1)%Z H1)
      as (s0 & j0 & x0 & d0 & ? & ? & ? & ? & ->).
    exists s0, j0, x0, d0. repeat split; try done.
    destruct (Qltb 0 phi); done.
  - intros H2.
    destruct (trialBranches_two sqrt mesh _ _ cellID _ _ _ _ _ _ _ Hview
                _ _ _ _ Hvals' HdAP' Hnormals' Hareas'
                (if Qltb 0 phi then 1 else -1)%Z H2)
      as (s0 & s1 & j0 & j1 & x0 & x1 & d0 & d1 & n0 & n1 & a0 & a1
          & ? & ? & ? & ? & ? & ? & ? & ? & ? & ? & ? & ? & ->).
    exists s0, s1, j0, j1, x0, x1, d0, d1, n0, n1, a0, a1.
    repeat split; try done.
    destruct (Qltb 0 phi); done.
Qed.

(** The cases of [_calcTrialValue] on a cell whose Known neighbours are
    below the fill value: the neighbours read first are Known. *)
Lemma calcTrialValue_cases (var : list Q) (flags : list nat) (cellID : nat) :
  length var = getNumberOfCells mesh →
  length flags = getNumberOfCells mesh →
  (cellID < getNumberOfCells mesh)%nat →
  known_below_fill mesh var flags cellID →
  ∃ ids dAP normals areas phi vals p,
    trial_view mesh var flags cellID ids dAP normals areas phi vals p
    ∧ length (filter is_Some vals) = knownCount flags ids
    ∧ (knownCount flags ids = 1%nat →
       ∃ s0 j0 v0 d0,
         p !! 0%nat = Some s0 ∧ ids !! s0 = Some j0
         ∧ vals !! s0 = Some (Some v0) ∧ dAP !! s0 = Some d0
         ∧ _calcTrialValue sqrt mesh var cellID flags
           = Ok (Num (if Qltb 0 phi then v0 + d0 else v0 - d0)))
    ∧ ((2 <= knownCount flags ids)%nat →
       ∃ s0 s1 j0 j1 v0 v1 d0 d1 n0 n1 a0 a1,
         p !! 0%nat = Some s0 ∧ p !! 1%nat = Some s1
         ∧ ids !! s0 = Some j0 ∧ ids !! s1 = Some j1
         ∧ vals !! s0 = Some (Some v0) ∧ vals !! s1 = Some (Some v1)
         ∧ dAP !! s0 = Some d0 ∧ dAP !! s1 = Some d1
         ∧ normals !! s0 = Some n0 ∧ normals !! s1 = Some n1
         ∧ areas !! s0 = Some a0 ∧ areas !! s1 = Some a1
         ∧ _calcTrialValue sqrt mesh var cellID flags
           = Ok (if Qltb 0 phi
                 then (_calcQuadratic sqrt v0 v1 n0 n1 d0 d1 a0 a1
                         cellID j0 j1).1
                 else (_calcQuadratic sqrt v0 v1 n0 n1 d0 d1 a0 a1
                         cellID j0 j1).2)).
Proof.
  intros Hvar Hflags Hc Hbound.
  destruct (calcTrialValue_branches var flags cellID Hvar Hflags Hc)
    as (ids & dAP & normals & areas & phi & vals & p & Hview & HK & _
        & Hone & Htwo).
  exists ids, dAP, normals, areas, phi, vals, p.
  split; [done|]. split; [done|].
  pose proof (view_below_fill _ _ _ _ _ _ _ _ _ _ _ Hview Hbound) as Hb.
  split.
  - intros K1.
    destruct (Hone K1) as (s0 & j0 & x0 & d0 & Hp0 & Hj0 & Hx0 & Hd0 & Heq).
    destruct (view_known _ _ _ _ _ _ _ _ _ _ _ 0%nat s0 Hview Hb)
      as [v0 Hv0]; [lia|done|].
    rewrite Hx0 in Hv0. injection Hv0 as ->.
    exists s0, j0, v0, d0. repeat split; try done.
  - intros K2.
    destruct (Htwo K2)
      as (s0 & s1 & j0 & j1 & x0 & x1 & d0 & d1 & n0 & n1 & a0 & a1
          & Hp0 & Hp1 & Hj0 & Hj1 & Hx0 & Hx1 & Hd0 & Hd1 & Hn0 & Hn1
          & Ha0 & Ha1 & Heq).
    destruct (view_known _ _ _ _ _ _ _ _ _ _ _ 0%nat s0 Hview Hb)
      as [v0 Hv0]; [lia|done|].
    destruct (view_known _ _ _ _ _ _ _ _ _ _ _ 1%nat s1 Hview Hb)
      as [v1 Hv1]; [lia|done|].
    rewrite Hx0 in Hv0. injection Hv0 as ->.
    rewrite Hx1 in Hv1. injection Hv1 as ->.
    exists s0, s1, j0, j1, v0, v1, d0, d1, n0, n1, a0, a1.
    repeat split; try done.
Qed.

(** The cases of [_calcTrialValue] when it returns: the neighbours it has
    read are Known. *)
Lemma calcTrialValue_Ok_cases (var : list Q) (flags : list nat)
    (cellID : nat) (r : Float) :
  length var = getNumberOfCells mesh →
  length flags = getNumberOfCells mesh →
  (cellID < getNumberOfCells mesh)%nat →
  _calcTrialValue sqrt mesh var cellID flags = Ok r →
  ∃ ids dAP normals areas phi vals p,
    trial_view mesh var flags cellID ids dAP normals areas phi vals p
    ∧ ((knownCount flags ids = 1%nat
        ∧ ∃ s0 j0 v0 d0,
            p !! 0%nat = Some s0 ∧ ids !! s0 = Some j0
            ∧ vals !! s0 = Some (Some v0) ∧ dAP !! s0 = Some d0
            ∧ r = Num (if Qltb 0 phi then v0 + d0 else v0 - d0))
       ∨ ((2 <= knownCount flags ids)%nat
          ∧ ∃ s0 s1 j0 j1 v0 v1 d0 d1 n0 n1 a0 a1,
              p !! 0%nat = Some s0 ∧ p !! 1%nat = Some s1
              ∧ ids !! s0 = Some j0 ∧ ids !! s1 = Some j1
              ∧ vals !! s0 = Some (Some v0) ∧ vals !! s1 = Some (Some v1)
              ∧ dAP !! s0 = Some d0 ∧ dAP !! s1 = Some d1
              ∧ normals !! s0 = Some n0 ∧ normals !! s1 = Some n1
              ∧ areas !! s0 = Some a0 ∧ areas !! s1 = Some a1
              ∧ r = (if Qltb 0 phi
                     then (_calcQuadratic sqrt v0 v1 n0 n1 d0 d1 a0 a1
                             cellID j0 j1).1
                     else (_calcQuadratic sqrt v0 v1 n0 n1 d0 d1 a0 a1
                             cellID j0 j1).2))).
Proof.
  intros Hvar Hflags Hc Hr.
  destruct (calcTrialValue_branches var flags cellID Hvar Hflags Hc)
    as (ids & dAP & normals & areas & phi & vals & p & Hview & HK & Hzero
        & Hone & Htwo).
  exists ids, dAP, normals, areas, phi, vals, p. split; [done|].
  destruct (decide (knownCount flags ids = 0%nat)) as [K0|K0].
  { rewrite (Hzero K0) in Hr. done. }
  destruct (decide (knownCount flags ids = 1%nat)) as [K1|K1].
  - left. split; [done|].
    destruct (Hone K1) as (s0 & j0 & x0 & d0 & Hp0 & Hj0 & Hx0 & Hd0 & Heq).
    rewrite Heq in Hr. apply bind_Ok in Hr as (v0 & -> %unmasked_Ok & Hr).
    exists s0, j0, v0, d0. repeat split; try done. congruence.
  - right. split; [lia|].
    destruct Htwo
      as (s0 & s1 & j0 & j1 & x0 & x1 & d0 & d1 & n0 & n1 & a0 & a1
          & Hp0 & Hp1 & Hj0 & Hj1 & Hx0 & Hx1 & Hd0 & Hd1 & Hn0 & Hn1
          & Ha0 & Ha1 & Heq); [lia|].
    rewrite Heq in Hr. apply bind_Ok in Hr as (v0 & -> %unmasked_Ok & Hr).
    apply bind_Ok in Hr as (v1 & -> %unmasked_Ok & Hr). cbv zeta in Hr.
    exists s0, s1, j0, j1, v0, v1, d0, d1, n0, n1, a0, a1.
    repeat split; try done. congruence.
Qed.

End TrialValueCases.

(** * The claims about the Trial Value Calculator *)

(** C10: the pair of roots returned by [_calcQuadratic] is independent of
    the face areas: two invocations that differ only in [area1] and [area2]
    return the same pair. *)
Theorem calcQuadratic_area_independent (sqrt : Q → Q) (phi1 phi2 : Q)
    (n1 n2 : Q * Q) (d1 d2 area1 area2 area1' area2' : Q)
    (cellID adjCellID1 adjCellID2 : nat) :
  _calcQuadratic sqrt phi1 phi2 n1 n2 d1 d2 area1 area2
    cellID adjCellID1 adjCellID2
  = _calcQuadratic sqrt phi1 phi2 n1 n2 d1 d2 area1' area2'
      cellID adjCellID1 adjCellID2.
Proof. reflexivity. Qed.

(** The two neighbours that [_calcTrialValue] hands to [_calcQuadratic] on
    a cell with two or more Known neighbours, all below the fill value:
    Known neighbours in two face slots [s1] and [s2], whose magnitudes are
    the two smallest among the Known neighbours of the cell. *)
Lemma calcTrialValue_two_known (sqrt : Q → Q) (mesh : Mesh)
    (var : list Q) (flags : list nat) (cellID : nat)
    (ids : list nat) (dAP : list Q) (normals : list (Q * Q)) (phi : Q) :
  wf_mesh mesh →
  length var = getNumberOfCells mesh →
  length flags = getNumberOfCells mesh →
  getCellToCellIDsFilled mesh !! cellID = Some ids →
  getCellToCellDistances mesh !! cellID = Some dAP →
  getCellNormals mesh !! cellID = Some normals →
  var !! cellID = Some phi →
  (2 <= knownCount flags ids)%nat →
  known_below_fill mesh var flags cellID →
  ∃ s1 s2 j1 j2 phi1 phi2 n1 n2 d1 d2 a1 a2,
    s1 ≠ s2
    ∧ ids !! s1 = Some j1 ∧ ids !! s2 = Some j2
    ∧ isKnown flags j1 ∧ isKnown flags j2
    ∧ var !! j1 = Some phi1 ∧ var !! j2 = Some phi2
    ∧ dAP !! s1 = Some d1 ∧ dAP !! s2 = Some d2
    ∧ normals !! s1 = Some n1 ∧ normals !! s2 = Some n2
    ∧ Qabs phi1 <= Qabs phi2
    ∧ (∀ s j x, s ≠ s1 → s ≠ s2 → ids !! s = Some j → isKnown flags j →
                var !! j = Some x → Qabs phi2 <= Qabs x)
    ∧ _calcTrialValue sqrt mesh var cellID flags
      = Ok (if Qltb 0 phi
            then (_calcQuadratic sqrt phi1 phi2 n1 n2 d1 d2 a1 a2
                    cellID j1 j2).1
            else (_calcQuadratic sqrt phi1 phi2 n1 n2 d1 d2 a1 a2
                    cellID j1 j2).2).
Proof.
  intros Hwf Hvar Hflags Hids HdAP Hnormals Hphi HK Hbound.
  assert (Hc : (cellID < getNumberOfCells mesh)%nat).
  { rewrite <- Hvar. by eapply lookup_lt_Some. }
  destruct (calcTrialValue_cases sqrt mesh Hwf var flags cellID Hvar Hflags Hc
              Hbound)
    as (ids' & dAP' & normals' & areas & phi' & vals & p & Hview & Hcount
        & _ & Hquad).
  pose proof (tv_ids _ _ _ _ _ _ _ _ _ _ _ Hview) as E1.
  pose proof (tv_dAP _ _ _ _ _ _ _ _ _ _ _ Hview) as E2.
  pose proof (tv_normals _ _ _ _ _ _ _ _ _ _ _ Hview) as E3.
  pose proof (tv_phi _ _ _ _ _ _ _ _ _ _ _ Hview) as E4.
  rewrite Hids in E1. rewrite HdAP in E2. rewrite Hnormals in E3.
  rewrite Hphi in E4.
  injection E1 as <-. injection E2 as <-. injection E3 as <-.
  injection E4 as <-.
  destruct (Hquad HK)
    as (s0 & s1 & j0 & j1 & v0 & v1 & d0 & d1 & n0 & n1 & a0 & a1
        & Hp0 & Hp1 & Hj0 & Hj1 & Hv0 & Hv1 & Hd0 & Hd1 & Hn0 & Hn1
        & _ & _ & Heq).
  apply (view_vals_known _ _ _ _ _ _ _ _ _ _ _ _ _ _ Hview Hj0) in Hv0 as Hk0.
  apply (view_vals_known _ _ _ _ _ _ _ _ _ _ _ _ _ _ Hview Hj1) in Hv1 as Hk1.
  destruct Hk0 as [Hk0 Hx0]. destruct Hk1 as [Hk1 Hx1].
  exists s0, s1, j0, j1, v0, v1, n0, n1, d0, d1, a0, a1.
  repeat split; try done.
  - intros ->.
    pose proof (NoDup_lookup _ _ _ _ (view_NoDup _ _ _ _ _ _ _ _ _ _ _ Hview)
                  Hp0 Hp1). done.
  - eapply (view_sorted_abs _ _ _ _ _ _ _ _ _ _ _ Hview 0%nat 1%nat); eauto.
  - intros s j x Hs0 Hs1 Hj Hk Hx.
    assert (Hs : (s < getMaxFacesPerCell mesh)%nat).
    { rewrite <- (tv_len_ids _ _ _ _ _ _ _ _ _ _ _ Hview).
      by eapply lookup_lt_Some. }
    destruct (view_slot_pos _ _ _ _ _ _ _ _ _ _ _ Hview s Hs) as [k Hpk].
    assert (Hvs : vals !! s = Some (Some x)).
    { apply (view_vals_known _ _ _ _ _ _ _ _ _ _ _ _ _ _ Hview Hj). done. }
    destruct k as [|[|k]]; [congruence..|].
    eapply (view_sorted_abs _ _ _ _ _ _ _ _ _ _ _ Hview 1%nat (S (S k)));
      eauto. lia.
Qed.


Section Loops.

Variable sqrt : Q → Q.
Variable mesh : Mesh.

Lemma setTrialValues_app (pre rest : list nat) (var : list Q)
    (flags : list nat) :
  setTrialValues sqrt mesh (pre ++ rest) var flags
  = setTrialValues sqrt mesh pre var flags
    ≫= λ var', setTrialValues sqrt mesh rest var' flags.
Proof.
  revert var. induction pre as [|c pre IH]; intros var; simpl; [done|].
  destruct (_calcTrialValue sqrt mesh var c flags) as [[v|]|e]; simpl;
    [|done..].
  destruct (setitem var c v) as [var'|e]; simpl; [|done].
  apply IH.
Qed.

Lemma relax_app (pre rest : list nat) (st : march_state) :
  relax sqrt mesh (pre ++ rest) st
  = relax sqrt mesh pre st ≫= relax sqrt mesh rest.
Proof.
  revert st. induction pre as [|c pre IH]; intros [[var flags] trial]; simpl.
  - done.
  - destruct (getitem flags c) as [f|e]; simpl; [|done].
    case_decide; [|apply IH].
    destruct (_calcTrialValue sqrt mesh var c flags) as [[v|]|e]; simpl;
      [|done..].
    destruct (setitem var c v) as [var'|e]; simpl; [|done].
    case_decide; [|apply IH].
    destruct (setitem flags c 2%nat) as [flags'|e]; simpl; [|done].
    apply IH.
Qed.

End Loops.

(** C5: invoked on a cell with no Known neighbour, [_calcTrialValue] raises
    [Error] and returns no value; no caller catches it: the loop of
    [_calcInitialTrialValues], the loop over the neighbours in
    [_calcRemainingValues], the marching loop and [solve] all end with the
    exception that was raised. *)
Theorem calcTrialValue_no_known_raises (sqrt : Q → Q) (mesh : Mesh)
    (var : list Q) (flags : list nat) (cellID : nat) (ids : list nat) :
  wf_mesh mesh →
  length var = getNumberOfCells mesh →
  length flags = getNumberOfCells mesh →
  getCellToCellIDsFilled mesh !! cellID = Some ids →
  knownCount flags ids = 0%nat →
  _calcTrialValue sqrt mesh var cellID flags = Raise Error
  ∧ (∀ pre rest var0,
       setTrialValues sqrt mesh pre var0 flags = Ok var →
       setTrialValues sqrt mesh (pre ++ cellID :: rest) var0 flags
       = Raise Error)
  ∧ (∀ pre rest st0 trial f,
       relax sqrt mesh pre st0 = Ok (var, flags, trial) →
       flags !! cellID = Some f → f ≠ 1%nat →
       relax sqrt mesh (pre ++ cellID :: rest) st0 = Raise Error)
  ∧ (∀ fuel st e,
       st.2 ≠ [] → march_step sqrt mesh st = Raise e →
       march sqrt mesh (S fuel) st = Some (Raise e))
  ∧ (∀ fuel var0 flags0 e,
       march sqrt mesh fuel (var0, flags0, nonzero_eq2 flags0)
       = Some (Raise e) →
       _calcRemainingValues sqrt mesh fuel var0 flags0 = Some (Raise e))
  ∧ (∀ fuel var0 var1 flags1 e,
       _calcInterfaceValues mesh var0 = Ok (var1, flags1) →
       _calcInitialTrialValues sqrt mesh var1 flags1 = Raise e →
       solve sqrt mesh fuel var0 = Some (Raise e))
  ∧ (∀ fuel var0 var1 flags1 var2 flags2 e,
       _calcInterfaceValues mesh var0 = Ok (var1, flags1) →
       _calcInitialTrialValues sqrt mesh var1 flags1 = Ok (var2, flags2) →
       _calcRemainingValues sqrt mesh fuel var2 flags2 = Some (Raise e) →
       solve sqrt mesh fuel var0 = Some (Raise e)).
Proof.
  intros Hwf Hvar Hflags Hids HK.
  assert (Hc : (cellID < getNumberOfCells mesh)%nat).
  { rewrite <- (wf_ids_rows _ Hwf). by eapply lookup_lt_Some. }
  assert (Hraise : _calcTrialValue sqrt mesh var cellID flags = Raise Error).
  { destruct (calcTrialValue_branches sqrt mesh Hwf var flags cellID
                Hvar Hflags Hc)
      as (ids' & dAP & normals & areas & phi & vals & p & Hview & _
          & Hzero & _).
    pose proof (tv_ids _ _ _ _ _ _ _ _ _ _ _ Hview) as E.
    rewrite Hids in E. injection E as <-. by apply Hzero. }
  repeat split.
  - exact Hraise.
  - intros pre rest var0 Hpre.
    rewrite setTrialValues_app, Hpre. simpl. by rewrite Hraise.
  - intros pre rest st0 trial f Hpre Hf Hne.
    rewrite relax_app, Hpre. simpl.
    apply getitem_Ok in Hf. rewrite Hf. simpl.
    rewrite decide_True by done. by rewrite Hraise.
  - intros fuel [[v fl] [|c trial]] e Hne Hstep; [done|].
    simpl in *. by rewrite Hstep.
  - intros fuel var0 flags0 e H. unfold _calcRemainingValues. by rewrite H.
  - intros fuel var0 var1 flags1 e H1 H2. unfold solve. by rewrite H1, H2.
  - intros fuel var0 var1 flags1 var2 flags2 e H1 H2 H3. unfold solve.
    by rewrite H1, H2.
Qed.

Lemma Numeric_sqrt_negative (sqrt : Q → Q) (x : Q) :
  x < 0 → Numeric_sqrt sqrt x = NaN.
Proof.
  intros Hx. unfold Numeric_sqrt.
  by rewrite (proj2 (Qltb_lt x 0) Hx).
Qed.

Lemma calcQuadratic_negative (sqrt : Q → Q) (phi1 phi2 : Q) (n1 n2 : Q * Q)
    (d1 d2 area1 area2 : Q) (cellID adjCellID1 adjCellID2 : nat) :
  (d1 * d2 * (n1.1 * n2.2 - n1.2 * n2.1)) ^ 2
  * (d1 ^ 2 + d2 ^ 2 - 2 * (d1 * d2 * (n1.1 * n2.1 + n1.2 * n2.2))
     - (phi1 - phi2) ^ 2) < 0 →
  _calcQuadratic sqrt phi1 phi2 n1 n2 d1 d2 area1 area2
    cellID adjCellID1 adjCellID2 = (NaN, NaN).
Proof.
  intros Hneg. unfold _calcQuadratic. cbv zeta.
  unfold Numeric_dot. by rewrite (Numeric_sqrt_negative sqrt _ Hneg).
Qed.

(** The two roots are numbers when [dsq] is not zero and the argument of
    the square root is not negative. *)
Lemma calcQuadratic_Num (sqrt : Q → Q) (phi1 phi2 : Q) (n1 n2 : Q * Q)
    (d1 d2 area1 area2 : Q) (cellID adjCellID1 adjCellID2 : nat) :
  let dot := d1 * d2 * Numeric_dot n1 n2 in
  let cross := d1 * d2 * (n1.1 * n2.2 - n1.2 * n2.1) in
  let dsq := d1 ^ 2 + d2 ^ 2 - 2 * dot in
  let top := - phi1 * (dot - d2 ^ 2) - phi2 * (dot - d1 ^ 2) in
  let arg := cross ^ 2 * (dsq - (phi1 - phi2) ^ 2) in
  ¬ dsq == 0 → 0 <= arg →
  _calcQuadratic sqrt phi1 phi2 n1 n2 d1 d2 area1 area2
    cellID adjCellID1 adjCellID2
  = (Num ((top + sqrt arg) / dsq), Num ((top - sqrt arg) / dsq)).
Proof.
  intros dot cross dsq top arg Hdsq Harg.
  change (_calcQuadratic sqrt phi1 phi2 n1 n2 d1 d2 area1 area2
            cellID adjCellID1 adjCellID2)
    with (Float_div (Float_add top (Numeric_sqrt sqrt arg)) dsq,
          Float_div (Float_sub top (Numeric_sqrt sqrt arg)) dsq).
  unfold Numeric_sqrt. rewrite (proj2 (Qltb_ge arg 0) Harg).
  cbn [Float_add Float_sub Float_div].
  destruct (Qeq_bool dsq 0) eqn:E; [|done].
  apply Qeq_bool_iff in E. contradiction.
Qed.

(** C6, as the code has it: the quadratic solve makes no test on the
    argument of the square root.  Where that argument is negative both
    roots of [_calcQuadratic] are the not-a-number of [Numeric.sqrt], with
    no error; and on a cell with two or more Known neighbours, all below
    the fill value, of which the two of least magnitude give a negative
    argument, [_calcTrialValue] returns the not-a-number as the trial
    value of the cell. *)
Theorem calcQuadratic_negative_argument_nan (sqrt : Q → Q) :
  (∀ phi1 phi2 n1 n2 d1 d2 area1 area2 cellID adjCellID1 adjCellID2,
     let dot := d1 * d2 * (n1.1 * n2.1 + n1.2 * n2.2) in
     let cross := d1 * d2 * (n1.1 * n2.2 - n1.2 * n2.1) in
     let dsq := d1 ^ 2 + d2 ^ 2 - 2 * dot in
     cross ^ 2 * (dsq - (phi1 - phi2) ^ 2) < 0 →
     _calcQuadratic sqrt phi1 phi2 n1 n2 d1 d2 area1 area2
       cellID adjCellID1 adjCellID2 = (NaN, NaN))
  ∧ (∀ mesh var flags cellID ids dAP normals phi,
       wf_mesh mesh →
       length var = getNumberOfCells mesh →
       length flags = getNumberOfCells mesh →
       getCellToCellIDsFilled mesh !! cellID = Some ids →
       getCellToCellDistances mesh !! cellID = Some dAP →
       getCellNormals mesh !! cellID = Some normals →
       var !! cellID = Some phi →
       (2 <= knownCount flags ids)%nat →
       known_below_fill mesh var flags cellID →
       ∃ s1 s2 j1 j2 phi1 phi2 n1 n2 d1 d2,
         s1 ≠ s2
         ∧ ids !! s1 = Some j1 ∧ ids !! s2 = Some j2
         ∧ isKnown flags j1 ∧ isKnown flags j2
         ∧ var !! j1 = Some phi1 ∧ var !! j2 = Some phi2
         ∧ dAP !! s1 = Some d1 ∧ dAP !! s2 = Some d2
         ∧ normals !! s1 = Some n1 ∧ normals !! s2 = Some n2
         ∧ Qabs phi1 <= Qabs phi2
         ∧ (∀ s j x, s ≠ s1 → s ≠ s2 → ids !! s = Some j →
                     isKnown flags j → var !! j = Some x →
                     Qabs phi2 <= Qabs x)
         ∧ let dot := d1 * d2 * (n1.1 * n2.1 + n1.2 * n2.2) in
           let cross := d1 * d2 * (n1.1 * n2.2 - n1.2 * n2.1) in
           let dsq := d1 ^ 2 + d2 ^ 2 - 2 * dot in
           (cross ^ 2 * (dsq - (phi1 - phi2) ^ 2) < 0 →
            _calcTrialValue sqrt mesh var cellID flags = Ok NaN)).
Proof.
  split.
  - intros phi1 phi2 n1 n2 d1 d2 area1 area2 cellID j1 j2. cbv zeta.
    apply calcQuadratic_negative.
  - intros mesh var flags cellID ids dAP normals phi Hwf Hvar Hflags Hids
      HdAP Hnormals Hphi HK Hbound.
    destruct (calcTrialValue_two_known sqrt mesh var flags cellID ids dAP
                normals phi Hwf Hvar Hflags Hids HdAP Hnormals Hphi HK Hbound)
      as (s1 & s2 & j1 & j2 & phi1 & phi2 & n1 & n2 & d1 & d2 & a1 & a2
          & H1 & H2 & H3 & H4 & H5 & H6 & H7 & H8 & H9 & H10 & H11 & H12
          & H13 & Heq).
    exists s1, s2, j1, j2, phi1, phi2, n1, n2, d1, d2.
    repeat split; try done.
    cbv zeta. intros Hneg. rewrite Heq.
    rewrite (calcQuadratic_negative sqrt _ _ _ _ _ _ a1 a2 cellID j1 j2 Hneg).
    by destruct (Qltb 0 phi).
Qed.

(** * The Interface Classifier *)

Lemma Qabs_div_abs (a b : Q) : Qabs (a / Qabs b) == Qabs (a / b).
Proof.
  destruct (Qlt_le_dec b 0) as [Hb|Hb].
  - rewrite (Qabs_neg b) by lra.
    assert (E : a / - b == - (a / b)) by (field; lra).
    rewrite E. apply Qabs_opp.
  - by rewrite (Qabs_pos b).
Qed.

Lemma opposite_nonzero (phi pa : Q) :
  opposite phi pa → ¬ phi == 0 ∧ 0 < Qabs (phi - pa).
Proof.
  unfold opposite. intros H. split.
  - intros E. rewrite E in H. lra.
  - apply Qabs_case; intros; nra.
Qed.

Lemma classifier_value_sign (phi d pa : Q) :
  0 < d → opposite phi pa →
  sameSign phi (phi * d / Qabs (phi - pa) * Qnat 1)
  ∧ ¬ phi * d / Qabs (phi - pa) * Qnat 1 == 0.
Proof.
  intros Hd Hopp. destruct (opposite_nonzero _ _ Hopp) as [Hphi Habs].
  assert (Hinv : 0 < / Qabs (phi - pa)) by (by apply Qinv_lt_0_compat).
  assert (E : phi * d / Qabs (phi - pa) * Qnat 1
              == phi * (d * / Qabs (phi - pa))).
  { unfold Qnat. change (inject_Z (Z.of_nat 1)) with 1.
    generalize dependent (Qabs (phi - pa)). intros a Ha _. field. lra. }
  assert (Hpos : 0 < d * / Qabs (phi - pa)).
  { generalize dependent (/ Qabs (phi - pa)). intros. nra. }
  unfold sameSign. rewrite E.
  generalize dependent (d * / Qabs (phi - pa)). intros.
  repeat split; intros; nra.
Qed.

Lemma getInterfaceFlag_opposite (phi pa : Q) :
  (opposite phi pa → getInterfaceFlag phi pa = 1%nat)
  ∧ (¬ opposite phi pa → getInterfaceFlag phi pa = 0%nat).
Proof.
  unfold getInterfaceFlag, opposite.
  destruct (Qltb (phi * pa) 0) eqn:E.
  - apply Qltb_lt in E. split; [done | intros H; by destruct H].
  - apply Qltb_ge in E. split; [intros H; lra | done].
Qed.

Lemma Numeric_sum_pos (l : list nat) :
  (0 < Numeric_sum l)%nat ↔ ∃ s f, l !! s = Some f ∧ (0 < f)%nat.
Proof.
  unfold Numeric_sum. induction l as [|x l IH]; simpl.
  - split; [lia | intros (s & f & H & _); done].
  - split.
    + intros H. destruct (decide (0 < x)%nat) as [Hx|Hx].
      * exists 0%nat, x. done.
      * destruct (proj1 IH) as (s & f & Hs & Hf); [lia|].
        exists (S s), f. done.
    + intros ([|s] & f & Hs & Hf); simpl in Hs.
      * injection Hs as ->. lia.
      * assert (0 < foldr Nat.add 0 l)%nat by (apply IH; eauto). lia.
Qed.

Section Classifier.

Variable mesh : Mesh.
Hypothesis Hwf : wf_mesh mesh.

(** The rows that [_calcInterfaceValues] computes for one cell. *)
Lemma interfaceRow_spec (var : list Q) (cellID : nat) (ids : list nat)
    (dAP : list Q) (phi : Q) :
  length var = getNumberOfCells mesh →
  getCellToCellIDsFilled mesh !! cellID = Some ids →
  getCellToCellDistances mesh !! cellID = Some dAP →
  var !! cellID = Some phi →
  ∃ cellZeroFlag distance,
    interfaceRow mesh var cellID = Ok (cellZeroFlag, distance)
    ∧ length cellZeroFlag = getMaxFacesPerCell mesh
    ∧ length distance = getMaxFacesPerCell mesh
    ∧ ∀ s j, ids !! s = Some j →
        ∃ pa d, var !! j = Some pa ∧ dAP !! s = Some d
          ∧ cellZeroFlag !! s = Some (getInterfaceFlag phi pa)
          ∧ distance !! s
            = Some (MA_masked_values
                      (phi * d / Qabs (phi - pa)
                       * Qnat (getInterfaceFlag phi pa)) 0).
Proof.
  intros Hvar Hids HdAP Hphi.
  assert (Hc : (cellID < getNumberOfCells mesh)%nat).
  { rewrite <- Hvar. by eapply lookup_lt_Some. }
  destruct (wf_rows mesh Hwf cellID Hc)
    as (ids' & dAP' & normals & areas & Hids' & HdAP' & _ & _
        & Lids & LdAP & _ & _ & Rids).
  rewrite Hids in Hids'. injection Hids' as <-.
  rewrite HdAP in HdAP'. injection HdAP' as <-.
  destruct (Numeric_take_total var ids) as [phiAdj HphiAdj];
    [by rewrite Hvar|].
  pose proof (Numeric_take_length _ _ _ HphiAdj) as LphiAdj.
  destruct (for_each_total
              (λ s, pa ← getitem phiAdj s; Ok (getInterfaceFlag phi pa))
              (seq 0 (getMaxFacesPerCell mesh))) as [czf Hczf].
  { apply Forall_seq. intros s Hs.
    destruct (getitem_lt phiAdj s) as (pa & -> & _); [lia|].
    simpl. eauto. }
  pose proof (for_each_length _ _ _ Hczf) as Lczf. rewrite length_seq in Lczf.
  destruct (for_each_total
              (λ s, d ← getitem dAP s;
                    pa ← getitem phiAdj s;
                    f ← getitem czf s;
                    Ok (MA_masked_values
                          (phi * d / Qabs (phi - pa) * Qnat f) 0))
              (seq 0 (getMaxFacesPerCell mesh))) as [dist Hdist].
  { apply Forall_seq. intros s Hs.
    destruct (getitem_lt dAP s) as (d & -> & _); [lia|].
    destruct (getitem_lt phiAdj s) as (pa & -> & _); [lia|].
    destruct (getitem_lt czf s) as (f & -> & _); [lia|].
    simpl. eauto. }
  pose proof (for_each_length _ _ _ Hdist) as Ldist.
  rewrite length_seq in Ldist.
  exists czf, dist. repeat split; try done.
  - unfold interfaceRow.
    apply getitem_Ok in Hphi, Hids, HdAP.
    rewrite Hphi, !bind_Ok_l, Hids, !bind_Ok_l, HdAP, !bind_Ok_l.
    rewrite HphiAdj, !bind_Ok_l, Hczf, !bind_Ok_l, Hdist. done.
  - intros s j Hj.
    assert (Hs : (s < getMaxFacesPerCell mesh)%nat).
    { rewrite <- Lids. by eapply lookup_lt_Some. }
    assert (Hjlt : (j < getNumberOfCells mesh)%nat)
      by (by eapply (Forall_lookup_1 _ _ _ _ Rids)).
    destruct (lookup_lt_is_Some_2 var j) as [pa Hpa]; [lia|].
    destruct (lookup_lt_is_Some_2 dAP s) as [d Hd]; [lia|].
    exists pa, d. split; [done|]. split; [done|].
    assert (HphiAdj_s : phiAdj !! s = Some pa).
    { by rewrite (Numeric_take_lookup _ _ _ _ _ HphiAdj Hj). }
    destruct (for_each_seq_lookup _ _ _ s Hczf Hs) as (f & Hf & Ef).
    apply getitem_Ok in HphiAdj_s as Gpa. rewrite Gpa in Ef. simpl in Ef.
    injection Ef as <-. split; [done|].
    destruct (for_each_seq_lookup _ _ _ s Hdist Hs) as (x & Hx & Ex).
    apply getitem_Ok in Hd as Gd. apply getitem_Ok in Hf as Gf.
    rewrite Gd, Gpa, Gf in Ex. simpl in Ex. injection Ex as <-. done.
Qed.

End Classifier.

Lemma MA_masked_values_None (x : Q) :
  MA_masked_values x 0 = None ↔ Qabs x <= MA_atol.
Proof.
  assert (E1 : Qabs (x - 0) == Qabs x) by (apply Qabs_wd; ring).
  assert (E2 : MA_atol + MA_rtol * Qabs 0 == MA_atol) by reflexivity.
  unfold MA_masked_values.
  destruct (Qle_bool (Qabs (x - 0)) (MA_atol + MA_rtol * Qabs 0)) eqn:E.
  - apply Qle_bool_iff in E. rewrite E1, E2 in E. done.
  - split; [discriminate|]. intros H. exfalso.
    rewrite <- E1, <- E2 in H. apply Qle_bool_iff in H. congruence.
Qed.

Lemma MA_masked_values_Some (x v : Q) :
  MA_masked_values x 0 = Some v ↔ v = x ∧ MA_atol < Qabs x.
Proof.
  pose proof (MA_masked_values_None x) as HN.
  unfold MA_masked_values in *.
  destruct (Qle_bool (Qabs (x - 0)) (MA_atol + MA_rtol * Qabs 0)).
  - split; [discriminate|]. intros [_ H].
    pose proof (proj1 HN eq_refl). lra.
  - split.
    + intros [= <-]. split; [done|]. apply Qnot_le_lt. intros H.
      apply HN in H. discriminate.
    + intros [-> _]. done.
Qed.

Lemma classifier_value_abs (phi d pa : Q) :
  Qabs (phi * d / Qabs (phi - pa) * Qnat 1) == Qabs (candidate phi d pa).
Proof.
  unfold candidate. rewrite <- Qabs_div_abs.
  apply Qabs_wd. unfold Qnat. change (inject_Z (Z.of_nat 1)) with 1.
  generalize (phi * d / Qabs (phi - pa)). intros. ring.
Qed.

Section ClassifierCell.

Variable mesh : Mesh.
Hypothesis Hwf : wf_mesh mesh.
Hypothesis HM : (0 < getMaxFacesPerCell mesh)%nat.

Context (var : list Q) (cellID : nat) (ids : list nat) (dAP : list Q)
        (phi : Q).
Hypothesis Hvar : length var = getNumberOfCells mesh.
Hypothesis Hids : getCellToCellIDsFilled mesh !! cellID = Some ids.
Hypothesis HdAP : getCellToCellDistances mesh !! cellID = Some dAP.
Hypothesis Hphi : var !! cellID = Some phi.
(** The value and the flag that [_calcInterfaceValues] gives to a cell:
    [x] is the entry of [distance] that [MA.argmin] selects. *)
Lemma interfaceCell_spec :
  (¬ (∃ s j pa, ids !! s = Some j ∧ var !! j = Some pa ∧ opposite phi pa) →
   interfaceCell mesh var cellID = Ok (phi, 0%nat))
  ∧ ((∃ s j pa, ids !! s = Some j ∧ var !! j = Some pa ∧ opposite phi pa) →
     ∃ x,
       interfaceCell mesh var cellID = (v ← unmasked x; Ok (v, 1%nat))
       ∧ (∀ v, x = Some v →
            ∃ s j pa d,
              ids !! s = Some j ∧ var !! j = Some pa ∧ dAP !! s = Some d
              ∧ opposite phi pa
              ∧ v = phi * d / Qabs (phi - pa) * Qnat 1
              ∧ MA_atol < Qabs v
              ∧ ∀ s' j' pa' d',
                  ids !! s' = Some j' → var !! j' = Some pa' →
                  dAP !! s' = Some d' → opposite phi pa' →
                  MA_atol < Qabs (phi * d' / Qabs (phi - pa') * Qnat 1) →
                  Qabs v <= Qabs (phi * d' / Qabs (phi - pa') * Qnat 1)
                  ∧ ((s' < s)%nat →
                     Qabs v < Qabs (phi * d' / Qabs (phi - pa') * Qnat 1)))
       ∧ ((∃ s j pa d,
             ids !! s = Some j ∧ var !! j = Some pa ∧ dAP !! s = Some d
             ∧ opposite phi pa
             ∧ MA_atol < Qabs (phi * d / Qabs (phi - pa) * Qnat 1)
             ∧ Qabs (phi * d / Qabs (phi - pa) * Qnat 1) < MA_fill) →
          ∃ v, x = Some v)).
Proof.
  destruct (interfaceRow_spec mesh Hwf var cellID ids dAP phi Hvar Hids HdAP
              Hphi) as (czf & dist & Hrow & Lczf & Ldist & Hslots).
  destruct (argmin_total MA_ltb (MA_abs dist)) as [r Hr].
  { rewrite MA_abs_length. lia. }
  pose proof (argmin_spec _ _ _ MA_ltb_strict_weak Hr)
    as (xr & Hxr & Hmin & Hfirst).
  rewrite MA_abs_lookup in Hxr.
  destruct (dist !! r) as [x|] eqn:Hx; [|done]. simpl in Hxr.
  injection Hxr as <-.
  assert (Hcell : interfaceCell mesh var cellID
                  = if decide (0 < Numeric_sum czf)%nat
                    then v ← unmasked x; Ok (v, 1%nat)
                    else Ok (phi, 0%nat)).
  { unfold interfaceCell. rewrite Hrow, bind_Ok_l.
    unfold MA_argmin. rewrite Hr, bind_Ok_l.
    apply getitem_Ok in Hx. rewrite Hx, bind_Ok_l.
    apply getitem_Ok in Hphi. rewrite Hphi. done. }
  assert (Lids : length ids = getMaxFacesPerCell mesh).
  { destruct (wf_rows mesh Hwf cellID) as (? & _ & _ & _ & E & _ & _ & _
      & L & _); [|rewrite Hids in E; by injection E as <-].
    rewrite <- (wf_ids_rows _ Hwf). by eapply lookup_lt_Some. }
  (* some face borders a cell of opposite sign *)
  assert (Hsum : (0 < Numeric_sum czf)%nat
                 ↔ ∃ s j pa, ids !! s = Some j ∧ var !! j = Some pa
                             ∧ opposite phi pa).
  { rewrite Numeric_sum_pos. split.
    - intros (s0 & f0 & Hf0 & Hf0pos).
      destruct (lookup_lt_is_Some_2 ids s0) as [j Hj].
      { rewrite Lids, <- Lczf. by eapply lookup_lt_Some. }
      destruct (Hslots s0 j Hj) as (pa & d & Hpa & Hd & Hf & Hdist).
      rewrite Hf0 in Hf. injection Hf as Hf.
      exists s0, j, pa. repeat split; try done.
      destruct (decide (opposite phi pa)) as [|Hn]; [done|].
      rewrite (proj2 (getInterfaceFlag_opposite phi pa) Hn) in Hf. lia.
    - intros (s & j & pa & Hj & Hpa & Hopp). exists s, 1%nat. split; [|lia].
      destruct (Hslots s j Hj) as (pa' & d & Hpa' & Hd & Hf & _).
      rewrite Hpa in Hpa'. injection Hpa' as <-.
      by rewrite (proj1 (getInterfaceFlag_opposite phi pa) Hopp) in Hf. }
  (* the entry of a slot that borders a cell of opposite sign *)
  assert (Hentry : ∀ s j pa d,
            ids !! s = Some j → var !! j = Some pa → dAP !! s = Some d →
            opposite phi pa →
            MA_atol < Qabs (phi * d / Qabs (phi - pa) * Qnat 1) →
            dist !! s = Some (Some (phi * d / Qabs (phi - pa) * Qnat 1))).
  { intros s j pa d Hj Hpa Hd Hopp Hkeep.
    destruct (Hslots s j Hj) as (pa' & d' & Hpa' & Hd' & Hf & Hdist).
    rewrite Hpa in Hpa'. injection Hpa' as <-.
    rewrite Hd in Hd'. injection Hd' as <-.
    rewrite (proj1 (getInterfaceFlag_opposite phi pa) Hopp) in Hdist.
    rewrite Hdist. f_equal. by apply MA_masked_values_Some. }
  split.
  - intros Hno. rewrite Hcell, decide_False; [done|]. by rewrite Hsum.
  - intros Hex. exists x.
    rewrite Hcell, decide_True by (by apply Hsum).
    split; [done|]. split.
    + intros v ->.
      destruct (lookup_lt_is_Some_2 ids r) as [j Hj].
      { rewrite Lids, <- Ldist. by eapply lookup_lt_Some. }
      destruct (Hslots r j Hj) as (pa & d & Hpa & Hd & Hf & Hdist).
      rewrite Hx in Hdist. injection Hdist as Hdist. symmetry in Hdist.
      apply MA_masked_values_Some in Hdist as [-> Hkeep].
      assert (Hopp : opposite phi pa).
      { destruct (decide (opposite phi pa)) as [|Hn]; [done|]. exfalso.
        rewrite (proj2 (getInterfaceFlag_opposite phi pa) Hn) in Hkeep.
        assert (E : phi * d / Qabs (phi - pa) * Qnat 0 == 0).
        { unfold Qnat. change (inject_Z (Z.of_nat 0)) with 0.
          generalize (phi * d / Qabs (phi - pa)). intros. ring. }
        rewrite E in Hkeep. revert Hkeep. apply Qle_not_lt. done. }
      rewrite (proj1 (getInterfaceFlag_opposite phi pa) Hopp) in *.
      exists r, j, pa, d. repeat split; try done.
      * pose proof (Hentry s' j' pa' d' H H0 H1 H2 H3) as Hd'.
        specialize (Hmin s'
          (Some (Qabs (phi * d' / Qabs (phi - pa') * Qnat 1)))).
        rewrite MA_abs_lookup, Hd' in Hmin. specialize (Hmin eq_refl).
        by apply Qltb_ge in Hmin.
      * intros Hlt.
        pose proof (Hentry s' j' pa' d' H H0 H1 H2 H3) as Hd'.
        specialize (Hfirst s'
          (Some (Qabs (phi * d' / Qabs (phi - pa') * Qnat 1))) Hlt).
        rewrite MA_abs_lookup, Hd' in Hfirst. specialize (Hfirst eq_refl).
        by apply Qltb_lt in Hfirst.
    + intros (s & j & pa & d & Hj & Hpa & Hd & Hopp & Hkeep & Hfill).
      destruct x as [v|]; [eauto|]. exfalso.
      pose proof (Hentry s j pa d Hj Hpa Hd Hopp Hkeep) as Hds.
      specialize (Hmin s (Some (Qabs (phi * d / Qabs (phi - pa) * Qnat 1)))).
      rewrite MA_abs_lookup, Hds in Hmin. specialize (Hmin eq_refl).
      apply Qltb_ge in Hmin. unfold MA_filled in Hmin. simpl in Hmin.
      revert Hfill. by apply Qle_not_lt.
Qed.

End ClassifierCell.

Lemma nonzero_eq2_from_elem (i : nat) (flags : list nat) (c : nat) :
  c ∈ nonzero_eq2_from i flags
  ↔ ∃ k, c = (i + k)%nat ∧ flags !! k = Some 2%nat.
Proof.
  revert i. induction flags as [|f flags IH]; intros i; simpl.
  - split; [intros H; by apply elem_of_nil in H | intros (k & _ & H); done].
  - case_decide as Hf.
    + rewrite elem_of_cons, IH. split.
      * intros [->|(k & -> & Hk)].
        -- exists 0%nat. split; [lia | by subst].
        -- exists (S k). split; [lia | done].
      * intros ([|k] & -> & Hk).
        -- left. lia.
        -- right. exists k. split; [lia | done].
    + rewrite IH. split.
      * intros (k & -> & Hk). exists (S k). split; [lia | done].
      * intros ([|k] & -> & Hk).
        -- simpl in Hk. congruence.
        -- exists k. split; [lia | done].
Qed.

Lemma nonzero_eq2_elem (flags : list nat) (c : nat) :
  c ∈ nonzero_eq2 flags ↔ flags !! c = Some 2%nat.
Proof.
  unfold nonzero_eq2. rewrite nonzero_eq2_from_elem. split.
  - intros (k & -> & Hk). done.
  - intros H. exists c. done.
Qed.

Lemma nonzero_eq2_from_NoDup (i : nat) (flags : list nat) :
  NoDup (nonzero_eq2_from i flags).
Proof.
  revert i. induction flags as [|f flags IH]; intros i; simpl.
  - constructor.
  - case_decide; [|apply IH].
    constructor; [|apply IH].
    rewrite nonzero_eq2_from_elem. intros (k & Hk & _). lia.
Qed.

Lemma nonzero_eq2_NoDup (flags : list nat) : NoDup (nonzero_eq2 flags).
Proof. apply nonzero_eq2_from_NoDup. Qed.

Lemma opposite_neighbour_dec (var : list Q) (ids : list nat) (phi : Q) :
  (∃ s j pa, ids !! s = Some j ∧ var !! j = Some pa ∧ opposite phi pa)
  ∨ ¬ (∃ s j pa, ids !! s = Some j ∧ var !! j = Some pa ∧ opposite phi pa).
Proof.
  induction ids as [|j ids IH].
  - right. intros (s & j & pa & Hs & _). done.
  - destruct IH as [(s & j' & pa & Hs & Hpa & Hopp)|IH].
    { left. exists (S s), j', pa. done. }
    destruct (var !! j) as [pa|] eqn:Hpa.
    + destruct (decide (opposite phi pa)) as [Hopp|Hopp].
      * left. exists 0%nat, j, pa. done.
      * right. intros ([|s] & j' & pa' & Hs & Hpa' & Hopp'); simpl in Hs.
        -- injection Hs as <-. congruence.
        -- apply IH. eauto 6.
    + right. intros ([|s] & j' & pa' & Hs & Hpa' & Hopp'); simpl in Hs.
      * injection Hs as <-. congruence.
      * apply IH. eauto 6.
Qed.

(** * The claims about the Interface Classifier *)

(** What [_calcInterfaceValues] does to each cell, when it returns. *)
Lemma calcInterfaceValues_cells (mesh : Mesh) (var var' : list Q)
    (flags' : list nat) :
  wf_mesh mesh →
  (0 < getMaxFacesPerCell mesh)%nat →
  positive_distances mesh →
  length var = getNumberOfCells mesh →
  _calcInterfaceValues mesh var = Ok (var', flags') →
  length var' = getNumberOfCells mesh
  ∧ length flags' = getNumberOfCells mesh
  ∧ ∀ cellID ids dAP phi,
      getCellToCellIDsFilled mesh !! cellID = Some ids →
      getCellToCellDistances mesh !! cellID = Some dAP →
      var !! cellID = Some phi →
      ((∃ s j pa, ids !! s = Some j ∧ var !! j = Some pa ∧ opposite phi pa) →
       flags' !! cellID = Some 1%nat
       ∧ ∃ s j pa d v,
           ids !! s = Some j ∧ var !! j = Some pa ∧ dAP !! s = Some d
           ∧ opposite phi pa
           ∧ var' !! cellID = Some v
           ∧ Qabs v == Qabs (candidate phi d pa)
           ∧ MA_atol < Qabs (candidate phi d pa)
           ∧ sameSign phi v
           ∧ ∀ s' j' pa' d',
               ids !! s' = Some j' → var !! j' = Some pa' →
               dAP !! s' = Some d' → opposite phi pa' →
               MA_atol < Qabs (candidate phi d' pa') →
               Qabs (candidate phi d pa) <= Qabs (candidate phi d' pa')
               ∧ ((s' < s)%nat →
                  Qabs (candidate phi d pa) < Qabs (candidate phi d' pa')))
      ∧ (¬ (∃ s j pa, ids !! s = Some j ∧ var !! j = Some pa
                      ∧ opposite phi pa) →
         flags' !! cellID = Some 0%nat ∧ var' !! cellID = Some phi).
Proof.
  intros Hwf HM Hpos Hvar H.
  assert (Hd : ∀ cellID dAP s d,
    getCellToCellDistances mesh !! cellID = Some dAP → dAP !! s = Some d →
    0 < d).
  { intros cellID dAP s d HdAP Hd.
    pose proof (Forall_lookup_1 _ _ _ _ Hpos HdAP) as H'.
    by eapply (Forall_lookup_1 _ _ _ _ H'). }
  unfold _calcInterfaceValues in H.
  apply bind_Ok in H as (cells & Hcells & [= <- <-]).
  pose proof (for_each_length _ _ _ Hcells) as Lcells.
  rewrite length_seq in Lcells.
  split; [by rewrite length_fmap|]. split; [by rewrite length_fmap|].
  intros cellID ids dAP phi Hids HdAP Hphi.
  assert (Hc : (cellID < getNumberOfCells mesh)%nat).
  { rewrite <- Hvar. by eapply lookup_lt_Some. }
  destruct (interfaceCell_spec mesh Hwf HM var cellID ids dAP phi Hvar Hids
              HdAP Hphi) as [Hno Hyes].
  destruct (for_each_seq_lookup _ _ _ cellID Hcells Hc) as ([v' f'] & Hl & E).
  rewrite !list_lookup_fmap, Hl. simpl.
  split.
  - intros Hex. destruct (Hyes Hex) as (x & Hx & Hwin & _).
    rewrite Hx in E. apply bind_Ok in E as (v & -> %unmasked_Ok & [= <- <-]).
    split; [done|].
    destruct (Hwin v eq_refl)
      as (s & j & pa & d & Hj & Hpa & Hds & Hopp & -> & Hkeep & Hmin).
    rewrite (classifier_value_abs phi d pa) in Hkeep.
    exists s, j, pa, d. eexists.
    split; [done|]. split; [done|]. split; [done|]. split; [done|].
    split; [done|]. split; [apply classifier_value_abs|].
    split; [done|].
    split; [apply classifier_value_sign; [by eapply Hd | done]|].
    intros s' j' pa' d' Hj' Hpa' Hd' Hopp' Hkeep'.
    rewrite <- (classifier_value_abs phi d' pa') in Hkeep'.
    destruct (Hmin s' j' pa' d' Hj' Hpa' Hd' Hopp' Hkeep') as [Hle Hfirst].
    rewrite (classifier_value_abs phi d pa),
            (classifier_value_abs phi d' pa') in Hle, Hfirst.
    done.
  - intros Hn. rewrite (Hno Hn) in E. by injection E as <- <-.
Qed.



Lemma Numeric_sum_zero (l : list nat) :
  (∀ x, x ∈ l → x = 0%nat) → Numeric_sum l = 0%nat.
Proof.
  unfold Numeric_sum. induction l as [|x l IH]; intros H; simpl; [done|].
  rewrite (H x) by apply list_elem_of_here.
  rewrite IH; [done|]. intros y Hy. apply H. by apply list_elem_of_further.
Qed.

Lemma nonzero_eq2_replicate_0 (n : nat) : nonzero_eq2 (replicate n 0%nat) = [].
Proof.
  destruct (nonzero_eq2 (replicate n 0%nat)) as [|c l] eqn:E; [done|].
  assert (H : c ∈ nonzero_eq2 (replicate n 0%nat))
    by (rewrite E; apply list_elem_of_here).
  apply nonzero_eq2_elem in H. apply lookup_replicate in H as [H _]. done.
Qed.

(** C4, as the code has it: [solve] makes no test of its input.  On a field
    without a sign change, one that has no strictly positive or no strictly
    negative value, it returns normally, whatever the fuel, and leaves
    every value as it was and every cell Unknown. *)
Theorem solve_no_sign_change (sqrt : Q → Q) (mesh : Mesh) (fuel : nat)
    (var : list Q) :
  wf_mesh mesh →
  (0 < getMaxFacesPerCell mesh)%nat →
  length var = getNumberOfCells mesh →
  (∀ x, x ∈ var → 0 <= x) ∨ (∀ x, x ∈ var → x <= 0) →
  solve sqrt mesh fuel var
  = Some (Ok (var, replicate (getNumberOfCells mesh) 0%nat)).
Proof.
  intros Hwf HM Hvar Hsign.
  assert (Hnopp : ∀ x y, x ∈ var → y ∈ var → ¬ opposite x y).
  { intros x y Hx Hy. unfold opposite.
    destruct Hsign as [H|H]; pose proof (H x Hx); pose proof (H y Hy); nra. }
  set (zeros := replicate (getNumberOfCells mesh) 0%nat).
  assert (H1 : _calcInterfaceValues mesh var = Ok (var, zeros)).
  { unfold _calcInterfaceValues.
    assert (Hcells : for_each (interfaceCell mesh var)
                       (seq 0 (getNumberOfCells mesh))
                     = Ok ((λ v, (v, 0%nat)) <$> var)).
    { apply for_each_Ok. apply Forall2_same_length_lookup_2.
      - by rewrite length_seq, length_fmap.
      - intros i c x Hc Hx. apply lookup_seq in Hc as [-> Hc].
        simpl in *. rewrite list_lookup_fmap in Hx.
        destruct (var !! i) as [phi|] eqn:Hphi; [|done].
        injection Hx as <-.
        destruct (wf_rows mesh Hwf i Hc)
          as (ids & dAP & _ & _ & Hids & HdAP & _).
        assert (Hno : ¬ ∃ s j pa, ids !! s = Some j ∧ var !! j = Some pa
                                  ∧ opposite phi pa).
        { intros (s & j & pa & _ & Hpa & Hopp).
          eapply (Hnopp phi pa); [| |done];
            by eapply list_elem_of_lookup_2. }
        destruct (interfaceCell_spec mesh Hwf HM var i ids dAP phi Hvar Hids
                    HdAP Hphi) as [H0 _].
        by apply H0. }
    rewrite Hcells, bind_Ok_l. f_equal. f_equal.
    - rewrite <- list_fmap_compose. apply list_fmap_id.
    - rewrite <- list_fmap_compose. unfold zeros. rewrite <- Hvar.
      by apply const_fmap. }
  assert (H2 : _calcInitialTrialValues sqrt mesh var zeros = Ok (var, zeros)).
  { unfold _calcInitialTrialValues.
    assert (Hflags : for_each (initialFlag mesh zeros)
                       (seq 0 (getNumberOfCells mesh)) = Ok zeros).
    { apply for_each_Ok. apply Forall2_same_length_lookup_2.
      - unfold zeros. by rewrite length_seq, length_replicate.
      - intros i c f Hc Hf. apply lookup_seq in Hc as [-> Hc]. simpl in *.
        unfold zeros in Hf. apply lookup_replicate in Hf as [-> _].
        destruct (wf_rows mesh Hwf i Hc)
          as (ids & _ & _ & _ & Hids & _ & _ & _ & _ & _ & _ & _ & Rids).
        destruct (Numeric_take_total zeros ids) as [adj Hadj].
        { unfold zeros. by rewrite length_replicate. }
        unfold initialFlag. apply getitem_Ok in Hids.
        rewrite Hids, bind_Ok_l, Hadj, bind_Ok_l.
        assert (Hz : getitem zeros i = Ok 0%nat).
        { apply getitem_Ok. by apply lookup_replicate. }
        rewrite Hz, bind_Ok_l.
        rewrite decide_True; [done|].
        apply Numeric_sum_zero. intros x Hx.
        apply list_elem_of_lookup_1 in Hx as [k Hk].
        apply Numeric_take_Ok in Hadj.
        destruct (Forall2_lookup_r _ _ _ _ _ Hadj Hk) as (j & _ & Hj).
        by apply lookup_replicate in Hj as [-> _]. }
    rewrite Hflags, bind_Ok_l. unfold zeros.
    rewrite nonzero_eq2_replicate_0. done. }
  unfold solve. rewrite H1, H2. unfold _calcRemainingValues, zeros.
  rewrite nonzero_eq2_replicate_0. destruct fuel; done.
Qed.

(** * The Marching Propagator *)

Lemma list_remove_Ok (x : nat) (l l' : list nat) :
  list_remove x l = Ok l' → l ≡ₚ x :: l'.
Proof.
  revert l'. induction l as [|y l IH]; intros l'; simpl; [done|].
  case_decide as E.
  - intros [= <-]. by subst.
  - intros H. apply bind_Ok in H as (l'' & Hl'' & [= <-]).
    rewrite (IH _ Hl''). apply Permutation_swap.
Qed.

Lemma list_remove_total (x : nat) (l : list nat) :
  x ∈ l → ∃ l', list_remove x l = Ok l'.
Proof.
  induction l as [|y l IH]; intros Hx; [by apply elem_of_nil in Hx|].
  simpl. case_decide as E; [eauto|].
  apply elem_of_cons in Hx as [->|Hx]; [done|].
  destruct (IH Hx) as [l' ->]. simpl. eauto.
Qed.

Lemma filter_insert_length {A} (P : A → Prop) `{∀ x, Decision (P x)}
    (l : list A) (i : nat) (x y : A) :
  l !! i = Some y →
  (length (filter P (<[i:=x]> l)) + (if decide (P y) then 1 else 0)
   = length (filter P l) + (if decide (P x) then 1 else 0))%nat.
Proof.
  revert i. induction l as [|z l IH]; intros i Hi; [done|].
  destruct i as [|i]; simpl in *.
  - injection Hi as ->. rewrite !filter_cons.
    destruct (decide (P x)), (decide (P y)); simpl; lia.
  - specialize (IH i Hi). rewrite !filter_cons.
    destruct (decide (P z)); simpl; lia.
Qed.

Section March.

Variable sqrt : Q → Q.
Variable mesh : Mesh.

Lemma relax_invariant_in (I : march_state → Prop) (ids : list nat) :
  (∀ st adj f v,
     adj ∈ ids →
     I st → st.1.2 !! adj = Some f → f ≠ 1%nat →
     _calcTrialValue sqrt mesh st.1.1 adj st.1.2 = Ok (Num v) →
     (adj < length st.1.1)%nat →
     I (relaxed st adj f v)) →
  ∀ st st', I st → relax sqrt mesh ids st = Ok st' → I st'.
Proof.
  induction ids as [|adj ids IH]; intros Hstep st st' HI H.
  - simpl in H. by injection H as <-.
  - assert (Hstep' : ∀ st adj' f v, adj' ∈ ids → I st →
              st.1.2 !! adj' = Some f → f ≠ 1%nat →
              _calcTrialValue sqrt mesh st.1.1 adj' st.1.2 = Ok (Num v) →
              (adj' < length st.1.1)%nat → I (relaxed st adj' f v)).
    { intros s a f v Ha. apply Hstep. by apply list_elem_of_further. }
    specialize (IH Hstep').
    destruct st as [[var flags] trial]. simpl in H.
    apply bind_Ok in H as (f & Hf%getitem_Ok & H).
    case_decide as Hne; [|by eapply IH].
    apply bind_Ok in H as (v & Hv & H).
    apply bind_Ok in Hv as (r & Hv & -> %number_Ok).
    apply bind_Ok in H as (var' & [Hlt ->]%setitem_Ok & H).
    specialize (Hstep (var, flags, trial) adj f v (list_elem_of_here _ _)
                  HI Hf Hne Hv Hlt).
    unfold relaxed in Hstep. simpl in Hstep.
    case_decide as Hf0.
    + apply bind_Ok in H as (flags' & [_ ->]%setitem_Ok & H).
      exact (IH _ _ Hstep H).
    + exact (IH _ _ Hstep H).
Qed.

Lemma relax_invariant (I : march_state → Prop) :
  (∀ st adj f v,
     I st → st.1.2 !! adj = Some f → f ≠ 1%nat →
     _calcTrialValue sqrt mesh st.1.1 adj st.1.2 = Ok (Num v) →
     (adj < length st.1.1)%nat →
     I (relaxed st adj f v)) →
  ∀ ids st st', I st → relax sqrt mesh ids st = Ok st' → I st'.
Proof.
  intros Hstep ids. apply relax_invariant_in. intros st adj f v _.
  apply Hstep.
Qed.

Lemma setTrialValues_invariant (flags : list nat) (I : list Q → Prop)
    (trial : list nat) :
  (∀ var c v,
     c ∈ trial → I var →
     _calcTrialValue sqrt mesh var c flags = Ok (Num v) →
     (c < length var)%nat → I (<[c:=v]> var)) →
  ∀ var var', I var → setTrialValues sqrt mesh trial var flags = Ok var' →
  I var'.
Proof.
  induction trial as [|c trial IH]; intros Hstep var var' HI H.
  - simpl in H. by injection H as <-.
  - simpl in H. apply bind_Ok in H as (v & Hv & H).
    apply bind_Ok in Hv as (r & Hv & -> %number_Ok).
    apply bind_Ok in H as (var1 & [Hlt ->]%setitem_Ok & H).
    eapply IH; [|shelve|exact H].
    + intros w c' v' Hc'. apply Hstep. by apply list_elem_of_further.
    Unshelve. eapply Hstep; [apply list_elem_of_here|done..].
Qed.

(** The steps of one iteration of the marching loop. *)
Lemma march_step_Ok (var : list Q) (flags trial : list nat)
    (st' : march_state) :
  march_step sqrt mesh (var, flags, trial) = Ok st' ↔
  ∃ cellID trial1 ids,
    selectCell var trial = Ok cellID
    ∧ (cellID < length flags)%nat
    ∧ list_remove cellID trial = Ok trial1
    ∧ getCellToCellIDsFilled mesh !! cellID = Some ids
    ∧ relax sqrt mesh ids (var, <[cellID:=1%nat]> flags, trial1) = Ok st'.
Proof.
  unfold march_step. split.
  - intros H. apply bind_Ok in H as (cellID & Hsel & H).
    apply bind_Ok in H as (flags1 & [Hlt ->]%setitem_Ok & H).
    apply bind_Ok in H as (trial1 & Hrem & H).
    apply bind_Ok in H as (ids & Hids%getitem_Ok & H).
    exists cellID, trial1, ids. done.
  - intros (cellID & trial1 & ids & Hsel & Hlt & Hrem & Hids & H).
    rewrite Hsel, bind_Ok_l.
    assert (E : setitem flags cellID 1%nat = Ok (<[cellID:=1%nat]> flags))
      by (by apply setitem_Ok).
    rewrite E, bind_Ok_l, Hrem, bind_Ok_l.
    apply getitem_Ok in Hids. by rewrite Hids, bind_Ok_l.
Qed.

(** The cell that is selected: the first of the trial list among those of
    least magnitude. *)
Lemma selectCell_Ok (var : list Q) (trial : list nat) (cellID : nat) :
  selectCell var trial = Ok cellID →
  ∃ r x,
    trial !! r = Some cellID ∧ var !! cellID = Some x
    ∧ (∀ k c y, trial !! k = Some c → var !! c = Some y →
         Qabs x <= Qabs y ∧ ((k < r)%nat → Qabs x < Qabs y)).
Proof.
  unfold selectCell. intros H.
  apply bind_Ok in H as (values & Hvalues & H).
  apply bind_Ok in H as (r & Hr & Hc%getitem_Ok).
  pose proof (argmin_spec _ _ _ Qltb_strict_weak Hr)
    as (xr & Hxr & Hmin & Hfirst).
  rewrite list_lookup_fmap in Hxr.
  destruct (values !! r) as [x|] eqn:Hx; [|done]. injection Hxr as <-.
  rewrite (Numeric_take_lookup _ _ _ _ _ Hvalues Hc) in Hx.
  exists r, x. repeat split; try done.
  - specialize (Hmin k (Qabs y)). rewrite list_lookup_fmap in Hmin.
    rewrite (Numeric_take_lookup _ _ _ _ _ Hvalues H), H0 in Hmin.
    apply Qltb_ge. by apply Hmin.
  - intros Hk. specialize (Hfirst k (Qabs y) Hk).
    rewrite list_lookup_fmap in Hfirst.
    rewrite (Numeric_take_lookup _ _ _ _ _ Hvalues H), H0 in Hfirst.
    apply Qltb_lt. by apply Hfirst.
Qed.

Lemma selectCell_total (var : list Q) (trial : list nat) :
  trial ≠ [] → Forall (λ c, (c < length var)%nat) trial →
  ∃ cellID, selectCell var trial = Ok cellID.
Proof.
  intros Hne Hrange.
  destruct (Numeric_take_total var trial Hrange) as [values Hvalues].
  pose proof (Numeric_take_length _ _ _ Hvalues) as Lvalues.
  destruct (argmin_total Qltb (map Qabs values)) as [r Hr].
  { rewrite length_map, Lvalues. destruct trial; [done | simpl; lia]. }
  pose proof (is_argmin_lt _ _ _ (argmin_spec _ _ _ Qltb_strict_weak Hr))
    as Hlt.
  rewrite length_map, Lvalues in Hlt.
  destruct (getitem_lt trial r Hlt) as (c & Hc & _).
  exists c. unfold selectCell, Numeric_argmin.
  by rewrite Hvalues, bind_Ok_l, Hr, bind_Ok_l.
Qed.

(** One pass over the neighbours keeps the trial list in step with the
    flags, keeps the lengths of the arrays and the number of cells that
    are not Known. *)
Lemma relax_trial_inv (ids : list nat) (st st' : march_state) :
  trial_inv st → relax sqrt mesh ids st = Ok st' →
  trial_inv st'
  ∧ length st'.1.1 = length st.1.1
  ∧ length st'.1.2 = length st.1.2
  ∧ notKnownCount st'.1.2 = notKnownCount st.1.2.
Proof.
  intros Hinv H.
  apply (relax_invariant
    (λ s, trial_inv s ∧ length s.1.1 = length st.1.1
          ∧ length s.1.2 = length st.1.2
          ∧ notKnownCount s.1.2 = notKnownCount st.1.2)) in H; [done| |done].
  clear. intros [[var flags] trial] adj f v (Hinv & L1 & L2 & Hn) Hf Hne _ _.
  unfold relaxed. simpl in *. rewrite length_insert.
  case_decide as Hf0; [|done]. subst f.
  rewrite length_insert. repeat split; try done.
  - destruct Hinv as [Hnd Hiff]. simpl in *.
    apply NoDup_app. repeat split; [done| |apply NoDup_singleton].
    intros c Hc Hc'%list_elem_of_singleton. subst c.
    apply Hiff in Hc. congruence.
  - destruct Hinv as [_ Hiff]. simpl in *.
    rewrite elem_of_app, list_elem_of_singleton, Hiff.
    destruct (decide (c = adj)) as [->|Hc].
    + intros _. apply list_lookup_insert_eq. by eapply lookup_lt_Some.
    + intros [H|H]; [|done]. by rewrite list_lookup_insert_ne.
  - destruct Hinv as [_ Hiff]. simpl in *.
    rewrite elem_of_app, list_elem_of_singleton, Hiff.
    destruct (decide (c = adj)) as [->|Hc]; [by right|].
    rewrite list_lookup_insert_ne by done. by left.
  - unfold notKnownCount in *. rewrite <- Hn.
    pose proof (filter_insert_length (λ f, f ≠ 1%nat) flags adj 2%nat 0%nat Hf)
      as E.
    rewrite !decide_True in E by lia. lia.
Qed.

(** One iteration finalizes one Trial cell: the cell leaves the trial
    list for good, and one cell fewer is not Known. *)
Lemma march_step_trial_inv (st st' : march_state) :
  trial_inv st → march_step sqrt mesh st = Ok st' →
  trial_inv st'
  ∧ length st'.1.1 = length st.1.1
  ∧ length st'.1.2 = length st.1.2
  ∧ S (notKnownCount st'.1.2) = notKnownCount st.1.2
  ∧ ∃ cellID,
      selectCell st.1.1 st.2 = Ok cellID
      ∧ cellID ∈ st.2 ∧ (cellID ∉ st'.2)
      ∧ st'.1.2 !! cellID = Some 1%nat
      ∧ (∀ c, c ∈ st.2 → c ≠ cellID → c ∈ st'.2)
      ∧ ∀ c, c ∈ st'.2 → c ∈ st.2 ∨ st.1.2 !! c = Some 0%nat.
Proof.
  destruct st as [[var flags] trial]. intros [Hnd Hiff] H. simpl in *.
  apply march_step_Ok
    in H as (cellID & trial1 & ids & Hsel & Hlt & Hrem & Hids & H).
  destruct (selectCell_Ok _ _ _ Hsel) as (r & x & Hr & _).
  assert (Hin : cellID ∈ trial) by (by eapply list_elem_of_lookup_2).
  assert (Hf : flags !! cellID = Some 2%nat) by (by apply Hiff).
  pose proof (list_remove_Ok _ _ _ Hrem) as Hperm.
  assert (Hinv1 : trial_inv (var, <[cellID:=1%nat]> flags, trial1)).
  { rewrite Hperm in Hnd. apply NoDup_cons in Hnd as [Hnotin Hnd1].
    split; [done|]. simpl. intros c.
    destruct (decide (c = cellID)) as [->|Hc].
    - rewrite list_lookup_insert_eq by done. split; [done | discriminate].
    - rewrite list_lookup_insert_ne by done. rewrite <- Hiff, Hperm.
      rewrite elem_of_cons. split; [by right | intros [?|?]; done]. }
  destruct (relax_trial_inv _ _ _ Hinv1 H) as (Hinv' & L1 & L2 & Hn).
  simpl in *. rewrite length_insert in L2.
  split; [done|]. split; [done|]. split; [done|]. split.
  - rewrite Hn. unfold notKnownCount.
    pose proof (filter_insert_length (λ f, f ≠ 1%nat) flags cellID 1%nat 2%nat
                  Hf) as E.
    rewrite decide_True, decide_False in E by lia. lia.
  - exists cellID. split; [done|]. split; [done|].
    (* a Known cell stays Known while its neighbours are relaxed *)
    assert (Hknown : st'.1.2 !! cellID = Some 1%nat).
    { apply (relax_invariant (λ s, s.1.2 !! cellID = Some 1%nat)) in H;
        [done| |by apply list_lookup_insert_eq].
      clear. intros [[v fl] tr] adj f w Hc Hf Hne _ _. unfold relaxed.
      simpl in *. case_decide; [|done].
      rewrite list_lookup_insert_ne; [done|]. intros ->. congruence. }
    split; [|split; [done|split]].
    + intros Hc. apply Hinv' in Hc. congruence.
    + (* the other cells of the list stay in it *)
      intros c Hc Hne.
      refine (relax_invariant (λ s, c ∈ s.2) _ ids _ st' _ H).
      * clear. intros [[v fl] tr] adj f w Hc _ _ _ _.
        unfold relaxed. simpl in *. case_decide; [|done].
        apply elem_of_app. by left.
      * simpl. rewrite Hperm in Hc.
        apply elem_of_cons in Hc as [?|?]; done.
    + (* a cell enters the list only from the flag 0 *)
      refine (proj1 (relax_invariant
        (λ s, (∀ c, c ∈ s.2 → c ∈ trial ∨ flags !! c = Some 0%nat)
              ∧ (∀ c, s.1.2 !! c = Some 0%nat → flags !! c = Some 0%nat))
        _ ids _ st' _ H)).
      * clear. intros [[v fl] tr] adj f w [Hc H0] Hf Hne _ _.
        unfold relaxed. simpl in *. case_decide; [|done]. subst f. split.
        -- intros c [Hin|Heq]%elem_of_app; [eauto|].
           apply list_elem_of_singleton in Heq. subst c. right. by apply H0.
        -- intros c Hc0. apply H0.
           destruct (decide (c = adj)) as [->|Hne'].
           ++ rewrite list_lookup_insert_eq in Hc0; [done|].
              by eapply lookup_lt_Some.
           ++ by rewrite list_lookup_insert_ne in Hc0.
      * simpl. split.
        -- intros c Hc. left. rewrite Hperm. by apply elem_of_cons; right.
        -- intros c Hc0. destruct (decide (c = cellID)) as [->|Hne'].
           ++ rewrite list_lookup_insert_eq in Hc0; done.
           ++ by rewrite list_lookup_insert_ne in Hc0.
Qed.

End March.

Section MarchRuns.

Variable sqrt : Q → Q.
Variable mesh : Mesh.

Lemma trial_inv_initial (var : list Q) (flags : list nat) :
  trial_inv (var, flags, nonzero_eq2 flags).
Proof.
  split; simpl; [apply nonzero_eq2_NoDup | apply nonzero_eq2_elem].
Qed.

Lemma march_steps_trial_inv (st st' : march_state) :
  trial_inv st → march_steps sqrt mesh st st' →
  trial_inv st'
  ∧ length st'.1.1 = length st.1.1
  ∧ length st'.1.2 = length st.1.2
  ∧ (notKnownCount st'.1.2 <= notKnownCount st.1.2)%nat.
Proof.
  intros Hinv Hsteps. induction Hsteps as [st|st st1 st' Hstep _ IH].
  - done.
  - destruct (march_step_trial_inv sqrt mesh _ _ Hinv Hstep)
      as (Hinv1 & L1 & L2 & Hn & _).
    destruct (IH Hinv1) as (Hinv' & L1' & L2' & Hn').
    repeat split; try apply Hinv'; try congruence. lia.
Qed.

Lemma march_nil (fuel : nat) (var : list Q) (flags : list nat) :
  march sqrt mesh fuel (var, flags, []) = Some (Ok (var, flags, [])).
Proof. destruct fuel; reflexivity. Qed.

Lemma march_cons (fuel : nat) (var : list Q) (flags : list nat) (c : nat)
    (trial : list nat) :
  march sqrt mesh (S fuel) (var, flags, c :: trial)
  = match march_step sqrt mesh (var, flags, c :: trial) with
    | Ok st' => march sqrt mesh fuel st'
    | Raise e => Some (Raise e)
    end.
Proof. reflexivity. Qed.


(** A run of the loop that ends normally is a sequence of iterations that
    ends with an empty trial list. *)
Lemma march_Ok_steps (fuel : nat) (st st' : march_state) :
  march sqrt mesh fuel st = Some (Ok st') →
  march_steps sqrt mesh st st' ∧ st'.2 = [].
Proof.
  revert st. induction fuel as [|fuel IH]; intros st H.
  - destruct st as [[var flags] [|c trial]]; [|done].
    rewrite march_nil in H. injection H as <-. split; [apply rtc_refl | done].
  - destruct st as [[var flags] [|c trial]].
    + rewrite march_nil in H. injection H as <-.
      split; [apply rtc_refl | done].
    + rewrite march_cons in H.
      destruct (march_step sqrt mesh (var, flags, c :: trial)) as [st1|e]
        eqn:E; [|done].
      destruct (IH _ H) as [Hsteps Hnil].
      split; [|done]. by eapply rtc_l.
Qed.

(** A cell whose status is Known keeps its status and its value. *)
Lemma relax_known (ids : list nat) (st st' : march_state) (c : nat) :
  relax sqrt mesh ids st = Ok st' → st.1.2 !! c = Some 1%nat →
  st'.1.2 !! c = Some 1%nat ∧ st'.1.1 !! c = st.1.1 !! c.
Proof.
  intros H Hc.
  refine (relax_invariant sqrt mesh
    (λ s, s.1.2 !! c = Some 1%nat ∧ s.1.1 !! c = st.1.1 !! c)
    _ ids st st' _ H); [|done].
  clear. intros [[v fl] tr] adj f w [Hc Hv] Hf Hne _ _.
  unfold relaxed. simpl in *.
  assert (adj ≠ c) by (intros ->; congruence).
  rewrite list_lookup_insert_ne by done. split; [|done].
  case_decide; [|done]. by rewrite list_lookup_insert_ne.
Qed.

Lemma march_step_known (st st' : march_state) (c : nat) :
  march_step sqrt mesh st = Ok st' → st.1.2 !! c = Some 1%nat →
  st'.1.2 !! c = Some 1%nat ∧ st'.1.1 !! c = st.1.1 !! c.
Proof.
  destruct st as [[var flags] trial]. intros H Hc. simpl in *.
  apply march_step_Ok
    in H as (cellID & trial1 & ids & _ & Hlt & _ & _ & H).
  apply (relax_known _ _ _ c) in H; [done|]. simpl.
  destruct (decide (c = cellID)) as [->|Hne].
  - by apply list_lookup_insert_eq.
  - by rewrite list_lookup_insert_ne.
Qed.

Lemma march_steps_known (st st' : march_state) (c : nat) :
  march_steps sqrt mesh st st' → st.1.2 !! c = Some 1%nat →
  st'.1.2 !! c = Some 1%nat ∧ st'.1.1 !! c = st.1.1 !! c.
Proof.
  intros Hsteps. induction Hsteps as [st|st st1 st' Hstep _ IH]; [done|].
  intros Hc. destruct (march_step_known _ _ c Hstep Hc) as [Hc1 Hv1].
  destruct (IH Hc1) as [Hc' Hv']. split; [done | congruence].
Qed.

Lemma initialFlag_known (flags flags' : list nat) (c : nat) :
  for_each (initialFlag mesh flags) (seq 0 (getNumberOfCells mesh))
  = Ok flags' →
  flags !! c = Some 1%nat → (c < getNumberOfCells mesh)%nat →
  flags' !! c = Some 1%nat.
Proof.
  intros H Hc Hlt.
  destruct (for_each_seq_lookup _ _ _ c H Hlt) as (f & Hf & E).
  unfold initialFlag in E.
  apply bind_Ok in E as (ids & _ & E). apply bind_Ok in E as (adj & _ & E).
  apply bind_Ok in E as (f0 & Hf0%getitem_Ok & E).
  rewrite Hc in Hf0. injection Hf0 as <-. injection E as <-.
  rewrite Hf. by repeat case_decide.
Qed.

End MarchRuns.

Section Unreachable.

Variable sqrt : Q → Q.
Variable mesh : Mesh.

(** [U] is a set of cells that no cell outside of it has for a neighbour. *)
Variable U : nat → Prop.
Hypothesis U_closed : ∀ c ids j,
  getCellToCellIDsFilled mesh !! c = Some ids → j ∈ ids → U j → U c.

Variable var0 : list Q.



End Unreachable.

(** * The claims about the Marching Propagator *)


(** C8: a cell that is Known keeps its status and its value: the Trial
    Band Initializer, every pass of the loop over the neighbours, every
    iteration of the Marching Propagator and the whole of
    [_calcRemainingValues] leave the flag 1 and the value of such a cell
    as they are. *)
Theorem known_cells_are_final (sqrt : Q → Q) (mesh : Mesh) :
  (∀ var flags var' flags' c,
     length flags = getNumberOfCells mesh →
     _calcInitialTrialValues sqrt mesh var flags = Ok (var', flags') →
     flags !! c = Some 1%nat →
     flags' !! c = Some 1%nat ∧ var' !! c = var !! c)
  ∧ (∀ ids st st' c,
       relax sqrt mesh ids st = Ok st' → st.1.2 !! c = Some 1%nat →
       st'.1.2 !! c = Some 1%nat ∧ st'.1.1 !! c = st.1.1 !! c)
  ∧ (∀ st st' c,
       march_steps sqrt mesh st st' → st.1.2 !! c = Some 1%nat →
       st'.1.2 !! c = Some 1%nat ∧ st'.1.1 !! c = st.1.1 !! c)
  ∧ (∀ fuel var flags var' flags' c,
       _calcRemainingValues sqrt mesh fuel var flags = Some (Ok (var', flags')) →
       flags !! c = Some 1%nat →
       flags' !! c = Some 1%nat ∧ var' !! c = var !! c).
Proof.
  split; [|split; [|split]].
  - intros var flags var' flags' c Hlen H Hc.
    unfold _calcInitialTrialValues in H.
    apply bind_Ok in H as (fl & Hfl & H).
    apply bind_Ok in H as (v & Hv & [= <- <-]).
    assert (Hc' : fl !! c = Some 1%nat).
    { eapply initialFlag_known; [exact Hfl|exact Hc|].
      rewrite <- Hlen. by eapply lookup_lt_Some. }
    split; [done|].
    refine (setTrialValues_invariant sqrt mesh fl
              (λ w, w !! c = var !! c) (nonzero_eq2 fl) _ var v _ Hv);
      [|done].
    intros w c' v' Hin Hw _ _.
    apply nonzero_eq2_elem in Hin.
    rewrite list_lookup_insert_ne; [done|]. intros ->. congruence.
  - intros ids st st' c. apply relax_known.
  - intros st st' c. apply march_steps_known.
  - intros fuel var flags var' flags' c H Hc.
    unfold _calcRemainingValues in H.
    destruct (march sqrt mesh fuel (var, flags, nonzero_eq2 flags))
      as [[st'|e]|] eqn:E; [|done..].
    injection H as H.
    destruct (march_Ok_steps sqrt mesh _ _ _ E) as [Hsteps _].
    destruct (march_steps_known sqrt mesh _ _ c Hsteps Hc) as [H1 H2].
    rewrite H in H1, H2. done.
Qed.

(** C2, as the code has it: at every iteration of the marching loop the
    cell selected is a Trial cell whose magnitude is the least among the
    Trial cells; among the Trial cells of least magnitude it is the one
    that comes first in the list [trialCellIDs], which holds the cells
    in the order in which they became Trial. *)
Theorem selectCell_least_magnitude (sqrt : Q → Q) (mesh : Mesh)
    (var0 : list Q) (flags0 : list nat) (var : list Q)
    (flags trial : list nat) (cellID : nat) :
  march_steps sqrt mesh (var0, flags0, nonzero_eq2 flags0)
    (var, flags, trial) →
  selectCell var trial = Ok cellID →
  ∃ r x,
    trial !! r = Some cellID
    ∧ flags !! cellID = Some 2%nat
    ∧ var !! cellID = Some x
    ∧ (∀ c y, flags !! c = Some 2%nat → var !! c = Some y →
              Qabs x <= Qabs y)
    ∧ (∀ k c y, (k < r)%nat → trial !! k = Some c → var !! c = Some y →
                Qabs x < Qabs y).
Proof.
  intros Hsteps Hsel.
  destruct (march_steps_trial_inv sqrt mesh _ _
              (trial_inv_initial var0 flags0) Hsteps) as ([_ Hiff] & _).
  simpl in Hiff.
  destruct (selectCell_Ok _ _ _ Hsel) as (r & x & Hr & Hx & Hmin).
  exists r, x. split; [done|]. split; [|split; [done|split]].
  - apply Hiff. by eapply list_elem_of_lookup_2.
  - intros c y Hc Hy. apply Hiff in Hc.
    apply list_elem_of_lookup_1 in Hc as [k Hk].
    by destruct (Hmin k c y Hk Hy).
  - intros k c y Hk Hc Hy. by destruct (Hmin k c y Hc Hy) as [_ H]; apply H.
Qed.

(** * The claims on concrete meshes *)

Lemma Qsqrt_nonneg (x : Q) : 0 <= Qsqrt x.
Proof.
  unfold Qsqrt, Qle. simpl.
  pose proof (Z.sqrt_nonneg (Qnum (Qred x))). lia.
Qed.

(** The shape of a mesh given in full. *)
Ltac solve_wf :=
  split; vm_compute; repeat first [reflexivity | constructor | lia].

Ltac solve_positive :=
  unfold positive_distances; vm_compute;
  repeat first [reflexivity | constructor].

Lemma grid_normals_obtuse (row : list (Q * Q)) :
  row = [ (0, -1); (1, 0); (0, 1); (-1, 0) ] →
  ∀ s1 s2 n1 n2, s1 ≠ s2 → row !! s1 = Some n1 → row !! s2 = Some n2 →
                 Numeric_dot n1 n2 <= 0.
Proof.
  intros -> s1 s2 n1 n2 Hne H1 H2.
  destruct s1 as [|[|[|[|s1]]]]; try done;
    destruct s2 as [|[|[|[|s2]]]]; try done;
    simpl in H1, H2; injection H1 as <-; injection H2 as <-;
    vm_compute; discriminate.
Qed.

Lemma Grid2D_2_1_wf : wf_mesh (Grid2D 1 1 2 1).
Proof. solve_wf. Qed.

Lemma Grid2D_2_2_wf : wf_mesh (Grid2D 1 1 2 2).
Proof. solve_wf. Qed.

Lemma Grid2D_3_1_wf : wf_mesh (Grid2D 1 1 3 1).
Proof. solve_wf. Qed.

(** C1, failing input: the field (-1, 1, 0, 0, 5) on a row of five unit
    cells has a positive and a negative value; [solve] returns the value
    -1/2 for the last cell, whose initial value 5 is positive.  The cells
    of value 0 are no interface for the classifier, whose flag wants a
    product below 0, and are marched as negative cells, the calculator
    taking the negative branch for every value that is not above 0. *)
Lemma solve_flips_sign_behind_zero :
  solve Qsqrt (Grid2D 1 1 5 1) 6 [-1; 1; 0; 0; 5]
  = Some (Ok ([-1 # 2; 1 # 2; -1 # 2; -3 # 2; -1 # 2],
              [1; 1; 1; 1; 1]%nat))
  ∧ ¬ sameSign 5 (-1 # 2).
Proof.
  split; [vm_compute; reflexivity|].
  intros [[H _] _]. assert (H0 : 0 < -1 # 2) by (by apply H).
  vm_compute in H0. discriminate.
Qed.

(** C1, a field without a zero: on three rows of heights 200, 1 and 1 of
    three cells of width 1/10, with the field (1, 1, -1, 1, 1, 99, -1, 1, 1),
    the classifier leaves the last cell with the Known neighbours 5 and 7,
    of values 19899/200 and 1/20; the argument of the square root is
    negative, the trial value of the cell is the not-a-number, and the run
    cannot be followed beyond the store of it. *)
Example solve_nan_without_zero :
  let mesh := Rows2D (1 # 10) [200; 1; 1] 3 in
  let var := [1; 1 # 20; -1 # 20; 2 # 4; 1; 19899 # 200; -1 # 20; 1 # 20; 1] in
  _calcInterfaceValues mesh [1; 1; -1; 1; 1; 99; -1; 1; 1]
  = Ok (var, [0; 1; 1; 1; 0; 1; 1; 1; 0]%nat)
  ∧ _calcTrialValue Qsqrt mesh var 8 [2; 1; 1; 1; 2; 1; 1; 1; 2]%nat = Ok NaN
  ∧ solve Qsqrt mesh 10 [1; 1; -1; 1; 1; 99; -1; 1; 1]
    = Some (Raise NotANumber).
Proof. vm_compute. repeat split; reflexivity. Qed.

(** C2, counterexample: on a row of six cells of widths 1, 1, 1, 1, 3, 1
    with the field (-1, -1, -1, 1, 1, 1), after one iteration of the
    marching loop the Trial cells are 4 and 0, in this order in the list,
    both of magnitude 5/2; the loop selects the cell 4 and not the cell 0,
    which has the lower index. *)
Lemma selectCell_tie_not_lowest_index :
  let mesh := Row2D [1; 1; 1; 1; 3; 1] 1 in
  let var := [-40 # 16; -12 # 8; -2 # 4; 2 # 4; 20 # 8; 1] in
  let flags := [2; 1; 1; 1; 2; 0]%nat in
  _calcInterfaceValues mesh [-1; -1; -1; 1; 1; 1]
  = Ok ([-1; -1; -2 # 4; 2 # 4; 1; 1], [0; 0; 1; 1; 0; 0]%nat)
  ∧ _calcInitialTrialValues Qsqrt mesh [-1; -1; -2 # 4; 2 # 4; 1; 1]
      [0; 0; 1; 1; 0; 0]%nat
    = Ok ([-1; -12 # 8; -2 # 4; 2 # 4; 20 # 8; 1], [0; 2; 1; 1; 2; 0]%nat)
  ∧ march_step Qsqrt mesh
      ([-1; -12 # 8; -2 # 4; 2 # 4; 20 # 8; 1], [0; 2; 1; 1; 2; 0]%nat,
       nonzero_eq2 [0; 2; 1; 1; 2; 0]%nat)
    = Ok (var, flags, [4; 0]%nat)
  ∧ selectCell var [4; 0]%nat = Ok 4%nat
  ∧ flags !! 0%nat = Some 2%nat
  ∧ flags !! 4%nat = Some 2%nat
  ∧ Qabs (-40 # 16) == Qabs (20 # 8).
Proof. vm_compute. repeat split; reflexivity. Qed.

Lemma selectCell_least_magnitude_witness :
  let var := [-1 # 2; 1 # 2; 3 # 2; 1] in
  let flags := [1; 1; 2; 0]%nat in
  ∃ r x,
    nonzero_eq2 flags !! r = Some 2%nat
    ∧ flags !! 2%nat = Some 2%nat
    ∧ var !! 2%nat = Some x
    ∧ (∀ c y, flags !! c = Some 2%nat → var !! c = Some y →
              Qabs x <= Qabs y)
    ∧ (∀ k c y, (k < r)%nat → nonzero_eq2 flags !! k = Some c →
                var !! c = Some y → Qabs x < Qabs y).
Proof.
  apply (selectCell_least_magnitude Qsqrt (Grid2D 1 1 1 4)
           [-1 # 2; 1 # 2; 3 # 2; 1] [1; 1; 2; 0]%nat).
  - apply rtc_refl.
  - vm_compute. reflexivity.
Defined.

(** The Known neighbours of a cell of a mesh given in full are below the
    fill value. *)
Ltac solve_below_fill :=
  let ids := fresh "ids" in
  let s := fresh "s" in
  let j := fresh "j" in
  let x := fresh "x" in
  let Hids := fresh "Hids" in
  let Hj := fresh "Hj" in
  let Hx := fresh "Hx" in
  intros ids s j x Hids Hj _ Hx; vm_compute in Hids; injection Hids as <-;
  repeat (destruct s as [|s];
          [injection Hj as <-; injection Hx as <-; vm_compute; reflexivity|]);
  simpl in Hj; discriminate.




(** C4, counterexample: on the all-positive field (1, 1, 1) [solve]
    returns normally, with no error, the field unchanged and every cell
    Unknown. *)
Lemma solve_without_sign_change_returns :
  solve Qsqrt (Grid2D 1 1 3 1) 4 [1; 1; 1]
  = Some (Ok ([1; 1; 1], [0; 0; 0]%nat)).
Proof. vm_compute. reflexivity. Qed.

Lemma solve_no_sign_change_witness :
  solve Qsqrt (Grid2D 1 1 2 2) 5 [-1; -2; -3; -4]
  = Some (Ok ([-1; -2; -3; -4], replicate 4 0%nat)).
Proof.
  apply (solve_no_sign_change Qsqrt (Grid2D 1 1 2 2) 5 [-1; -2; -3; -4]).
  - apply Grid2D_2_2_wf.
  - simpl. lia.
  - reflexivity.
  - right. intros x Hx.
    repeat (apply elem_of_cons in Hx as [->|Hx]; [vm_compute; discriminate|]).
    by apply elem_of_nil in Hx.
Defined.

Lemma calcTrialValue_no_known_raises_witness :
  _calcTrialValue Qsqrt (Grid2D 1 1 3 1) [1; 1; 1] 1 [0; 0; 0]%nat
  = Raise Error.
Proof.
  apply (calcTrialValue_no_known_raises Qsqrt (Grid2D 1 1 3 1) [1; 1; 1]
           [0; 0; 0]%nat 1 [1; 2; 1; 0]%nat).
  - apply Grid2D_3_1_wf.
  - reflexivity.
  - reflexivity.
  - reflexivity.
  - vm_compute. reflexivity.
Defined.

(** C6, counterexample: the cell 3 of a grid of two by two unit cells has
    the Known neighbours 1 and 2, of values 1 and 10; the argument of the
    square root is 1 * (2 - 81) = -79, and [_calcTrialValue] returns the
    not-a-number, with no error. *)
Lemma negative_discriminant_returns_nan :
  let phi1 := 1 in
  let phi2 := 10 in
  let n1 := (0, -1) in
  let n2 := (-1, 0) in
  let d1 := 1 in
  let d2 := 1 in
  let dot := d1 * d2 * (n1.1 * n2.1 + n1.2 * n2.2) in
  let cross := d1 * d2 * (n1.1 * n2.2 - n1.2 * n2.1) in
  let dsq := d1 ^ 2 + d2 ^ 2 - 2 * dot in
  cross ^ 2 * (dsq - (phi1 - phi2) ^ 2) < 0
  ∧ _calcTrialValue Qsqrt (Grid2D 1 1 2 2) [5; 1; 10; 1] 3 [0; 1; 1; 0]%nat
    = Ok NaN.
Proof. vm_compute. split; reflexivity. Qed.

Lemma calcQuadratic_negative_argument_nan_witness :
  _calcQuadratic Qsqrt 1 10 (0, -1) (-1, 0) 1 1 1 1 3 1 2 = (NaN, NaN)
  ∧ ∃ s1 s2 j1 j2 phi1 phi2 n1 n2 d1 d2,
      s1 ≠ s2
      ∧ [1; 3; 3; 2]%nat !! s1 = Some j1 ∧ [1; 3; 3; 2]%nat !! s2 = Some j2
      ∧ isKnown [0; 1; 1; 0]%nat j1 ∧ isKnown [0; 1; 1; 0]%nat j2
      ∧ [5; 1; 10; 1] !! j1 = Some phi1 ∧ [5; 1; 10; 1] !! j2 = Some phi2
      ∧ [1; 1 # 2; 1 # 2; 1] !! s1 = Some d1
      ∧ [1; 1 # 2; 1 # 2; 1] !! s2 = Some d2
      ∧ [ (0, -1); (1, 0); (0, 1); (-1, 0) ] !! s1 = Some n1
      ∧ [ (0, -1); (1, 0); (0, 1); (-1, 0) ] !! s2 = Some n2
      ∧ Qabs phi1 <= Qabs phi2
      ∧ (∀ s j x, s ≠ s1 → s ≠ s2 → [1; 3; 3; 2]%nat !! s = Some j →
                  isKnown [0; 1; 1; 0]%nat j → [5; 1; 10; 1] !! j = Some x →
                  Qabs phi2 <= Qabs x)
      ∧ let dot := d1 * d2 * (n1.1 * n2.1 + n1.2 * n2.2) in
        let cross := d1 * d2 * (n1.1 * n2.2 - n1.2 * n2.1) in
        let dsq := d1 ^ 2 + d2 ^ 2 - 2 * dot in
        (cross ^ 2 * (dsq - (phi1 - phi2) ^ 2) < 0 →
         _calcTrialValue Qsqrt (Grid2D 1 1 2 2) [5; 1; 10; 1] 3
           [0; 1; 1; 0]%nat = Ok NaN).
Proof.
  split.
  - apply (proj1 (calcQuadratic_negative_argument_nan Qsqrt)
             1 10 (0, -1) (-1, 0) 1 1 1 1 3%nat 1%nat 2%nat).
    vm_compute. reflexivity.
  - apply (proj2 (calcQuadratic_negative_argument_nan Qsqrt)
             (Grid2D 1 1 2 2) [5; 1; 10; 1] [0; 1; 1; 0]%nat 3%nat
             [1; 3; 3; 2]%nat [1; 1 # 2; 1 # 2; 1]
             [ (0, -1); (1, 0); (0, 1); (-1, 0) ] 1).
    + apply Grid2D_2_2_wf.
    + reflexivity.
    + reflexivity.
    + reflexivity.
    + reflexivity.
    + reflexivity.
    + reflexivity.
    + vm_compute. lia.
    + solve_below_fill.
Defined.



Lemma known_cells_are_final_witness :
  [1; 1; 1; 1]%nat !! 1%nat = Some 1%nat
  ∧ [-1 # 2; 1 # 2; 3 # 2; 5 # 2] !! 1%nat
    = [-1 # 2; 1 # 2; 3 # 2; 1] !! 1%nat.
Proof.
  apply (proj2 (proj2 (proj2 (known_cells_are_final Qsqrt (Grid2D 1 1 1 4))))
           5%nat [-1 # 2; 1 # 2; 3 # 2; 1] [1; 1; 2; 0]%nat
           [-1 # 2; 1 # 2; 3 # 2; 5 # 2] [1; 1; 1; 1]%nat 1%nat).
  - vm_compute. reflexivity.
  - reflexivity.
Defined.


(** On [Islands], [solve] ends and the cells 3 and 4 stay Unknown. *)
Example solve_Islands :
  solve Qsqrt Islands 6 [-1; 1; 1; 1; 1]
  = Some (Ok ([-1 # 2; 1 # 2; 3 # 2; 1; 1], [1; 1; 1; 0; 0]%nat)).
Proof. vm_compute. reflexivity. Qed.

(** The test of the module, on a row of eight cells of width 1/2. *)
Example solve_doctest :
  Qreds (solve Qsqrt (Grid2D (1 # 2) (1 # 5) 8 1) 9
           [-1; -1; -1; -1; 1; 1; 1; 1])
  = Some (Ok ([-7 # 4; -5 # 4; -3 # 4; -1 # 4; 1 # 4; 3 # 4; 5 # 4; 7 # 4],
              [1; 1; 1; 1; 1; 1; 1; 1]%nat)).
Proof. vm_compute. reflexivity. Qed.


(** * Further properties of the code *)

(** ** The Trial Value Calculator *)

Lemma filter_one_unique {A} (P : A → Prop) `{∀ x, Decision (P x)}
    (l : list A) (i j : nat) (x y : A) :
  length (filter P l) = 1%nat →
  l !! i = Some x → l !! j = Some y → P x → P y → i = j.
Proof.
  revert i j. induction l as [|z l IH]; intros i j Hlen Hi Hj Hx Hy; [done|].
  rewrite filter_cons in Hlen. destruct (decide (P z)) as [Hz|Hz].
  - simpl in Hlen.
    assert (Hnil : filter P l = []) by (destruct (filter P l); [done|]; simpl in Hlen; lia).
    destruct i as [|i], j as [|j]; simpl in *; try done.
    + exfalso. eapply (filter_nil_not_elem_of P l y Hnil Hy).
      by eapply list_elem_of_lookup_2.
    + exfalso. eapply (filter_nil_not_elem_of P l x Hnil Hx).
      by eapply list_elem_of_lookup_2.
    + exfalso. eapply (filter_nil_not_elem_of P l x Hnil Hx).
      by eapply list_elem_of_lookup_2.
  - destruct i as [|i], j as [|j]; simpl in *; try congruence.
    f_equal. by eapply IH.
Qed.

Lemma filter_length_pos {A} (P : A → Prop) `{∀ x, Decision (P x)}
    (l : list A) (x : A) :
  x ∈ l → P x → (1 <= length (filter P l))%nat.
Proof.
  intros Hin Hx.
  assert (Hf : x ∈ filter P l) by (by apply list_elem_of_filter).
  destruct (filter P l); [by apply elem_of_nil in Hf | simpl; lia].
Qed.

(** On a cell with a Known neighbour the calculator raises no exception of
    Python: it returns, or the model stops at a masked entry. *)
Lemma calcTrialValue_no_exception (sqrt : Q → Q) (mesh : Mesh) (var : list Q)
    (flags : list nat) (cellID : nat) (ids : list nat) (e : exn) :
  wf_mesh mesh →
  length var = getNumberOfCells mesh →
  length flags = getNumberOfCells mesh →
  getCellToCellIDsFilled mesh !! cellID = Some ids →
  (1 <= knownCount flags ids)%nat →
  _calcTrialValue sqrt mesh var cellID flags = Raise e → e = MAError.
Proof.
  intros Hwf Hvar Hflags Hids HK He.
  assert (Hc : (cellID < getNumberOfCells mesh)%nat).
  { rewrite <- (wf_ids_rows _ Hwf). by eapply lookup_lt_Some. }
  destruct (calcTrialValue_branches sqrt mesh Hwf var flags cellID Hvar
              Hflags Hc)
    as (ids' & dAP & normals & areas & phi & vals & p & Hview & _ & _
        & Hone & Htwo).
  pose proof (tv_ids _ _ _ _ _ _ _ _ _ _ _ Hview) as E.
  rewrite Hids in E. injection E as <-.
  destruct (decide (knownCount flags ids = 1%nat)) as [K1|K1].
  - destruct (Hone K1) as (s0 & j0 & x0 & d0 & _ & _ & _ & _ & H).
    rewrite H in He. destruct x0; simpl in He; congruence.
  - destruct Htwo as (s0 & s1 & j0 & j1 & x0 & x1 & d0 & d1 & n0 & n1 & a0
      & a1 & H); [lia|].
    do 12 (destruct H as [_ H]). rewrite H in He.
    destruct x0, x1; simpl in He; congruence.
Qed.

(** X1: on a cell with exactly one Known neighbour, whose value is smaller
    in magnitude than the fill value [1e20], [_calcTrialValue] returns the
    value of that neighbour plus the distance to it when the value of the
    cell is positive, and minus the distance otherwise. *)
Theorem calcTrialValue_linear_formula (sqrt : Q → Q) (mesh : Mesh)
    (var : list Q) (flags : list nat) (cellID : nat)
    (ids : list nat) (dAP : list Q) (phi : Q) :
  wf_mesh mesh →
  length var = getNumberOfCells mesh →
  length flags = getNumberOfCells mesh →
  getCellToCellIDsFilled mesh !! cellID = Some ids →
  getCellToCellDistances mesh !! cellID = Some dAP →
  var !! cellID = Some phi →
  knownCount flags ids = 1%nat →
  known_below_fill mesh var flags cellID →
  ∃ s j phiAdj d,
    ids !! s = Some j ∧ isKnown flags j
    ∧ var !! j = Some phiAdj ∧ dAP !! s = Some d
    ∧ (∀ s' j', ids !! s' = Some j' → isKnown flags j' → s' = s)
    ∧ _calcTrialValue sqrt mesh var cellID flags
      = Ok (Num (if Qltb 0 phi then phiAdj + d else phiAdj - d)).
Proof.
  intros Hwf Hvar Hflags Hids HdAP Hphi HK Hbound.
  assert (Hc : (cellID < getNumberOfCells mesh)%nat).
  { rewrite <- Hvar. by eapply lookup_lt_Some. }
  destruct (calcTrialValue_cases sqrt mesh Hwf var flags cellID Hvar Hflags Hc
              Hbound)
    as (ids' & dAP' & normals & areas & phi' & vals & p & Hview & _
        & Hone & _).
  pose proof (tv_ids _ _ _ _ _ _ _ _ _ _ _ Hview) as E1.
  pose proof (tv_dAP _ _ _ _ _ _ _ _ _ _ _ Hview) as E2.
  pose proof (tv_phi _ _ _ _ _ _ _ _ _ _ _ Hview) as E3.
  rewrite Hids in E1. rewrite HdAP in E2. rewrite Hphi in E3.
  injection E1 as <-. injection E2 as <-. injection E3 as <-.
  destruct (Hone HK) as (s0 & j0 & v0 & d0 & _ & Hj0 & Hv0 & Hd0 & Heq).
  apply (view_vals_known _ _ _ _ _ _ _ _ _ _ _ _ _ _ Hview Hj0) in Hv0
    as [Hk0 Hx0].
  exists s0, j0, v0, d0. repeat split; try done.
  intros s' j' Hj' Hk'. unfold knownCount in HK.
  by eapply (filter_one_unique (isKnown flags) ids s' s0 j' j0).
Qed.

Lemma calcTrialValue_linear_formula_witness :
  ∃ v, _calcTrialValue Qsqrt (Grid2D 1 1 1 4) [-1 # 2; 1 # 2; 1; 1] 2
         [1; 1; 2; 0]%nat = Ok (Num v)
       ∧ v == 3 # 2.
Proof.
  destruct (calcTrialValue_linear_formula Qsqrt (Grid2D 1 1 1 4)
              [-1 # 2; 1 # 2; 1; 1] [1; 1; 2; 0]%nat 2
              [1; 2; 3; 2]%nat [1; 1 # 2; 1; 1 # 2] 1)
    as (s & j & phiAdj & d & Hj & Hk & Hv & Hd & _ & H).
  - solve_wf.
  - reflexivity.
  - reflexivity.
  - reflexivity.
  - reflexivity.
  - reflexivity.
  - vm_compute. reflexivity.
  - solve_below_fill.
  - eexists. split; [exact H|].
    destruct s as [|[|[|[|s]]]]; simpl in Hj, Hd; try done;
      injection Hj as <-; injection Hd as <-; try done; simpl in Hv;
      injection Hv as <-; reflexivity.
Defined.

Lemma lagrange_identity (n1 n2 : Q * Q) :
  unit_normal n1 → unit_normal n2 →
  Numeric_dot n1 n2 ^ 2 + (n1.1 * n2.2 - n1.2 * n2.1) ^ 2 == 1.
Proof.
  unfold unit_normal, Numeric_dot. intros H1 H2.
  assert (E : (n1.1 * n2.1 + n1.2 * n2.2) ^ 2
              + (n1.1 * n2.2 - n1.2 * n2.1) ^ 2
              == (n1.1 * n1.1 + n1.2 * n1.2) * (n2.1 * n2.1 + n2.2 * n2.2))
    by ring.
  rewrite E, H1, H2. ring.
Qed.

(** X2: the two values that [_calcQuadratic] returns are numbers and solve
    the eikonal equation of the cell, when the normals are unit vectors,
    [dsq] is not zero and [Numeric.sqrt] gives a square root of its
    argument. *)
Theorem calcQuadratic_eikonal (sqrt : Q → Q) (phi1 phi2 : Q) (n1 n2 : Q * Q)
    (d1 d2 area1 area2 : Q) (cellID adjCellID1 adjCellID2 : nat) :
  let dot := d1 * d2 * Numeric_dot n1 n2 in
  let cross := d1 * d2 * (n1.1 * n2.2 - n1.2 * n2.1) in
  let dsq := d1 ^ 2 + d2 ^ 2 - 2 * dot in
  let arg := cross ^ 2 * (dsq - (phi1 - phi2) ^ 2) in
  unit_normal n1 → unit_normal n2 →
  ¬ dsq == 0 →
  sqrt arg * sqrt arg == arg →
  ∃ r1 r2,
    _calcQuadratic sqrt phi1 phi2 n1 n2 d1 d2 area1 area2
      cellID adjCellID1 adjCellID2 = (Num r1, Num r2)
    ∧ eikonal r1 phi1 phi2 n1 n2 d1 d2
    ∧ eikonal r2 phi1 phi2 n1 n2 d1 d2.
Proof.
  intros dot cross dsq arg Hn1 Hn2 Hdsq Hsq.
  pose proof (lagrange_identity n1 n2 Hn1 Hn2) as Hlag.
  assert (Harg0 : 0 <= arg).
  { rewrite <- Hsq. generalize (sqrt arg). intros. nra. }
  set (top := - phi1 * (dot - d2 ^ 2) - phi2 * (dot - d1 ^ 2)).
  exists ((top + sqrt arg) / dsq), ((top - sqrt arg) / dsq).
  split.
  { exact (calcQuadratic_Num sqrt phi1 phi2 n1 n2 d1 d2 area1 area2
             cellID adjCellID1 adjCellID2 Hdsq Harg0). }
  unfold eikonal. fold dot. fold cross.
  set (s := sqrt arg) in *.
  set (C := d2 ^ 2 * phi1 ^ 2 + d1 ^ 2 * phi2 ^ 2 - 2 * dot * phi1 * phi2
            - cross ^ 2).
  assert (Harg : arg == top * top - C * dsq).
  { unfold arg, top, C, dsq, cross, dot.
    set (c := Numeric_dot n1 n2) in *.
    set (k := n1.1 * n2.2 - n1.2 * n2.1) in *.
    assert (Hk : k ^ 2 == 1 - c ^ 2) by (rewrite <- Hlag; ring).
    assert (E : (d1 * d2 * k) ^ 2 == d1 ^ 2 * d2 ^ 2 * k ^ 2) by ring.
    rewrite !E, !Hk. ring. }
  assert (Hroot : ∀ r, dsq * r == top + s ∨ dsq * r == top - s →
            d2 ^ 2 * (r - phi1) ^ 2 + d1 ^ 2 * (r - phi2) ^ 2
            - 2 * dot * (r - phi1) * (r - phi2) == cross ^ 2).
  { intros r Hr.
    assert (E : d2 ^ 2 * (r - phi1) ^ 2 + d1 ^ 2 * (r - phi2) ^ 2
                - 2 * dot * (r - phi1) * (r - phi2) - cross ^ 2
                == ((dsq * r - top) * (dsq * r - top)
                    - (top * top - C * dsq)) / dsq).
    { unfold C, top, dsq. field. exact Hdsq. }
    assert (E0 : (dsq * r - top) * (dsq * r - top) == s * s)
      by (destruct Hr as [-> | ->]; ring).
    rewrite E0, Hsq, Harg in E.
    assert (E1 : (top * top - C * dsq - (top * top - C * dsq)) / dsq == 0)
      by (field; exact Hdsq).
    rewrite E1 in E.
    generalize dependent (d2 ^ 2 * (r - phi1) ^ 2 + d1 ^ 2 * (r - phi2) ^ 2
                          - 2 * dot * (r - phi1) * (r - phi2)).
    intros. lra. }
  split; apply Hroot; [left | right]; field; exact Hdsq.
Qed.

Lemma calcQuadratic_eikonal_witness :
  ∃ r1 r2,
    _calcQuadratic Qsqrt (1 # 10) (19 # 2) (1, 0) (3 # 5, 4 # 5)
      1 10 1 1 2 0 1 = (Num r1, Num r2)
    ∧ eikonal r1 (1 # 10) (19 # 2) (1, 0) (3 # 5, 4 # 5) 1 10
    ∧ eikonal r2 (1 # 10) (19 # 2) (1, 0) (3 # 5, 4 # 5) 1 10.
Proof.
  apply (calcQuadratic_eikonal Qsqrt (1 # 10) (19 # 2) (1, 0) (3 # 5, 4 # 5)
           1 10 1 1 2 0 1); vm_compute; congruence.
Defined.

(** X3: between two Known neighbours in opposite directions, as on a line
    of cells, the two roots of [_calcQuadratic] coincide: both are the
    mean of the two values weighted by the distance to the other
    neighbour, and the sign of the cell plays no part. *)
Theorem calcQuadratic_opposite_normals (sqrt : Q → Q) (phi1 phi2 : Q)
    (n1 : Q * Q) (d1 d2 area1 area2 : Q)
    (cellID adjCellID1 adjCellID2 : nat) :
  (∀ x, x == 0 → sqrt x == 0) →
  unit_normal n1 →
  0 < d1 → 0 < d2 →
  ∃ r1 r2,
    _calcQuadratic sqrt phi1 phi2 n1 (- n1.1, - n1.2) d1 d2
      area1 area2 cellID adjCellID1 adjCellID2 = (Num r1, Num r2)
    ∧ r1 == (phi1 * d2 + phi2 * d1) / (d1 + d2)
    ∧ r2 == (phi1 * d2 + phi2 * d1) / (d1 + d2).
Proof.
  intros Hsqrt Hn Hd1 Hd2.
  unfold unit_normal in Hn.
  assert (Hdot : d1 * d2 * Numeric_dot n1 (- n1.1, - n1.2) == - (d1 * d2)).
  { unfold Numeric_dot. cbn [fst snd].
    assert (E : n1.1 * - n1.1 + n1.2 * - n1.2
                == - (n1.1 * n1.1 + n1.2 * n1.2)) by ring.
    rewrite E, Hn. ring. }
  assert (Hdsq : d1 ^ 2 + d2 ^ 2
                 - 2 * (d1 * d2 * Numeric_dot n1 (- n1.1, - n1.2))
                 == (d1 + d2) ^ 2).
  { rewrite Hdot. ring. }
  assert (Hne : ¬ d1 ^ 2 + d2 ^ 2
                  - 2 * (d1 * d2 * Numeric_dot n1 (- n1.1, - n1.2)) == 0).
  { rewrite Hdsq. nra. }
  set (arg := (d1 * d2 * (n1.1 * (- n1.1, - n1.2).2
                          - n1.2 * (- n1.1, - n1.2).1)) ^ 2
              * (d1 ^ 2 + d2 ^ 2
                 - 2 * (d1 * d2 * Numeric_dot n1 (- n1.1, - n1.2))
                 - (phi1 - phi2) ^ 2)).
  assert (Harg : arg == 0) by (unfold arg; cbn [fst snd]; ring).
  assert (Harg0 : 0 <= arg) by (rewrite Harg; lra).
  pose proof (Hsqrt arg Harg) as Hs.
  eexists _, _. split.
  { exact (calcQuadratic_Num sqrt phi1 phi2 n1 (- n1.1, - n1.2) d1 d2
             area1 area2 cellID adjCellID1 adjCellID2 Hne Harg0). }
  fold arg. rewrite !Hs, !Hdot.
  split; field; nra.
Qed.

Lemma calcQuadratic_opposite_normals_witness :
  ∃ r1 r2,
    _calcQuadratic Qsqrt (1 # 2) (3 # 2) (1, 0) (- 1, - 0) 1 3 1 1 1 0 2
    = (Num r1, Num r2)
    ∧ r1 == ((1 # 2) * 3 + (3 # 2) * 1) / (1 + 3)
    ∧ r2 == ((1 # 2) * 3 + (3 # 2) * 1) / (1 + 3).
Proof.
  apply (calcQuadratic_opposite_normals Qsqrt (1 # 2) (3 # 2) (1, 0)
           1 3 1 1 1 0 2).
  - intros x Hx. unfold Qsqrt.
    assert (E : Qred x = 0) by (by apply (Qred_complete x 0)).
    rewrite E. reflexivity.
  - reflexivity.
  - reflexivity.
  - reflexivity.
Defined.

(** ** The Interface Classifier *)

Lemma candidate_lt (phi d pa : Q) :
  0 < d → opposite phi pa → Qabs (candidate phi d pa) < d.
Proof.
  unfold opposite, candidate. intros Hd Hopp.
  destruct (Qlt_le_dec 0 phi) as [Hphi|Hphi].
  - assert (Hpa : pa < 0) by nra.
    assert (Hpos : 0 < phi * d / (phi - pa)).
    { apply Qlt_shift_div_l; [lra | nra]. }
    rewrite Qabs_pos by lra.
    apply Qlt_shift_div_r; [lra | nra].
  - assert (Hphi' : phi < 0).
    { destruct (Qlt_le_dec phi 0) as [|Hge]; [done|].
      assert (E : phi == 0) by lra. rewrite E in Hopp. lra. }
    assert (Hpa : 0 < pa) by nra.
    assert (E : phi * d / (phi - pa) == (- phi) * d / (pa - phi))
      by (field; lra).
    rewrite E.
    assert (Hpos : 0 < - phi * d / (pa - phi)).
    { apply Qlt_shift_div_l; [lra | nra]. }
    rewrite Qabs_pos by lra.
    apply Qlt_shift_div_r; [lra | nra].
Qed.

(** X4: the value that [_calcInterfaceValues] gives to a cell with a
    neighbour of opposite sign has a magnitude above the tolerance of
    [MA.masked_values], so it is not zero, and that magnitude is smaller
    than the distance to each neighbour of opposite sign whose candidate
    distance is above the tolerance: the interface lies between the two
    cell centres. *)
Theorem calcInterfaceValues_within_distance (mesh : Mesh)
    (var var' : list Q) (flags' : list nat) (cellID : nat)
    (ids : list nat) (dAP : list Q) (phi v : Q) (s j : nat) (pa d : Q) :
  wf_mesh mesh →
  (0 < getMaxFacesPerCell mesh)%nat →
  positive_distances mesh →
  length var = getNumberOfCells mesh →
  _calcInterfaceValues mesh var = Ok (var', flags') →
  getCellToCellIDsFilled mesh !! cellID = Some ids →
  getCellToCellDistances mesh !! cellID = Some dAP →
  var !! cellID = Some phi →
  var' !! cellID = Some v →
  ids !! s = Some j → var !! j = Some pa → dAP !! s = Some d →
  opposite phi pa →
  MA_atol < Qabs v
  ∧ ¬ v == 0
  ∧ (MA_atol < Qabs (candidate phi d pa) → Qabs v < d).
Proof.
  intros Hwf HM Hpos Hvar H Hids HdAP Hphi Hv Hj Hpa Hd Hopp.
  destruct (calcInterfaceValues_cells mesh var var' flags' Hwf HM Hpos Hvar H)
    as (_ & _ & Hcells).
  destruct (Hcells cellID ids dAP phi Hids HdAP Hphi) as [Hyes _].
  destruct Hyes as (_ & s0 & j0 & pa0 & d0 & v0 & Hj0 & Hpa0 & Hd0 & Hopp0
                    & Hv0 & Habs & Htol & Hsame & Hmin); [eauto 6|].
  rewrite Hv in Hv0. injection Hv0 as <-.
  assert (Hdpos : 0 < d).
  { pose proof (Forall_lookup_1 _ _ _ _ Hpos HdAP) as Hrow.
    by eapply (Forall_lookup_1 _ _ _ _ Hrow). }
  pose proof (candidate_lt phi d pa Hdpos Hopp) as Hlt.
  assert (Hv0 : MA_atol < Qabs v) by (rewrite Habs; exact Htol).
  split; [exact Hv0|]. split.
  - intros Hz. rewrite Hz in Hv0. vm_compute in Hv0. discriminate.
  - intros Hc. destruct (Hmin s j pa d Hj Hpa Hd Hopp Hc) as [Hle _].
    rewrite Habs. lra.
Qed.

Lemma calcInterfaceValues_within_distance_witness :
  MA_atol < Qabs (-1 # 2) ∧ ¬ (-1 # 2) == 0 ∧ Qabs (-1 # 2) < 1.
Proof.
  destruct (calcInterfaceValues_within_distance (Grid2D 1 1 2 1) [-1; 1]
              [-1 # 2; 1 # 2] [1; 1]%nat 0 [0; 1; 0; 0]%nat
              [1 # 2; 1; 1 # 2; 1 # 2] (-1) (-1 # 2) 1 1 1 1)
    as (H1 & H2 & H3).
  - apply Grid2D_2_1_wf.
  - simpl. lia.
  - solve_positive.
  - reflexivity.
  - vm_compute. reflexivity.
  - reflexivity.
  - reflexivity.
  - reflexivity.
  - reflexivity.
  - reflexivity.
  - reflexivity.
  - reflexivity.
  - reflexivity.
  - split; [exact H1|]. split; [exact H2|]. apply H3. reflexivity.
Defined.

(** ** The Trial Band Initializer *)

Lemma Numeric_sum_eq_0 (l : list nat) :
  Numeric_sum l = 0%nat ↔ Forall (λ f, f = 0%nat) l.
Proof.
  unfold Numeric_sum. induction l as [|x l IH]; simpl.
  - split; [constructor | done].
  - split.
    + intros H. constructor; [lia|]. apply IH. lia.
    + intros H. inversion H as [|? ? Hx Hl]; subst.
      apply IH in Hl. lia.
Qed.

Lemma initialFlag_Ok (mesh : Mesh) (flags : list nat) (c f' : nat) :
  initialFlag mesh flags c = Ok f' ↔
  ∃ ids f,
    getCellToCellIDsFilled mesh !! c = Some ids
    ∧ Forall (λ j, (j < length flags)%nat) ids
    ∧ flags !! c = Some f
    ∧ f' = (if decide (Forall (λ j, flags !! j = Some 0%nat) ids) then f
            else if decide (f = 1%nat) then f else 2%nat).
Proof.
  unfold initialFlag. split.
  - intros H. apply bind_Ok in H as (ids & Hids%getitem_Ok & H).
    apply bind_Ok in H as (adj & Hadj & H).
    apply bind_Ok in H as (f & Hf%getitem_Ok & [= <-]).
    exists ids, f. apply Numeric_take_Ok in Hadj.
    split; [done|]. split.
    { apply Forall_lookup_2. intros k j Hk.
      destruct (Forall2_lookup_l _ _ _ _ _ Hadj Hk) as (x & _ & Hx).
      by eapply lookup_lt_Some. }
    split; [done|].
    destruct (decide (Numeric_sum adj = 0%nat)) as [Hs|Hs];
      destruct (decide (Forall (λ j, flags !! j = Some 0%nat) ids))
        as [Hz|Hz]; try done.
    + exfalso. apply Hz. apply Numeric_sum_eq_0 in Hs.
      apply Forall_lookup_2. intros k j Hk.
      destruct (Forall2_lookup_l _ _ _ _ _ Hadj Hk) as (x & Hx & Hjx).
      by rewrite Hjx, (Forall_lookup_1 _ _ _ _ Hs Hx).
    + exfalso. apply Hs. apply Numeric_sum_eq_0.
      apply Forall_lookup_2. intros k x Hx.
      destruct (Forall2_lookup_r _ _ _ _ _ Hadj Hx) as (j & Hk & Hjx).
      pose proof (Forall_lookup_1 _ _ _ _ Hz Hk) as Hj. simpl in Hj.
      congruence.
  - intros (ids & f & Hids & Hrange & Hf & ->).
    destruct (Numeric_take_total flags ids Hrange) as [adj Hadj].
    apply getitem_Ok in Hids as Gids. apply getitem_Ok in Hf as Gf.
    rewrite Gids, bind_Ok_l, Hadj, bind_Ok_l, Gf, bind_Ok_l.
    apply Numeric_take_Ok in Hadj. f_equal.
    destruct (decide (Numeric_sum adj = 0%nat)) as [Hs|Hs];
      destruct (decide (Forall (λ j, flags !! j = Some 0%nat) ids))
        as [Hz|Hz]; try done.
    + exfalso. apply Hz. apply Numeric_sum_eq_0 in Hs.
      apply Forall_lookup_2. intros k j Hk.
      destruct (Forall2_lookup_l _ _ _ _ _ Hadj Hk) as (x & Hx & Hjx).
      by rewrite Hjx, (Forall_lookup_1 _ _ _ _ Hs Hx).
    + exfalso. apply Hs. apply Numeric_sum_eq_0.
      apply Forall_lookup_2. intros k x Hx.
      destruct (Forall2_lookup_r _ _ _ _ _ Hadj Hx) as (j & Hk & Hjx).
      pose proof (Forall_lookup_1 _ _ _ _ Hz Hk) as Hj. simpl in Hj.
      congruence.
Qed.

Lemma setTrialValues_length (sqrt : Q → Q) (mesh : Mesh) (trial : list nat)
    (var var' : list Q) (flags : list nat) :
  setTrialValues sqrt mesh trial var flags = Ok var' →
  length var' = length var.
Proof.
  intros H.
  refine (setTrialValues_invariant sqrt mesh flags
            (λ w, length w = length var) trial _ var var' eq_refl H).
  intros w c v _ Hw _ _. by rewrite length_insert.
Qed.

(** X5: the flags that [_calcInitialTrialValues] returns: a cell all of
    whose neighbours are flagged 0 keeps its flag; any other cell keeps
    the flag 1 and is flagged 2 (Trial) otherwise.  Only the values of
    the cells flagged 2 are written. *)
Theorem calcInitialTrialValues_flags (sqrt : Q → Q) (mesh : Mesh)
    (var var' : list Q) (flags flags' : list nat) (c : nat)
    (ids : list nat) (f : nat) :
  _calcInitialTrialValues sqrt mesh var flags = Ok (var', flags') →
  (c < getNumberOfCells mesh)%nat →
  getCellToCellIDsFilled mesh !! c = Some ids →
  flags !! c = Some f →
  length flags' = getNumberOfCells mesh
  ∧ length var' = length var
  ∧ flags' !! c
    = Some (if decide (Forall (λ j, flags !! j = Some 0%nat) ids) then f
            else if decide (f = 1%nat) then 1%nat else 2%nat)
  ∧ (flags' !! c ≠ Some 2%nat → var' !! c = var !! c).
Proof.
  intros H Hc Hids Hf. unfold _calcInitialTrialValues in H.
  apply bind_Ok in H as (fl & Hfl & H).
  apply bind_Ok in H as (v & Hv & [= <- <-]).
  split.
  { apply for_each_length in Hfl. by rewrite length_seq in Hfl. }
  split; [by eapply setTrialValues_length|].
  destruct (for_each_seq_lookup _ _ _ c Hfl Hc) as (f' & Hf' & E).
  apply initialFlag_Ok in E as (ids' & f0 & Hids' & _ & Hf0 & ->).
  rewrite Hids in Hids'. injection Hids' as <-.
  rewrite Hf in Hf0. injection Hf0 as <-.
  split.
  - rewrite Hf'. f_equal. repeat case_decide; congruence.
  - intros Hne.
    refine (setTrialValues_invariant sqrt mesh fl
              (λ w, w !! c = var !! c) (nonzero_eq2 fl) _ var v eq_refl Hv).
    intros w c' x Hin Hw _ _. apply nonzero_eq2_elem in Hin.
    rewrite list_lookup_insert_ne; [done|]. intros ->. congruence.
Qed.

Lemma calcInitialTrialValues_flags_witness :
  length [1; 1; 2; 0]%nat = 4%nat
  ∧ length [-1 # 2; 1 # 2; 3 # 2; 1] = length [-1 # 2; 1 # 2; 1; 1]
  ∧ [1; 1; 2; 0]%nat !! 2%nat = Some 2%nat
  ∧ ([1; 1; 2; 0]%nat !! 2%nat ≠ Some 2%nat →
     [-1 # 2; 1 # 2; 3 # 2; 1] !! 2%nat = [-1 # 2; 1 # 2; 1; 1] !! 2%nat).
Proof.
  apply (calcInitialTrialValues_flags Qsqrt (Grid2D 1 1 1 4)
           [-1 # 2; 1 # 2; 1; 1] [-1 # 2; 1 # 2; 3 # 2; 1]
           [1; 1; 0; 0]%nat [1; 1; 2; 0]%nat 2 [1; 2; 3; 2]%nat 0).
  - vm_compute. reflexivity.
  - simpl. lia.
  - reflexivity.
  - reflexivity.
Defined.

(** ** [solve] raises no exception *)

Section Success.

Variable sqrt : Q → Q.
Variable mesh : Mesh.
Hypothesis Hwf : wf_mesh mesh.

Lemma neighbour_lt (c j : nat) :
  neighbour mesh c j →
  (c < getNumberOfCells mesh)%nat ∧ (j < getNumberOfCells mesh)%nat.
Proof.
  intros (ids & Hids & Hj).
  assert (Hc : (c < getNumberOfCells mesh)%nat).
  { rewrite <- (wf_ids_rows mesh Hwf). by eapply lookup_lt_Some. }
  split; [done|].
  destruct (wf_rows mesh Hwf c Hc)
    as (ids' & ? & ? & ? & Hids' & _ & _ & _ & _ & _ & _ & _ & Hr).
  rewrite Hids in Hids'. injection Hids' as <-.
  by apply (proj1 (Forall_forall _ _) Hr).
Qed.

Lemma calcTrialValue_number_no_exception (var : list Q) (flags : list nat)
    (cellID : nat) (ids : list nat) :
  length var = getNumberOfCells mesh →
  length flags = getNumberOfCells mesh →
  getCellToCellIDsFilled mesh !! cellID = Some ids →
  (1 <= knownCount flags ids)%nat →
  no_exception (_calcTrialValue sqrt mesh var cellID flags ≫= number).
Proof.
  intros Hvar Hfl Hids HK.
  destruct (_calcTrialValue sqrt mesh var cellID flags) as [[v|]|e] eqn:E;
    simpl; [done | by right |].
  left. by eapply calcTrialValue_no_exception.
Qed.

Lemma setTrialValues_no_exception (flags : list nat) (trial : list nat) :
  length flags = getNumberOfCells mesh →
  (∀ c, c ∈ trial →
     ∃ ids, getCellToCellIDsFilled mesh !! c = Some ids
            ∧ (1 <= knownCount flags ids)%nat) →
  ∀ var, length var = getNumberOfCells mesh →
  no_exception (setTrialValues sqrt mesh trial var flags).
Proof.
  intros Hfl. induction trial as [|c trial IH]; intros Hk var Hvar; [done|].
  destruct (Hk c (list_elem_of_here _ _)) as (ids & Hids & Hc).
  cbn [setTrialValues]. apply no_exception_bind.
  { by eapply calcTrialValue_number_no_exception. }
  intros v _.
  assert (Hlt : (c < length var)%nat).
  { rewrite Hvar, <- (wf_ids_rows mesh Hwf). by eapply lookup_lt_Some. }
  rewrite (proj2 (setitem_Ok var (<[c:=v]> var) c v) (conj Hlt eq_refl)),
    bind_Ok_l.
  apply IH.
  - intros c' Hc'. apply Hk. by apply list_elem_of_further.
  - by rewrite length_insert.
Qed.

Lemma initialFlag_total (flags : list nat) (c : nat) :
  length flags = getNumberOfCells mesh →
  (c < getNumberOfCells mesh)%nat →
  ∃ f', initialFlag mesh flags c = Ok f'.
Proof.
  intros Hfl Hc.
  destruct (wf_rows mesh Hwf c Hc)
    as (ids & ? & ? & ? & Hids & _ & _ & _ & _ & _ & _ & _ & Hr).
  destruct (lookup_lt_is_Some_2 flags c) as [f Hf]; [lia|].
  eexists. apply initialFlag_Ok. exists ids, f.
  split; [done|]. split; [by rewrite Hfl|]. split; done.
Qed.

Lemma calcInitialTrialValues_band (var : list Q) (flags : list nat) :
  length var = getNumberOfCells mesh →
  length flags = getNumberOfCells mesh →
  Forall (λ f, (f <= 1)%nat) flags →
  no_exception (_calcInitialTrialValues sqrt mesh var flags)
  ∧ ∀ var' flags',
      _calcInitialTrialValues sqrt mesh var flags = Ok (var', flags') →
      ∀ c, flags' !! c = Some 2%nat →
           ∃ j, neighbour mesh c j ∧ flags !! j = Some 1%nat
                ∧ flags' !! j = Some 1%nat.
Proof.
  intros Hvar Hfl H01.
  destruct (for_each_total (initialFlag mesh flags)
              (seq 0 (getNumberOfCells mesh))) as [fl Hfl'].
  { apply Forall_forall. intros c Hc%elem_of_seq.
    apply initialFlag_total; [done|lia]. }
  assert (Hlen : length fl = getNumberOfCells mesh).
  { apply for_each_length in Hfl'. by rewrite length_seq in Hfl'. }
  assert (Hkn : ∀ c, fl !! c = Some 2%nat →
            ∃ j, neighbour mesh c j ∧ flags !! j = Some 1%nat
                 ∧ fl !! j = Some 1%nat).
  { intros c Hc2.
    assert (Hc : (c < getNumberOfCells mesh)%nat).
    { rewrite <- Hlen. by eapply lookup_lt_Some. }
    destruct (for_each_seq_lookup _ _ _ c Hfl' Hc) as (f' & Hf' & E).
    rewrite Hc2 in Hf'. injection Hf' as <-.
    apply initialFlag_Ok in E as (ids & f & Hids & Hr & Hf & E).
    pose proof (proj1 (Forall_lookup _ _) H01 _ _ Hf) as Hf1. simpl in Hf1.
    destruct (decide (Forall (λ j, flags !! j = Some 0%nat) ids))
      as [Hz|Hz]; [lia|].
    apply not_Forall_Exists in Hz; [|intros j; apply _].
    apply Exists_exists in Hz as (j & Hj & Hnz).
    pose proof (proj1 (Forall_forall _ _) Hr j Hj) as Hjl. simpl in Hjl.
    destruct (lookup_lt_is_Some_2 flags j Hjl) as [fj Hfj].
    pose proof (proj1 (Forall_lookup _ _) H01 _ _ Hfj) as Hfj1.
    simpl in Hfj1.
    assert (fj = 1%nat) as ->.
    { destruct (decide (fj = 0%nat)) as [->|]; [by destruct Hnz|lia]. }
    exists j. split; [by exists ids|]. split; [done|].
    eapply initialFlag_known; [done..|]. by rewrite <- Hfl. }
  unfold _calcInitialTrialValues. rewrite Hfl', bind_Ok_l. cbv zeta.
  split.
  - apply no_exception_bind; [|done].
    apply setTrialValues_no_exception; [done| |done].
    intros c Hc%nonzero_eq2_elem.
    destruct (Hkn c Hc) as (j & (ids & Hids & Hj) & _ & Hj1).
    exists ids. split; [done|].
    by eapply (filter_length_pos (isKnown fl)).
  - intros var' flags' H.
    apply bind_Ok in H as (v & _ & [= _ <-]). exact Hkn.
Qed.

Hypothesis Hsym : symmetric_mesh mesh.

Lemma relax_no_exception (cellID : nat) (ids : list nat) :
  (∀ adj, adj ∈ ids → neighbour mesh cellID adj) →
  ∀ st,
    length st.1.1 = getNumberOfCells mesh →
    length st.1.2 = getNumberOfCells mesh →
    st.1.2 !! cellID = Some 1%nat →
    no_exception (relax sqrt mesh ids st).
Proof.
  induction ids as [|adj ids IH]; intros Hn st Hvar Hfl Hk; [done|].
  destruct st as [[var flags] trial]. simpl in Hvar, Hfl, Hk.
  assert (IH' : ∀ st, length st.1.1 = getNumberOfCells mesh →
                      length st.1.2 = getNumberOfCells mesh →
                      st.1.2 !! cellID = Some 1%nat →
                      no_exception (relax sqrt mesh ids st)).
  { apply IH. intros a Ha. apply Hn. by apply list_elem_of_further. }
  pose proof (Hn adj (list_elem_of_here _ _)) as Hadj.
  destruct (neighbour_lt _ _ Hadj) as [_ Hlt].
  destruct (lookup_lt_is_Some_2 flags adj) as [f Hf]; [lia|].
  cbn [relax].
  rewrite (proj2 (getitem_Ok flags adj f) Hf), bind_Ok_l.
  case_decide as Hne; [|by apply IH'].
  destruct (Hsym _ _ Hadj) as (idsA & HidsA & Hin).
  apply no_exception_bind.
  { eapply calcTrialValue_number_no_exception; [done..|].
    by eapply (filter_length_pos (isKnown flags)). }
  intros v _.
  rewrite (proj2 (setitem_Ok var (<[adj:=v]> var) adj v)), bind_Ok_l;
    [|split; [lia|done]].
  case_decide as H0.
  - rewrite (proj2 (setitem_Ok flags (<[adj:=2%nat]> flags) adj 2%nat)),
      bind_Ok_l; [|split; [lia|done]].
    apply IH'; simpl; rewrite ?length_insert; try done.
    rewrite list_lookup_insert_ne; [done|]. intros ->. congruence.
  - apply IH'; simpl; rewrite ?length_insert; done.
Qed.

Lemma trial_inv_lt (st : march_state) (c : nat) :
  trial_inv st → c ∈ st.2 → (c < length st.1.2)%nat.
Proof.
  intros [_ Hinv] Hc. apply Hinv in Hc. by eapply lookup_lt_Some.
Qed.

Lemma march_step_no_exception (st : march_state) :
  length st.1.1 = getNumberOfCells mesh →
  length st.1.2 = getNumberOfCells mesh →
  trial_inv st → st.2 ≠ [] →
  no_exception (march_step sqrt mesh st).
Proof.
  intros Hvar Hfl Hinv Hne.
  destruct st as [[var flags] trial]. simpl in Hvar, Hfl, Hne.
  destruct (selectCell_total var trial Hne) as [cellID Hsel].
  { apply Forall_forall. intros c Hc.
    rewrite Hvar, <- Hfl. by apply (trial_inv_lt _ _ Hinv). }
  destruct (selectCell_Ok _ _ _ Hsel) as (r & x & Hr & _).
  apply list_elem_of_lookup_2 in Hr.
  pose proof (trial_inv_lt _ _ Hinv Hr) as Hlt. simpl in Hlt.
  destruct (list_remove_total _ _ Hr) as [trial1 Hrem].
  destruct (wf_rows mesh Hwf cellID)
    as (ids & ? & ? & ? & Hids & _); [lia|].
  unfold march_step. rewrite Hsel, bind_Ok_l.
  rewrite (proj2 (setitem_Ok flags (<[cellID:=1%nat]> flags) cellID 1%nat)),
    bind_Ok_l; [|split; [lia|done]].
  rewrite Hrem, bind_Ok_l.
  rewrite (proj2 (getitem_Ok _ cellID ids) Hids), bind_Ok_l.
  apply (relax_no_exception cellID ids).
  - intros adj Hadj. by exists ids.
  - done.
  - simpl. by rewrite length_insert.
  - simpl. by apply list_lookup_insert_eq.
Qed.

Lemma march_no_exception (fuel : nat) :
  ∀ st,
    length st.1.1 = getNumberOfCells mesh →
    length st.1.2 = getNumberOfCells mesh →
    trial_inv st → (notKnownCount st.1.2 < fuel)%nat →
    ∃ r, march sqrt mesh fuel st = Some r ∧ no_exception r.
Proof.
  induction fuel as [|fuel IH]; intros st Hvar Hfl Hinv Hm; [lia|].
  destruct st as [[var flags] [|c trial]].
  { eexists. split; [apply march_nil | done]. }
  rewrite march_cons.
  pose proof (march_step_no_exception (var, flags, c :: trial) Hvar Hfl Hinv)
    as Hne.
  destruct (march_step sqrt mesh (var, flags, c :: trial)) as [st'|e] eqn:Hst'.
  - destruct (march_step_trial_inv sqrt mesh _ _ Hinv Hst')
      as (Hinv' & Hv' & Hf' & Hn & _).
    apply IH; try done; try congruence. lia.
  - exists (Raise e). split; [done|]. by apply Hne.
Qed.

End Success.

Lemma calcInterfaceValues_no_exception (mesh : Mesh) (var : list Q) :
  wf_mesh mesh →
  (0 < getMaxFacesPerCell mesh)%nat →
  length var = getNumberOfCells mesh →
  no_exception (_calcInterfaceValues mesh var).
Proof.
  intros Hwf HM Hvar. unfold _calcInterfaceValues.
  apply no_exception_bind; [|done].
  apply for_each_no_exception. apply Forall_seq. intros c Hc.
  destruct (wf_rows mesh Hwf c) as (ids & dAP & _ & _ & Hids & HdAP & _);
    [lia|].
  destruct (lookup_lt_is_Some_2 var c) as [phi Hphi]; [lia|].
  destruct (interfaceCell_spec mesh Hwf HM var c ids dAP phi Hvar Hids HdAP
              Hphi) as [Hno Hyes].
  destruct (opposite_neighbour_dec var ids phi) as [Hex|Hn].
  - destruct (Hyes Hex) as (x & Hx & _). rewrite Hx.
    destruct x; simpl; [done | by left].
  - by rewrite (Hno Hn).
Qed.

(** X6: on flags that are 0 or 1, as [_calcInterfaceValues] returns them,
    [_calcInitialTrialValues] raises none of the exceptions [Error],
    [IndexError] and [ValueError]: it returns, or it meets a masked entry
    or a value that is no number; and when it returns, every cell it flags
    2 (Trial) has a neighbour that is flagged 1 (Known) before and
    after. *)
Theorem calcInitialTrialValues_no_exception (sqrt : Q → Q) (mesh : Mesh)
    (var : list Q) (flags : list nat) :
  wf_mesh mesh →
  length var = getNumberOfCells mesh →
  length flags = getNumberOfCells mesh →
  Forall (λ f, (f <= 1)%nat) flags →
  no_exception (_calcInitialTrialValues sqrt mesh var flags)
  ∧ ∀ var' flags',
      _calcInitialTrialValues sqrt mesh var flags = Ok (var', flags') →
      ∀ c, flags' !! c = Some 2%nat →
           ∃ j, neighbour mesh c j ∧ flags !! j = Some 1%nat
                ∧ flags' !! j = Some 1%nat.
Proof. intros Hwf. by apply calcInitialTrialValues_band. Qed.

Lemma calcInitialTrialValues_no_exception_witness :
  _calcInitialTrialValues Qsqrt (Grid2D 1 1 2 2)
    [-1 # 2; 1 # 2; 1 # 2; 1] [1; 1; 1; 0]%nat
  = Ok ([-1 # 2; 1 # 2; 1 # 2; 8 # 8], [1; 1; 1; 2]%nat)
  ∧ ∃ j, neighbour (Grid2D 1 1 2 2) 3 j
         ∧ [1; 1; 1; 0]%nat !! j = Some 1%nat
         ∧ [1; 1; 1; 2]%nat !! j = Some 1%nat.
Proof.
  assert (H : _calcInitialTrialValues Qsqrt (Grid2D 1 1 2 2)
                [-1 # 2; 1 # 2; 1 # 2; 1] [1; 1; 1; 0]%nat
              = Ok ([-1 # 2; 1 # 2; 1 # 2; 8 # 8], [1; 1; 1; 2]%nat))
    by (vm_compute; reflexivity).
  split; [exact H|].
  refine (proj2 (calcInitialTrialValues_no_exception Qsqrt (Grid2D 1 1 2 2)
                   [-1 # 2; 1 # 2; 1 # 2; 1] [1; 1; 1; 0]%nat _ _ _ _)
            _ _ H 3%nat _).
  - apply Grid2D_2_2_wf.
  - reflexivity.
  - reflexivity.
  - repeat constructor.
  - reflexivity.
Defined.

Lemma calcInterfaceValues_flags01 (mesh : Mesh) (var var' : list Q)
    (flags' : list nat) :
  _calcInterfaceValues mesh var = Ok (var', flags') →
  Forall (λ f, (f <= 1)%nat) flags'.
Proof.
  unfold _calcInterfaceValues. intros H.
  apply bind_Ok in H as (cells & Hcells & [= _ <-]).
  apply for_each_Ok in Hcells. apply Forall_fmap.
  induction Hcells as [|c [v f] ids cells Hc _ IH]; constructor; [|done].
  simpl. unfold interfaceCell in Hc.
  apply bind_Ok in Hc as ([zf dist] & _ & Hc).
  apply bind_Ok in Hc as (am & _ & Hc).
  apply bind_Ok in Hc as (d & _ & Hc).
  cbv zeta in Hc. case_decide.
  - apply bind_Ok in Hc as (w & _ & [= _ <-]). lia.
  - apply bind_Ok in Hc as (w & _ & [= _ <-]). lia.
Qed.

(** X7: on a well-formed mesh whose adjacency is symmetric and whose
    distances are positive, [solve] given one unit of fuel more than there
    are cells comes to its end and raises none of the exceptions [Error],
    [IndexError] and [ValueError]: it returns a field and flags, one per
    cell, or it meets a masked entry or a value that is no number. *)
Theorem solve_no_exception (sqrt : Q → Q) (mesh : Mesh) (var : list Q) :
  wf_mesh mesh →
  symmetric_mesh mesh →
  (0 < getMaxFacesPerCell mesh)%nat →
  positive_distances mesh →
  length var = getNumberOfCells mesh →
  ∀ k, ∃ r,
    solve sqrt mesh (S (getNumberOfCells mesh) + k) var = Some r
    ∧ no_exception r
    ∧ ∀ var' flags',
        r = Ok (var', flags') →
        length var' = getNumberOfCells mesh
        ∧ length flags' = getNumberOfCells mesh.
Proof.
  intros Hwf Hsym HM Hpos Hvar k.
  pose proof (calcInterfaceValues_no_exception mesh var Hwf HM Hvar) as Hne1.
  unfold solve.
  destruct (_calcInterfaceValues mesh var) as [[var1 flags1]|e] eqn:H1;
    [|by exists (Raise e)].
  destruct (calcInterfaceValues_cells mesh var var1 flags1 Hwf HM Hpos Hvar H1)
    as (Hvar1 & Hfl1 & _).
  pose proof (calcInterfaceValues_flags01 _ _ _ _ H1) as H01.
  destruct (calcInitialTrialValues_band sqrt mesh Hwf var1 flags1 Hvar1
              Hfl1 H01) as [Hne2 _].
  destruct (_calcInitialTrialValues sqrt mesh var1 flags1)
    as [[var2 flags2]|e] eqn:H2; [|by exists (Raise e)].
  assert (Hvar2 : length var2 = getNumberOfCells mesh).
  { unfold _calcInitialTrialValues in H2.
    apply bind_Ok in H2 as (fl & _ & H2).
    apply bind_Ok in H2 as (v & Hv & [= <- _]).
    apply setTrialValues_length in Hv. congruence. }
  assert (Hfl2 : length flags2 = getNumberOfCells mesh).
  { unfold _calcInitialTrialValues in H2.
    apply bind_Ok in H2 as (fl & Hfl & H2).
    apply bind_Ok in H2 as (v & _ & [= _ <-]).
    apply for_each_length in Hfl. by rewrite length_seq in Hfl. }
  pose proof (trial_inv_initial var2 flags2) as Hinv.
  destruct (march_no_exception sqrt mesh Hwf Hsym
              (S (getNumberOfCells mesh) + k)
              (var2, flags2, nonzero_eq2 flags2)) as (r & Hr & Hner);
    try done.
  { simpl. unfold notKnownCount.
    pose proof (length_filter (λ f, f ≠ 1%nat) flags2). lia. }
  unfold _calcRemainingValues. rewrite Hr.
  destruct r as [st'|e]; [|by exists (Raise e)].
  exists (Ok st'.1). split; [done|]. split; [done|].
  intros var' flags' E. injection E as E.
  destruct (march_Ok_steps _ _ _ _ _ Hr) as [Hsteps _].
  destruct (march_steps_trial_inv _ _ _ _ Hinv Hsteps)
    as (_ & L1 & L2 & _). simpl in L1, L2.
  rewrite E in L1, L2. simpl in L1, L2. split; congruence.
Qed.

Lemma Islands_wf : wf_mesh Islands.
Proof. solve_wf. Qed.

Lemma Islands_positive : positive_distances Islands.
Proof. solve_positive. Qed.

Lemma Islands_symmetric : symmetric_mesh Islands.
Proof.
  intros c j (ids & Hids & Hj).
  do 5 (destruct c as [|c]; [injection Hids as <-;
    repeat (apply elem_of_cons in Hj as [->|Hj]);
    try (by apply elem_of_nil in Hj);
    (eexists; split; [reflexivity|]; set_solver)|]).
  done.
Qed.

Lemma solve_no_exception_witness :
  ∃ r,
    solve Qsqrt Islands (S (getNumberOfCells Islands) + 0) [-1; 1; 1; 1; 1]
    = Some r
    ∧ no_exception r
    ∧ ∀ var' flags',
        r = Ok (var', flags') →
        length var' = getNumberOfCells Islands
        ∧ length flags' = getNumberOfCells Islands.
Proof.
  apply (solve_no_exception Qsqrt Islands [-1; 1; 1; 1; 1]).
  - exact Islands_wf.
  - exact Islands_symmetric.
  - simpl. lia.
  - exact Islands_positive.
  - reflexivity.
Defined.

(** Without the symmetry [solve] can raise [Error]: on [OneWay] the cell
    3 is relaxed as a neighbour of the cell 2, and none of its own
    neighbours is Known. *)
Example solve_OneWay_raises :
  solve Qsqrt OneWay 5 [-1; 1; 1; 1] = Some (Raise Error).
Proof. vm_compute. reflexivity. Qed.

(** X8: when [solve] returns, no cell is left flagged 2 (Trial). *)
Theorem solve_leaves_no_trial (sqrt : Q → Q) (mesh : Mesh) (fuel : nat)
    (var var' : list Q) (flags' : list nat) :
  solve sqrt mesh fuel var = Some (Ok (var', flags')) →
  ∀ c, flags' !! c ≠ Some 2%nat.
Proof.
  unfold solve. intros H c Hc.
  destruct (_calcInterfaceValues mesh var) as [[var1 flags1]|]; [|done].
  destruct (_calcInitialTrialValues sqrt mesh var1 flags1)
    as [[var2 flags2]|]; [|done].
  unfold _calcRemainingValues in H.
  destruct (march sqrt mesh fuel (var2, flags2, nonzero_eq2 flags2))
    as [[st'|]|] eqn:E; [|done..].
  injection H as H.
  destruct (march_Ok_steps _ _ _ _ _ E) as [Hsteps Hnil].
  destruct (march_steps_trial_inv _ _ _ _ (trial_inv_initial var2 flags2)
              Hsteps) as ([_ Hiff] & _).
  rewrite H in Hiff. simpl in Hiff. apply Hiff in Hc. rewrite Hnil in Hc.
  by apply elem_of_nil in Hc.
Qed.

Lemma solve_leaves_no_trial_witness :
  [1; 1; 1; 0; 0]%nat !! 2%nat ≠ Some 2%nat.
Proof.
  apply (solve_leaves_no_trial Qsqrt Islands 6 [-1; 1; 1; 1; 1]
           [-1 # 2; 1 # 2; 3 # 2; 1; 1] [1; 1; 1; 0; 0]%nat).
  vm_compute. reflexivity.
Defined.

(** ** The cells [solve] makes Known *)

Lemma active_insert (flags : list nat) (i f j : nat) :
  f ≠ 0%nat → active flags j → active (<[i:=f]> flags) j.
Proof.
  intros Hf (g & Hg & Hg0). destruct (decide (j = i)) as [->|Hne].
  - exists f. split; [|done]. apply list_lookup_insert_eq.
    by eapply lookup_lt_Some.
  - exists g. by rewrite list_lookup_insert_ne.
Qed.

Lemma active_insert_inv (flags : list nat) (i f j : nat) :
  active (<[i:=f]> flags) j → j = i ∨ active flags j.
Proof.
  intros (g & Hg & Hg0). destruct (decide (j = i)) as [->|Hne];
    [by left|right].
  exists g. by rewrite list_lookup_insert_ne in Hg.
Qed.

Section Reach.

Variable sqrt : Q → Q.
Variable mesh : Mesh.
Variable var0 : list Q.

Lemma reachable_step (c j : nat) :
  reachable mesh var0 c → neighbour mesh c j → reachable mesh var0 j.
Proof.
  intros (i & Hi & Hrtc) Hn. exists i. split; [done|].
  by eapply rtc_r.
Qed.

(** The loop over the neighbours leaves no cell of the row Unknown, and
    makes no cell Unknown or Known. *)
Lemma relax_active (ids : list nat) :
  ∀ st st', relax sqrt mesh ids st = Ok st' →
  (∀ j, active st.1.2 j → active st'.1.2 j)
  ∧ (∀ adj, adj ∈ ids → active st'.1.2 adj)
  ∧ (∀ c, st'.1.2 !! c = Some 1%nat → st.1.2 !! c = Some 1%nat)
  ∧ (Forall (λ f, (f <= 2)%nat) st.1.2 →
     Forall (λ f, (f <= 2)%nat) st'.1.2).
Proof.
  induction ids as [|adj ids IH]; intros st st' H.
  - simpl in H. injection H as <-. repeat split; try done.
    intros a Ha. by apply elem_of_nil in Ha.
  - destruct st as [[var flags] trial]. cbn [relax] in H.
    apply bind_Ok in H as (f & Hf%getitem_Ok & H).
    case_decide as Hne.
    + apply bind_Ok in H as (v & _ & H).
      apply bind_Ok in H as (var1 & _ & H).
      case_decide as H0.
      * apply bind_Ok in H as (flags1 & [Hlt ->]%setitem_Ok & H).
        destruct (IH _ _ H) as (Hmono & Hrow & Hkn & H2). simpl in *.
        split; [|split; [|split]].
        -- intros j Hj. apply Hmono. by apply active_insert.
        -- intros a [->|Ha]%elem_of_cons; [|by apply Hrow].
           apply Hmono. exists 2%nat. split; [|done].
           by apply list_lookup_insert_eq.
        -- intros c Hc. apply Hkn in Hc.
           destruct (decide (c = adj)) as [->|Hca].
           ++ rewrite list_lookup_insert_eq in Hc by done. done.
           ++ by rewrite list_lookup_insert_ne in Hc.
        -- intros Hall. apply H2. apply Forall_insert; [done|lia].
      * destruct (IH _ _ H) as (Hmono & Hrow & Hkn & H2). simpl in *.
        split; [done|]. split; [|done].
        intros a [->|Ha]%elem_of_cons; [|by apply Hrow].
        apply Hmono. by exists f.
    + destruct (IH _ _ H) as (Hmono & Hrow & Hkn & H2). simpl in *.
      split; [done|]. split; [|done].
      intros a [->|Ha]%elem_of_cons; [|by apply Hrow].
      apply Hmono. exists f. split; [done|]. 
      destruct (decide (f = 1%nat)) as [->|]; [lia|done].
Qed.

Lemma relax_reachable (cellID : nat) (ids : list nat) (st st' : march_state) :
  reachable mesh var0 cellID →
  getCellToCellIDsFilled mesh !! cellID = Some ids →
  relax sqrt mesh ids st = Ok st' →
  (∀ c, active st.1.2 c → reachable mesh var0 c) →
  ∀ c, active st'.1.2 c → reachable mesh var0 c.
Proof.
  intros Hr Hids H HI.
  refine (relax_invariant_in sqrt mesh
            (λ s, ∀ c, active s.1.2 c → reachable mesh var0 c)
            ids _ st st' HI H).
  intros [[v fl] tr] adj f w Hin Hs Hf Hne _ _ c. unfold relaxed. simpl in *.
  case_decide; [|by apply Hs].
  intros [->|Hc]%active_insert_inv; [|by apply Hs].
  apply (reachable_step cellID); [done|]. by exists ids.
Qed.

Lemma march_step_solve_inv (st st' : march_state) :
  trial_inv st → solve_inv mesh var0 st.1.2 →
  march_step sqrt mesh st = Ok st' →
  solve_inv mesh var0 st'.1.2.
Proof.
  destruct st as [[var flags] trial]. intros [_ Hiff] (H2 & Hcl & Hre) H.
  simpl in *.
  apply march_step_Ok
    in H as (cellID & trial1 & ids & Hsel & Hlt & Hrem & Hids & H).
  destruct (selectCell_Ok _ _ _ Hsel) as (r & x & Hr & _).
  assert (Hin : cellID ∈ trial) by (by eapply list_elem_of_lookup_2).
  assert (Hf : flags !! cellID = Some 2%nat) by (by apply Hiff).
  assert (Hrc : reachable mesh var0 cellID).
  { apply Hre. by exists 2%nat. }
  destruct (relax_active _ _ _ H) as (Hmono & Hrow & Hkn & H2').
  simpl in *. split; [|split].
  - apply H2'. apply Forall_insert; [done|lia].
  - intros c j Hc (ids' & Hids' & Hj). apply Hkn in Hc.
    destruct (decide (c = cellID)) as [->|Hne].
    + rewrite Hids in Hids'. injection Hids' as <-. by apply Hrow.
    + rewrite list_lookup_insert_ne in Hc by done.
      apply Hmono. apply active_insert; [done|].
      apply (Hcl c j Hc). by exists ids'.
  - apply (relax_reachable cellID ids _ _ Hrc Hids H). simpl.
    intros c [->|Hc]%active_insert_inv; [done|by apply Hre].
Qed.

Lemma march_steps_solve_inv (st st' : march_state) :
  march_steps sqrt mesh st st' →
  trial_inv st → solve_inv mesh var0 st.1.2 →
  solve_inv mesh var0 st'.1.2.
Proof.
  intros Hsteps. induction Hsteps as [st|st st1 st' Hstep _ IH]; [done|].
  intros Hinv HI. apply IH.
  - by destruct (march_step_trial_inv sqrt mesh _ _ Hinv Hstep).
  - by eapply march_step_solve_inv.
Qed.

Hypothesis Hwf : wf_mesh mesh.
Hypothesis Hsym : symmetric_mesh mesh.

(** The flags of [_calcInitialTrialValues], from flags that are 1 on the
    cells of the interface and 0 elsewhere. *)
Lemma initial_solve_inv (flags flags' : list nat) :
  length flags = getNumberOfCells mesh →
  Forall (λ f, (f <= 1)%nat) flags →
  (∀ c, flags !! c = Some 1%nat → interface_cell mesh var0 c) →
  for_each (initialFlag mesh flags) (seq 0 (getNumberOfCells mesh))
  = Ok flags' →
  solve_inv mesh var0 flags'.
Proof.
  intros Hlen H01 Hint Hfl.
  assert (Hlen' : length flags' = getNumberOfCells mesh).
  { apply for_each_length in Hfl. by rewrite length_seq in Hfl. }
  assert (Hcell : ∀ c f', flags' !! c = Some f' →
            ∃ ids f, getCellToCellIDsFilled mesh !! c = Some ids
              ∧ Forall (λ j, (j < length flags)%nat) ids
              ∧ flags !! c = Some f ∧ (f <= 1)%nat
              ∧ f' = (if decide (Forall (λ j, flags !! j = Some 0%nat) ids)
                      then f else if decide (f = 1%nat) then f else 2%nat)).
  { intros c f' Hc.
    assert (Hlt : (c < getNumberOfCells mesh)%nat).
    { rewrite <- Hlen'. by eapply lookup_lt_Some. }
    destruct (for_each_seq_lookup _ _ _ c Hfl Hlt) as (g & Hg & E).
    rewrite Hc in Hg. injection Hg as <-.
    apply initialFlag_Ok in E as (ids & f & Hids & Hr & Hf & E).
    exists ids, f. repeat split; try done.
    by apply (proj1 (Forall_lookup _ _) H01 _ _ Hf). }
  assert (Hnz : ∀ ids, Forall (λ j, (j < length flags)%nat) ids →
            ¬ Forall (λ j, flags !! j = Some 0%nat) ids →
            ∃ j, j ∈ ids ∧ flags !! j = Some 1%nat).
  { intros ids Hr Hz.
    apply not_Forall_Exists in Hz; [|intros j; apply _].
    apply Exists_exists in Hz as (j & Hj & Hjz).
    pose proof (proj1 (Forall_forall _ _) Hr j Hj) as Hjl. simpl in Hjl.
    destruct (lookup_lt_is_Some_2 flags j Hjl) as [fj Hfj].
    pose proof (proj1 (Forall_lookup _ _) H01 _ _ Hfj) as Hfj1.
    simpl in Hfj1. exists j. split; [done|].
    destruct (decide (fj = 0%nat)) as [->|]; [by destruct Hjz|].
    rewrite Hfj. f_equal. lia. }
  split; [|split].
  - apply Forall_lookup. intros c f' Hc.
    destruct (Hcell c f' Hc) as (ids & f & _ & _ & _ & Hf1 & ->).
    repeat case_decide; lia.
  - intros c j Hc Hn.
    destruct (Hcell c 1%nat Hc) as (ids & f & _ & _ & Hf & Hf1 & E).
    assert (f = 1%nat) as -> by (repeat case_decide; lia).
    clear E.
    destruct (neighbour_lt mesh Hwf _ _ Hn) as [_ Hjl].
    destruct (lookup_lt_is_Some_2 flags' j) as [fj' Hfj']; [lia|].
    exists fj'. split; [done|].
    destruct (Hcell j fj' Hfj') as (idsj & fj & Hidsj & _ & Hfj & _ & ->).
    destruct (Hsym _ _ Hn) as (idsj' & Hidsj' & Hcin).
    rewrite Hidsj in Hidsj'. injection Hidsj' as <-.
    rewrite decide_False.
    + destruct (decide (fj = 1%nat)); lia.
    + intros Hall. pose proof (proj1 (Forall_forall _ _) Hall c Hcin) as E'.
      simpl in E'. congruence.
  - intros c (f' & Hc & Hnz').
    destruct (Hcell c f' Hc) as (ids & f & Hids & Hr & Hf & Hf1 & ->).
    destruct (decide (f = 1%nat)) as [->|Hf0].
    { exists c. split; [by apply Hint | apply rtc_refl]. }
    destruct (decide (Forall (λ j, flags !! j = Some 0%nat) ids))
      as [Hz|Hz]; [lia|].
    destruct (Hnz ids Hr Hz) as (j & Hj & Hj1).
    exists j. split; [by apply Hint|].
    apply rtc_once. apply Hsym. by exists ids.
Qed.

End Reach.

(** X9: on a well-formed mesh whose adjacency is symmetric and whose
    distances are positive, the cells that [solve] returns flagged 1
    (Known) are the cells that can be reached, from neighbour to
    neighbour, from a cell with a neighbour of opposite sign; every other
    cell is returned flagged 0 (Unknown). *)
Theorem solve_known_iff_reachable (sqrt : Q → Q) (mesh : Mesh) (fuel : nat)
    (var var' : list Q) (flags' : list nat) (c : nat) :
  wf_mesh mesh →
  symmetric_mesh mesh →
  (0 < getMaxFacesPerCell mesh)%nat →
  positive_distances mesh →
  length var = getNumberOfCells mesh →
  solve sqrt mesh fuel var = Some (Ok (var', flags')) →
  (c < getNumberOfCells mesh)%nat →
  (reachable mesh var c → flags' !! c = Some 1%nat)
  ∧ (¬ reachable mesh var c → flags' !! c = Some 0%nat).
Proof.
  intros Hwf Hsym HM Hpos Hvar H Hc.
  unfold solve in H.
  destruct (_calcInterfaceValues mesh var) as [[var1 flags1]|] eqn:H1;
    [|done].
  destruct (calcInterfaceValues_cells mesh var var1 flags1 Hwf HM Hpos Hvar H1)
    as (Hvar1 & Hfl1 & Hcells).
  pose proof (calcInterfaceValues_flags01 _ _ _ _ H1) as H01.
  destruct (_calcInitialTrialValues sqrt mesh var1 flags1)
    as [[var2 flags2]|] eqn:H2; [|done].
  unfold _calcRemainingValues in H.
  destruct (march sqrt mesh fuel (var2, flags2, nonzero_eq2 flags2))
    as [[st'|]|] eqn:E; [|done..].
  injection H as H.
  destruct (march_Ok_steps _ _ _ _ _ E) as [Hsteps Hnil].
  pose proof (trial_inv_initial var2 flags2) as Hinv.
  destruct (march_steps_trial_inv _ _ _ _ Hinv Hsteps)
    as ([_ Hiff] & _ & L2 & _).
  unfold _calcInitialTrialValues in H2.
  apply bind_Ok in H2 as (fl & Hfl & H2).
  apply bind_Ok in H2 as (v & _ & [= <- <-]).
  (* the flags of the classifier *)
  assert (Hint : ∀ i, interface_cell mesh var i ↔ flags1 !! i = Some 1%nat).
  { intros i. split.
    - intros (ids & s & j & x & xj & Hids & Hs & Hx & Hxj & Hop).
      assert (Hi : (i < getNumberOfCells mesh)%nat).
      { rewrite <- Hvar. by eapply lookup_lt_Some. }
      destruct (wf_rows mesh Hwf i Hi)
        as (ids' & dAP & ? & ? & Hids' & HdAP & _).
      rewrite Hids in Hids'. injection Hids' as <-.
      apply (Hcells i ids dAP x Hids HdAP Hx). by exists s, j, xj.
    - intros Hi1.
      assert (Hi : (i < getNumberOfCells mesh)%nat).
      { rewrite <- Hfl1. by eapply lookup_lt_Some. }
      destruct (wf_rows mesh Hwf i Hi)
        as (ids & dAP & ? & ? & Hids & HdAP & _).
      destruct (lookup_lt_is_Some_2 var i) as [phi Hphi]; [lia|].
      destruct (opposite_neighbour_dec var ids phi)
        as [(s & j & pa & Hs & Hpa & Hop)|Hno].
      + by exists ids, s, j, phi, pa.
      + destruct (proj2 (Hcells i ids dAP phi Hids HdAP Hphi) Hno) as [E0 _].
        congruence. }
  pose proof (initial_solve_inv mesh var Hwf Hsym flags1 fl Hfl1 H01
                (λ i, proj2 (Hint i)) Hfl) as HI.
  pose proof (march_steps_solve_inv sqrt mesh var _ _ Hsteps Hinv HI)
    as (HF2 & Hcl & Hre).
  rewrite H in *. simpl in *.
  assert (Hnot2 : ∀ j, flags' !! j ≠ Some 2%nat).
  { intros j Hj. apply Hiff in Hj. rewrite Hnil in Hj.
    by apply elem_of_nil in Hj. }
  assert (Hlen : length flags' = getNumberOfCells mesh).
  { rewrite L2. apply for_each_length in Hfl.
    by rewrite length_seq in Hfl. }
  split.
  - intros (i & Hi & Hrtc).
    assert (Hi1 : flags' !! i = Some 1%nat).
    { apply Hint in Hi.
      assert (Hil : (i < getNumberOfCells mesh)%nat).
      { rewrite <- Hfl1. by eapply lookup_lt_Some. }
      pose proof (initialFlag_known mesh _ _ _ Hfl Hi Hil) as Hi2.
      destruct (march_steps_known sqrt mesh _ _ i Hsteps Hi2) as [Hk _].
      by rewrite H in Hk. }
    clear Hi Hc. revert Hi1.
    induction Hrtc as [i|i j k Hn _ IH]; [done|].
    intros Hi1. apply IH.
    destruct (Hcl i j Hi1 Hn) as (f & Hf & Hf0).
    pose proof (proj1 (Forall_lookup _ _) HF2 _ _ Hf) as Hf2. simpl in Hf2.
    rewrite Hf. f_equal.
    destruct (decide (f = 2%nat)) as [->|]; [by destruct (Hnot2 j)|lia].
  - intros Hnr.
    destruct (lookup_lt_is_Some_2 flags' c) as [f Hf]; [lia|].
    destruct (decide (f = 0%nat)) as [->|Hf0]; [done|].
    destruct Hnr. apply Hre. by exists f.
Qed.

Lemma Islands_far_side (i : nat) :
  rtc (neighbour Islands) i 3%nat → i = 3%nat ∨ i = 4%nat.
Proof.
  intros H. remember 3%nat as t eqn:Et.
  induction H as [i|i j k Hn _ IH]; [by left|].
  specialize (IH Et). destruct Hn as (ids & Hids & Hj).
  do 5 (destruct i as [|i]; [injection Hids as <-;
    repeat (apply elem_of_cons in Hj as [->|Hj]);
    try (by apply elem_of_nil in Hj); lia|]).
  done.
Qed.

Lemma Islands_3_unreachable : ¬ reachable Islands [-1; 1; 1; 1; 1] 3.
Proof.
  intros (i & (ids & s & j & x & xj & Hids & Hs & Hx & Hxj & Hop) & Hrtc).
  unfold opposite in Hop.
  destruct (Islands_far_side i Hrtc) as [->| ->];
    injection Hids as <-; injection Hx as <-;
    do 4 (destruct s as [|s]; [injection Hs as <-; injection Hxj as <-;
                               vm_compute in Hop; discriminate|]);
    done.
Qed.

Lemma Islands_2_reachable : reachable Islands [-1; 1; 1; 1; 1] 2.
Proof.
  exists 1%nat. split.
  - exists [1; 2; 1; 0]%nat, 3%nat, 0%nat, 1, (-1).
    repeat split; try reflexivity.
  - apply rtc_once. exists [1; 2; 1; 0]%nat. split; [reflexivity|].
    set_solver.
Qed.

Lemma solve_known_iff_reachable_witness :
  [1; 1; 1; 0; 0]%nat !! 2%nat = Some 1%nat
  ∧ [1; 1; 1; 0; 0]%nat !! 3%nat = Some 0%nat.
Proof.
  assert (H : ∀ c, (c < getNumberOfCells Islands)%nat →
    (reachable Islands [-1; 1; 1; 1; 1] c →
     [1; 1; 1; 0; 0]%nat !! c = Some 1%nat)
    ∧ (¬ reachable Islands [-1; 1; 1; 1; 1] c →
       [1; 1; 1; 0; 0]%nat !! c = Some 0%nat)).
  { intros c. 
    apply (solve_known_iff_reachable Qsqrt Islands 6 [-1; 1; 1; 1; 1]
             [-1 # 2; 1 # 2; 3 # 2; 1; 1] [1; 1; 1; 0; 0]%nat c).
    - exact Islands_wf.
    - exact Islands_symmetric.
    - simpl. lia.
    - exact Islands_positive.
    - reflexivity.
    - vm_compute. reflexivity. }
  split.
  - apply (H 2%nat); [simpl; lia | exact Islands_2_reachable].
  - apply (H 3%nat); [simpl; lia | exact Islands_3_unreachable].
Defined.

(** ** The cells [solve] leaves alone *)

Lemma calcInterfaceValues_unknown (mesh : Mesh) (var var' : list Q)
    (flags' : list nat) (c : nat) :
  _calcInterfaceValues mesh var = Ok (var', flags') →
  flags' !! c = Some 0%nat → var' !! c = var !! c.
Proof.
  unfold _calcInterfaceValues. intros H Hc.
  apply bind_Ok in H as (cells & Hcells & [= <- <-]).
  rewrite list_lookup_fmap in Hc. rewrite list_lookup_fmap.
  destruct (cells !! c) as [[v f]|] eqn:E; [|done].
  simpl in Hc. injection Hc as ->. simpl.
  assert (Hlt : (c < getNumberOfCells mesh)%nat).
  { apply for_each_length in Hcells. rewrite length_seq in Hcells.
    rewrite <- Hcells. by eapply lookup_lt_Some. }
  destruct (for_each_seq_lookup _ _ _ c Hcells Hlt) as (x & Hx & Hcell).
  rewrite E in Hx. injection Hx as <-.
  unfold interfaceCell in Hcell.
  apply bind_Ok in Hcell as ([zf dist] & _ & Hcell).
  apply bind_Ok in Hcell as (am & _ & Hcell).
  apply bind_Ok in Hcell as (d & _ & Hcell).
  cbv zeta in Hcell. case_decide.
  - by apply bind_Ok in Hcell as (w & _ & [= _ ?]).
  - apply bind_Ok in Hcell as (w & Hw%getitem_Ok & [= <-]). done.
Qed.

Lemma calcInitialTrialValues_unknown (sqrt : Q → Q) (mesh : Mesh)
    (var var' : list Q) (flags flags' : list nat) (c : nat) :
  _calcInitialTrialValues sqrt mesh var flags = Ok (var', flags') →
  flags' !! c = Some 0%nat →
  flags !! c = Some 0%nat ∧ var' !! c = var !! c.
Proof.
  intros H Hc. unfold _calcInitialTrialValues in H.
  apply bind_Ok in H as (fl & Hfl & H).
  apply bind_Ok in H as (v & Hv & [= <- <-]).
  split.
  - assert (Hlt : (c < getNumberOfCells mesh)%nat).
    { apply for_each_length in Hfl. rewrite length_seq in Hfl.
      rewrite <- Hfl. by eapply lookup_lt_Some. }
    destruct (for_each_seq_lookup _ _ _ c Hfl Hlt) as (f' & Hf' & E).
    rewrite Hc in Hf'. injection Hf' as <-.
    apply initialFlag_Ok in E as (ids & f & _ & _ & Hf & E).
    rewrite Hf. f_equal. repeat case_decide; lia.
  - refine (setTrialValues_invariant sqrt mesh fl
              (λ w, w !! c = var !! c) (nonzero_eq2 fl) _ var v eq_refl Hv).
    intros w c' x Hin Hw _ _. apply nonzero_eq2_elem in Hin.
    rewrite list_lookup_insert_ne; [done|]. intros ->. congruence.
Qed.

Lemma march_step_unknown (sqrt : Q → Q) (mesh : Mesh) (st st' : march_state)
    (c : nat) :
  march_step sqrt mesh st = Ok st' →
  st'.1.2 !! c = Some 0%nat →
  st.1.2 !! c = Some 0%nat ∧ st'.1.1 !! c = st.1.1 !! c.
Proof.
  destruct st as [[var flags] trial]. intros H. simpl.
  apply march_step_Ok
    in H as (cellID & trial1 & ids & _ & Hlt & _ & _ & H).
  intros Hc.
  assert (HI : <[cellID:=1%nat]> flags !! c = Some 0%nat
               ∧ st'.1.1 !! c = var !! c).
  { revert Hc.
    refine (relax_invariant sqrt mesh
              (λ s, s.1.2 !! c = Some 0%nat →
                    <[cellID:=1%nat]> flags !! c = Some 0%nat
                    ∧ s.1.1 !! c = var !! c) _ ids _ st' _ H); [|done].
    clear. intros [[v fl] tr] adj f w HI Hf Hne _ _. unfold relaxed.
    simpl in *. intros Hc.
    assert (Hca : c ≠ adj).
    { intros ->. case_decide as H0.
      - rewrite list_lookup_insert_eq in Hc; [done|].
        by eapply lookup_lt_Some.
      - congruence. }
    rewrite (list_lookup_insert_ne v) by done. apply HI.
    case_decide; [|done]. by rewrite list_lookup_insert_ne in Hc. }
  destruct HI as [HA Hv]. split; [|done].
  destruct (decide (c = cellID)) as [->|Hne].
  - by rewrite list_lookup_insert_eq in HA.
  - by rewrite list_lookup_insert_ne in HA.
Qed.

Lemma march_steps_unknown (sqrt : Q → Q) (mesh : Mesh) (st st' : march_state)
    (c : nat) :
  march_steps sqrt mesh st st' →
  st'.1.2 !! c = Some 0%nat →
  st.1.2 !! c = Some 0%nat ∧ st'.1.1 !! c = st.1.1 !! c.
Proof.
  intros Hsteps. induction Hsteps as [st|st st1 st' Hstep _ IH]; [done|].
  intros Hc. destruct (IH Hc) as [Hc1 Hv1].
  destruct (march_step_unknown _ _ _ _ c Hstep Hc1) as [Hc0 Hv0].
  split; [done | congruence].
Qed.

(** X10: a cell that [solve] returns flagged 0 (Unknown) has the value it
    had in the initial field: [solve] writes only cells that it flags. *)
Theorem solve_unknown_unchanged (sqrt : Q → Q) (mesh : Mesh) (fuel : nat)
    (var var' : list Q) (flags' : list nat) (c : nat) :
  solve sqrt mesh fuel var = Some (Ok (var', flags')) →
  flags' !! c = Some 0%nat →
  var' !! c = var !! c.
Proof.
  unfold solve. intros H Hc.
  destruct (_calcInterfaceValues mesh var) as [[var1 flags1]|] eqn:H1;
    [|done].
  destruct (_calcInitialTrialValues sqrt mesh var1 flags1)
    as [[var2 flags2]|] eqn:H2; [|done].
  unfold _calcRemainingValues in H.
  destruct (march sqrt mesh fuel (var2, flags2, nonzero_eq2 flags2))
    as [[st'|]|] eqn:E; [|done..].
  destruct st' as [[v f] t]. injection H as -> ->.
  destruct (march_Ok_steps _ _ _ _ _ E) as [Hsteps _].
  destruct (march_steps_unknown _ _ _ _ c Hsteps Hc) as [Hc2 Hv2].
  destruct (calcInitialTrialValues_unknown _ _ _ _ _ _ c H2 Hc2)
    as [Hc1 Hv1].
  pose proof (calcInterfaceValues_unknown _ _ _ _ c H1 Hc1) as Hv0.
  simpl in *. congruence.
Qed.

Lemma solve_unknown_unchanged_witness :
  [-1 # 2; 1 # 2; 3 # 2; 1; 1] !! 4%nat = [-1; 1; 1; 1; 1] !! 4%nat.
Proof.
  apply (solve_unknown_unchanged Qsqrt Islands 6 [-1; 1; 1; 1; 1]
           [-1 # 2; 1 # 2; 3 # 2; 1; 1] [1; 1; 1; 0; 0]%nat 4).
  - vm_compute. reflexivity.
  - reflexivity.
Defined.

(** ** The trial value lies beyond the nearest Known neighbour *)

Lemma quadratic_beyond (sqrt : Q → Q) (v0 v1 : Q) (n0 n1 : Q * Q)
    (d0 d1 a0 a1 : Q) (cellID j0 j1 : nat) (q : Q) :
  (∀ x, 0 <= x → 0 <= sqrt x) →
  0 < d0 → 0 < d1 → Numeric_dot n0 n1 <= 0 →
  (v0 <= v1 →
   (_calcQuadratic sqrt v0 v1 n0 n1 d0 d1 a0 a1 cellID j0 j1).1 = Num q →
   v0 <= q)
  ∧ (v1 <= v0 →
     (_calcQuadratic sqrt v0 v1 n0 n1 d0 d1 a0 a1 cellID j0 j1).2 = Num q →
     q <= v0).
Proof.
  intros Hsqrt Hd0 Hd1 Hdn. unfold _calcQuadratic. cbv zeta. cbn [fst snd].
  unfold Numeric_sqrt.
  match goal with
  | |- context [Qltb ?x 0] =>
      destruct (Qltb x 0) eqn:E; [by split|];
      apply Qltb_ge in E; pose proof (Hsqrt x E) as Hsq; clear E;
      generalize dependent (sqrt x)
  end.
  intros sq Hsq. cbn [Float_add Float_sub Float_div].
  match goal with
  | |- context [Qeq_bool ?x 0] => destruct (Qeq_bool x 0); [by split|]
  end.
  generalize dependent (Numeric_dot n0 n1). intros dn Hdn.
  assert (Hdd : 0 < d0 * d1) by nra.
  assert (Hdot : d0 * d1 * dn <= 0) by nra.
  assert (Ha : 0 < d0 ^ 2) by nra.
  assert (Hb : 0 < d1 ^ 2) by nra.
  generalize dependent (d0 * d1 * dn). intros dot Hdot.
  generalize dependent (d0 ^ 2). generalize dependent (d1 ^ 2).
  intros b Hb a Ha.
  split; intros Hv [= <-].
  - apply Qle_shift_div_l; [lra|].
    assert (0 <= (v1 - v0) * (a - dot)) by nra.
    lra.
  - apply Qle_shift_div_r; [lra|].
    assert (0 <= (v0 - v1) * (a - dot)) by nra.
    lra.
Qed.

Lemma Qabs_le_pos (x y : Q) : 0 < x → 0 < y → Qabs x <= Qabs y → x <= y.
Proof.
  intros Hx Hy H.
  rewrite (Qabs_pos x), (Qabs_pos y) in H; lra.
Qed.

Lemma Qabs_le_neg (x y : Q) : x < 0 → y < 0 → Qabs x <= Qabs y → y <= x.
Proof.
  intros Hx Hy H.
  rewrite (Qabs_neg x), (Qabs_neg y) in H; lra.
Qed.

(** X11: when the Known neighbours of a cell have the sign of the cell, on
    a mesh with positive distances and face normals at right or obtuse
    angles, the number that [_calcTrialValue] returns is at least as far
    from zero as the value of the nearest Known neighbour. *)
Theorem calcTrialValue_beyond_nearest (sqrt : Q → Q) (mesh : Mesh)
    (var : list Q) (flags : list nat) (cellID : nat) (ids : list nat)
    (phi v : Q) :
  wf_mesh mesh →
  positive_distances mesh →
  obtuse_normals mesh →
  (∀ x, 0 <= x → 0 <= sqrt x) →
  length var = getNumberOfCells mesh →
  length flags = getNumberOfCells mesh →
  getCellToCellIDsFilled mesh !! cellID = Some ids →
  var !! cellID = Some phi →
  _calcTrialValue sqrt mesh var cellID flags = Ok (Num v) →
  (0 < phi
   ∧ ∀ s j x, ids !! s = Some j → isKnown flags j → var !! j = Some x → 0 < x)
  ∨ (phi < 0
     ∧ ∀ s j x, ids !! s = Some j → isKnown flags j → var !! j = Some x →
                x < 0) →
  ∃ s j x,
    ids !! s = Some j ∧ isKnown flags j ∧ var !! j = Some x
    ∧ (∀ s' j' x', ids !! s' = Some j' → isKnown flags j' →
                   var !! j' = Some x' → Qabs x <= Qabs x')
    ∧ Qabs x <= Qabs v.
Proof.
  intros Hwf Hdist Hnormals Hsqrt Hvar Hflags Hids Hphi Hv Hsign.
  assert (Hc : (cellID < getNumberOfCells mesh)%nat).
  { rewrite <- Hvar. by eapply lookup_lt_Some. }
  destruct (calcTrialValue_Ok_cases sqrt mesh Hwf var flags cellID (Num v)
              Hvar Hflags Hc Hv)
    as (ids' & dAP & normals & areas & phi' & vals & p & Hview & Hcases).
  pose proof (tv_ids _ _ _ _ _ _ _ _ _ _ _ Hview) as E1.
  pose proof (tv_phi _ _ _ _ _ _ _ _ _ _ _ Hview) as E2.
  rewrite Hids in E1. injection E1 as <-.
  rewrite Hphi in E2. injection E2 as <-.
  assert (Hd : ∀ s d, dAP !! s = Some d → 0 < d).
  { intros s d Hs.
    pose proof (Forall_lookup_1 _ _ _ _ Hdist
                  (tv_dAP _ _ _ _ _ _ _ _ _ _ _ Hview)) as H.
    by eapply (Forall_lookup_1 _ _ _ _ H). }
  destruct (wf_rows mesh Hwf cellID Hc)
    as (ids' & ? & ? & ? & Hids' & _ & _ & _ & Lids & _).
  rewrite Hids in Hids'. injection Hids' as <-.
  (* the first neighbour in the order of the magnitudes is the nearest *)
  assert (Hnearest : ∀ s0 v0, p !! 0%nat = Some s0 →
            vals !! s0 = Some (Some v0) →
            ∀ s' j' x', ids !! s' = Some j' → isKnown flags j' →
                        var !! j' = Some x' → Qabs v0 <= Qabs x').
  { intros s0 v0 Hp0 Hv0 s' j' x' Hj' Hk' Hx'.
    assert (Hv' : vals !! s' = Some (Some x')).
    { by apply (view_vals_known _ _ _ _ _ _ _ _ _ _ _ _ _ _ Hview Hj'). }
    destruct (view_slot_pos _ _ _ _ _ _ _ _ _ _ _ Hview s') as [k Hk].
    { rewrite <- Lids. by eapply lookup_lt_Some. }
    destruct k as [|k].
    - rewrite Hp0 in Hk. injection Hk as <-.
      rewrite Hv0 in Hv'. injection Hv' as <-. apply Qle_refl.
    - eapply (view_sorted_abs _ _ _ _ _ _ _ _ _ _ _ Hview 0%nat (S k));
        eauto. lia. }
  destruct Hcases
    as [[K1 (s0 & j0 & v0 & d0 & Hp0 & Hj0 & Hv0 & Hd0 & Heq)]
       |[K2 (s0 & s1 & j0 & j1 & v0 & v1 & d0 & d1 & n0 & n1 & a0 & a1
             & Hp0 & Hp1 & Hj0 & Hj1 & Hv0 & Hv1 & Hd0 & Hd1 & Hn0 & Hn1
             & _ & _ & Heq)]].
  { injection Heq as Heq.
    pose proof (Hnearest _ _ Hp0 Hv0) as Hmin.
    apply (view_vals_known _ _ _ _ _ _ _ _ _ _ _ _ _ _ Hview Hj0) in Hv0
      as [Hk0 Hx0].
    pose proof (Hd _ _ Hd0).
    exists s0, j0, v0. repeat split; try done.
    destruct Hsign as [[Hs Hnb]|[Hs Hnb]];
      pose proof (Hnb _ _ _ Hj0 Hk0 Hx0);
      destruct (Qltb 0 phi) eqn:E;
      try apply Qltb_lt in E; try apply Qltb_ge in E; try lra; subst v.
    - rewrite (Qabs_pos v0), (Qabs_pos (v0 + d0)); lra.
    - rewrite (Qabs_neg v0), (Qabs_neg (v0 - d0)); lra. }
  pose proof (Hnearest _ _ Hp0 Hv0) as Hmin.
  assert (H01 : Qabs v0 <= Qabs v1).
  { eapply (view_sorted_abs _ _ _ _ _ _ _ _ _ _ _ Hview 0%nat 1%nat);
      eauto. }
  apply (view_vals_known _ _ _ _ _ _ _ _ _ _ _ _ _ _ Hview Hj0) in Hv0
    as [Hk0 Hx0].
  apply (view_vals_known _ _ _ _ _ _ _ _ _ _ _ _ _ _ Hview Hj1) in Hv1
    as [Hk1 Hx1].
  assert (Hne : s0 ≠ s1).
  { intros ->.
    pose proof (NoDup_lookup _ _ _ _ (view_NoDup _ _ _ _ _ _ _ _ _ _ _ Hview)
                  Hp0 Hp1). done. }
  assert (Hdn : Numeric_dot n0 n1 <= 0).
  { pose proof (Forall_lookup_1 _ _ _ _ Hnormals
                  (tv_normals _ _ _ _ _ _ _ _ _ _ _ Hview)) as H.
    by eapply (H s0 s1). }
  destruct (quadratic_beyond sqrt v0 v1 n0 n1 d0 d1 a0 a1 cellID j0 j1 v Hsqrt
              (Hd _ _ Hd0) (Hd _ _ Hd1) Hdn) as [Hpos Hneg].
  set (q := _calcQuadratic sqrt v0 v1 n0 n1 d0 d1 a0 a1 cellID j0 j1) in *.
  clearbody q.
  exists s0, j0, v0. repeat split; try done.
  destruct Hsign as [[Hs Hnb]|[Hs Hnb]];
    pose proof (Hnb _ _ _ Hj0 Hk0 Hx0) as S0;
    pose proof (Hnb _ _ _ Hj1 Hk1 Hx1) as S1;
    destruct (Qltb 0 phi) eqn:E;
    try apply Qltb_lt in E; try apply Qltb_ge in E; try lra.
  - pose proof (Hpos (Qabs_le_pos _ _ S0 S1 H01) (eq_sym Heq)) as Hle.
    rewrite (Qabs_pos v0), (Qabs_pos v); lra.
  - pose proof (Hneg (Qabs_le_neg _ _ S0 S1 H01) (eq_sym Heq)) as Hle.
    rewrite (Qabs_neg v0), (Qabs_neg v); lra.
Qed.

Lemma calcTrialValue_beyond_nearest_witness :
  ∃ s j x,
    [1; 3; 3; 2]%nat !! s = Some j ∧ isKnown [1; 1; 1; 2]%nat j
    ∧ [-1 # 2; 1 # 2; 1 # 2; 1] !! j = Some x
    ∧ (∀ s' j' x', [1; 3; 3; 2]%nat !! s' = Some j' →
                   isKnown [1; 1; 1; 2]%nat j' →
                   [-1 # 2; 1 # 2; 1 # 2; 1] !! j' = Some x' →
                   Qabs x <= Qabs x')
    ∧ Qabs x <= Qabs (8 # 8).
Proof.
  apply (calcTrialValue_beyond_nearest Qsqrt (Grid2D 1 1 2 2)
           [-1 # 2; 1 # 2; 1 # 2; 1] [1; 1; 1; 2]%nat 3 [1; 3; 3; 2]%nat 1
           (8 # 8)).
  - apply Grid2D_2_2_wf.
  - solve_positive.
  - unfold obtuse_normals. simpl.
    repeat constructor; by apply grid_normals_obtuse.
  - intros x _. apply Qsqrt_nonneg.
  - reflexivity.
  - reflexivity.
  - reflexivity.
  - reflexivity.
  - vm_compute. reflexivity.
  - left. split; [reflexivity|].
    intros s j x Hs Hk Hx. unfold isKnown in Hk.
    do 4 (destruct s as [|s]; [injection Hs as <-; try discriminate Hk;
                               injection Hx as <-; reflexivity|]).
    done.
Defined.

(** ** What the trial value depends on *)

Lemma Numeric_take_Raise {A} (a : list A) (ids : list nat) (e : exn) :
  Numeric_take a ids = Raise e → e = IndexError.
Proof.
  induction ids as [|i ids IH]; [done|]. cbn [Numeric_take]. unfold getitem.
  destruct (a !! i) as [x|]; [|by intros [= <-]].
  rewrite bind_Ok_l. destruct (Numeric_take a ids) as [l|e']; [done|].
  intros [= <-]. by apply IH.
Qed.

Lemma Numeric_take_same_length {A} (a a' : list A) (ids : list nat) (e : exn) :
  length a = length a' →
  Numeric_take a ids = Raise e → Numeric_take a' ids = Raise e.
Proof.
  intros Hlen H. destruct (Numeric_take a' ids) as [l'|e'] eqn:E'.
  - apply Numeric_take_Ok in E'.
    destruct (Numeric_take_total a ids) as [l Hl]; [|congruence].
    apply Forall_lookup_2. intros k i Hk.
    destruct (Forall2_lookup_l _ _ _ _ _ E' Hk) as (x & _ & Hx).
    rewrite Hlen. by eapply lookup_lt_Some.
  - apply Numeric_take_Raise in H, E'. congruence.
Qed.

Lemma MA_array_known_eq (var var' : list Q) (flags : list nat)
    (ids : list nat) :
  (∀ j, j ∈ ids → isKnown flags j → var !! j = var' !! j) →
  ∀ phiAdj phiAdj' adjFlag,
    Forall2 (λ i x, var !! i = Some x) ids phiAdj →
    Forall2 (λ i x, var' !! i = Some x) ids phiAdj' →
    Forall2 (λ i f, flags !! i = Some f) ids adjFlag →
    MA_array phiAdj (map (λ f, negb (f =? 1)%nat) adjFlag)
    = MA_array phiAdj' (map (λ f, negb (f =? 1)%nat) adjFlag).
Proof.
  induction ids as [|i ids IH]; intros Hk phiAdj phiAdj' adjFlag H1 H2 H3.
  - by inversion H1; inversion H2; subst.
  - inversion H1 as [|? x ? l Hx Hl]; inversion H2 as [|? x' ? l' Hx' Hl'];
      inversion H3 as [|? f ? fl Hf Hfl]; subst. simpl.
    rewrite (IH (λ j Hj, Hk j (list_elem_of_further _ _ _ Hj)) l l' fl)
      by done.
    destruct (f =? 1)%nat eqn:E; [|done]. simpl.
    apply Nat.eqb_eq in E. subst f.
    pose proof (Hk i (list_elem_of_here _ _) Hf) as Heq.
    rewrite Hx, Hx' in Heq. by injection Heq as ->.
Qed.

(** X12: the value that [_calcTrialValue] returns for a cell, or the
    exception it raises, depends on the field only through the values of
    the Known neighbours of the cell and through the sign test of the
    cell's own value. *)
Theorem calcTrialValue_depends_on_known (sqrt : Q → Q) (mesh : Mesh)
    (var var' : list Q) (flags : list nat) (cellID : nat) (ids : list nat)
    (phi phi' : Q) :
  length var = length var' →
  getCellToCellIDsFilled mesh !! cellID = Some ids →
  var !! cellID = Some phi →
  var' !! cellID = Some phi' →
  Qltb 0 phi = Qltb 0 phi' →
  (∀ j, j ∈ ids → isKnown flags j → var !! j = var' !! j) →
  _calcTrialValue sqrt mesh var cellID flags
  = _calcTrialValue sqrt mesh var' cellID flags.
Proof.
  intros Hlen Hids Hphi Hphi' Hsign Hk. unfold _calcTrialValue.
  rewrite (proj2 (getitem_Ok _ _ _) Hids), !bind_Ok_l.
  destruct (getitem (getCellToCellDistances mesh) cellID) as [dAP|e];
    [rewrite !bind_Ok_l | reflexivity].
  destruct (Numeric_take var ids) as [phiAdj|e] eqn:E.
  2:{ by rewrite (Numeric_take_same_length var var' ids e Hlen E). }
  destruct (Numeric_take var' ids) as [phiAdj'|e] eqn:E'.
  2:{ symmetry in Hlen.
      by rewrite (Numeric_take_same_length var' var ids e Hlen E') in E. }
  rewrite !bind_Ok_l.
  destruct (Numeric_take flags ids) as [adjFlag|e] eqn:EF; [|reflexivity].
  rewrite !bind_Ok_l. cbv zeta.
  apply Numeric_take_Ok in E, E', EF.
  rewrite (MA_array_known_eq var var' flags ids Hk phiAdj phiAdj' adjFlag
             E E' EF).
  repeat match goal with
         | |- (?m ≫= _) = (?m ≫= _) =>
             destruct m; [rewrite !bind_Ok_l | reflexivity]
         end.
  rewrite (proj2 (getitem_Ok _ _ _) Hphi), (proj2 (getitem_Ok _ _ _) Hphi'),
    !bind_Ok_l.
  by rewrite Hsign.
Qed.

Lemma calcTrialValue_depends_on_known_witness :
  _calcTrialValue Qsqrt (Grid2D 1 1 2 2) [-1 # 2; 1 # 2; 1 # 2; 1] 3
    [1; 1; 1; 2]%nat
  = _calcTrialValue Qsqrt (Grid2D 1 1 2 2) [-1 # 2; 1 # 2; 1 # 2; 7] 3
      [1; 1; 1; 2]%nat.
Proof.
  apply (calcTrialValue_depends_on_known Qsqrt (Grid2D 1 1 2 2)
           [-1 # 2; 1 # 2; 1 # 2; 1] [-1 # 2; 1 # 2; 1 # 2; 7]
           [1; 1; 1; 2]%nat 3 [1; 3; 3; 2]%nat 1 7).
  - reflexivity.
  - reflexivity.
  - reflexivity.
  - reflexivity.
  - reflexivity.
  - intros j Hj Hkn. unfold isKnown in Hkn.
    repeat (apply elem_of_cons in Hj as [->|Hj]); try done.
    by apply elem_of_nil in Hj.
Defined.
